(** * Encryption context codec and clone engine (source/enc_ctx.c)

    A shallow embedding of the four operations of [source/enc_ctx.c]
    (size, serialize, deserialize, clone) over explicit models of the
    aws-c-common collaborators they call: strings with an ownership tag,
    the allocator, the hash table, the byte buffer and the byte cursor. *)

From Stdlib Require Import ZArith List Lia Bool Permutation Sorted.
From Stdlib Require Import Strings.Byte.
Import ListNotations.

Local Open Scope Z_scope.

(** ** Error codes and return values *)

(** The error codes the functions of this file can leave in the thread's
    last-error slot ([aws_raise_error]). *)
Inductive aws_error : Type :=
| AWS_ERROR_OOM
| AWS_ERROR_SHORT_BUFFER
| AWS_ERROR_OVERFLOW_DETECTED
| AWS_ERROR_INVALID_INDEX
| AWS_CRYPTOSDK_ERR_BAD_CIPHERTEXT
| AWS_CRYPTOSDK_ERR_LIMIT_EXCEEDED.

(** [AWS_OP_SUCCESS] with the out-parameter, or [AWS_OP_ERR] with the error
    that was raised. *)
Inductive aws_result (A : Type) : Type :=
| AWS_OP_SUCCESS (a : A)
| AWS_OP_ERR (e : aws_error).

Arguments AWS_OP_SUCCESS {A} a.
Arguments AWS_OP_ERR {A} e.

Definition UINT16_MAX : Z := 65535.

(** [size_t] of the LP64 targets the SDK is built for. *)
Definition SIZE_MAX : Z := 18446744073709551615.

(** ** Bytes *)

Definition byte_val (b : byte) : Z := Z.of_N (Byte.to_N b).

Definition byte_of_Z (z : Z) : byte :=
  match Byte.of_N (Z.to_N (z mod 256)) with
  | Some b => b
  | None => x00
  end.

Fixpoint bytes_eqb (a b : list byte) : bool :=
  match a, b with
  | [], [] => true
  | x :: a', y :: b' => Byte.eqb x y && bytes_eqb a' b'
  | _, _ => false
  end.

(** [memcmp] on the common prefix, then the shorter array first: the order
    of [aws_string_compare]. *)
Fixpoint bytes_compare (a b : list byte) : comparison :=
  match a, b with
  | [], [] => Eq
  | [], _ :: _ => Lt
  | _ :: _, [] => Gt
  | x :: a', y :: b' =>
      match Z.compare (byte_val x) (byte_val y) with
      | Eq => bytes_compare a' b'
      | c => c
      end
  end.

(** ** Strings ([struct aws_string]) *)

(** An allocator is a non-null pointer; the [allocator] field of a string
    is such a pointer or NULL ([None]), which marks a static string. *)
Definition aws_allocator : Type := N.

(** A string object: [str_ptr] is its address (what a [struct aws_string *]
    compares by), [allocator] and [bytes] are the fields of the struct, and
    [len] is the length of [bytes]. *)
Record aws_string : Type := mk_aws_string {
  str_ptr : N;
  allocator : option aws_allocator;
  bytes : list byte
}.

Definition len (s : aws_string) : Z := Z.of_nat (length (bytes s)).

Definition aws_string_eq (a b : aws_string) : bool :=
  bytes_eqb (bytes a) (bytes b).

Definition aws_string_compare (a b : aws_string) : comparison :=
  bytes_compare (bytes a) (bytes b).

(** ** The allocator and the memory it hands out *)

(** [next_ptr]: the next fresh address; [plan]: for each coming allocation
    whether it succeeds ([true]) or returns NULL ([false]), an exhausted plan
    meaning success; [released]: the addresses given back so far. *)
Record heap : Type := mk_heap {
  next_ptr : N;
  plan : list bool;
  released : list N
}.

Definition aws_mem_acquire (h : heap) : option N * heap :=
  match plan h with
  | false :: p => (None, mk_heap (next_ptr h) p (released h))
  | true :: p => (Some (next_ptr h), mk_heap (N.succ (next_ptr h)) p (released h))
  | [] => (Some (next_ptr h), mk_heap (N.succ (next_ptr h)) [] (released h))
  end.

Definition aws_mem_release (p : N) (h : heap) : heap :=
  mk_heap (next_ptr h) (plan h) (p :: released h).

(** [aws_string_new_from_array]: a fresh string owned by [alloc] holding a
    copy of the bytes, or NULL when the allocation fails. *)
Definition aws_string_new_from_array (alloc : aws_allocator) (bs : list byte)
    (h : heap) : option aws_string * heap :=
  match aws_mem_acquire h with
  | (Some p, h') => (Some (mk_aws_string p (Some alloc) bs), h')
  | (None, h') => (None, h')
  end.

(** [aws_string_destroy]: releases an allocator-owned string; does nothing
    for NULL and for a static string. *)
Definition aws_string_destroy (s : option aws_string) (h : heap) : heap :=
  match s with
  | Some str =>
      match allocator str with
      | Some _ => aws_mem_release (str_ptr str) h
      | None => h
      end
  | None => h
  end.

(** ** Checked size arithmetic *)

Definition aws_add_size_checked (a b : Z) : aws_result Z :=
  if a + b >? SIZE_MAX then AWS_OP_ERR AWS_ERROR_OVERFLOW_DETECTED
  else AWS_OP_SUCCESS (a + b).

Fixpoint add_size_checked_from (accum : Z) (args : list Z) : aws_result Z :=
  match args with
  | [] => AWS_OP_SUCCESS accum
  | next :: rest =>
      match aws_add_size_checked accum next with
      | AWS_OP_SUCCESS accum' => add_size_checked_from accum' rest
      | AWS_OP_ERR e => AWS_OP_ERR e
      end
  end.

(** Sums the arguments from left to right, failing at the first addition
    that does not fit in [size_t]. *)
Definition aws_add_size_checked_varargs (args : list Z) : aws_result Z :=
  add_size_checked_from 0 args.

(** ** The hash table ([struct aws_hash_table] keyed by string contents) *)

Record aws_hash_element : Type := mk_elem {
  key : aws_string;
  value : aws_string
}.

(** The table as the sequence of its elements in the order an iterator
    visits them. *)
Definition aws_hash_table : Type := list aws_hash_element.

Definition key_bytes (e : aws_hash_element) : list byte := bytes (key e).

Definition pair_bytes (e : aws_hash_element) : list byte * list byte :=
  (bytes (key e), bytes (value e)).

Fixpoint mem_bytes (k : list byte) (l : list (list byte)) : bool :=
  match l with
  | [] => false
  | x :: l' => bytes_eqb k x || mem_bytes k l'
  end.

Fixpoint nodup_bytes (l : list (list byte)) : bool :=
  match l with
  | [] => true
  | x :: l' => negb (mem_bytes x l') && nodup_bytes l'
  end.

(** [aws_hash_table_is_valid], as far as this file depends on it: no two
    elements have equal keys under [aws_hash_callback_string_eq]. *)
Definition aws_hash_table_is_valid (t : aws_hash_table) : bool :=
  nodup_bytes (map key_bytes t).

Definition aws_hash_table_get_entry_count (t : aws_hash_table) : Z :=
  Z.of_nat (length t).

Definition aws_hash_table_find (t : aws_hash_table) (k : aws_string)
    : option aws_hash_element :=
  find (fun e => aws_string_eq (key e) k) t.

(** ** Size calculator *)

(** The loop of [aws_cryptosdk_enc_ctx_size] over the iterator's elements,
    [serialized_len] being the accumulator. *)
Fixpoint enc_ctx_size_loop (serialized_len : Z) (iter : list aws_hash_element)
    : aws_result Z :=
  match iter with
  | [] => AWS_OP_SUCCESS serialized_len
  | e :: rest =>
      match aws_add_size_checked_varargs
              [serialized_len; len (key e); len (value e); 4] with
      | AWS_OP_ERR er => AWS_OP_ERR er
      | AWS_OP_SUCCESS s =>
          if s >? UINT16_MAX then AWS_OP_ERR AWS_CRYPTOSDK_ERR_LIMIT_EXCEEDED
          else enc_ctx_size_loop s rest
      end
  end.

Definition aws_cryptosdk_enc_ctx_size (enc_ctx : aws_hash_table) : aws_result Z :=
  let entry_count := aws_hash_table_get_entry_count enc_ctx in
  if entry_count >? UINT16_MAX then AWS_OP_ERR AWS_CRYPTOSDK_ERR_LIMIT_EXCEEDED
  else if entry_count =? 0 then AWS_OP_SUCCESS 0
  else enc_ctx_size_loop 2 enc_ctx.

(** ** Byte buffers and byte cursors *)

(** [struct aws_byte_buf]: [len] is the length of [buffer]. *)
Record aws_byte_buf : Type := mk_buf {
  buffer : list byte;
  capacity : Z
}.

Definition buf_len (b : aws_byte_buf) : Z := Z.of_nat (length (buffer b)).

(** Capacity-checked append: [false] and the buffer untouched when the
    bytes do not fit. *)
Definition aws_byte_buf_write (buf : aws_byte_buf) (src : list byte)
    : bool * aws_byte_buf :=
  if buf_len buf + Z.of_nat (length src) >? capacity buf then (false, buf)
  else (true, mk_buf (buffer buf ++ src) (capacity buf)).

(** The two bytes of a 16-bit value, most significant first. *)
Definition be16 (x : Z) : list byte := [byte_of_Z (x / 256); byte_of_Z x].

(** The cast [(uint16_t)x]. *)
Definition to_uint16 (x : Z) : Z := x mod 65536.

Definition aws_byte_buf_write_be16 (buf : aws_byte_buf) (x : Z)
    : bool * aws_byte_buf :=
  aws_byte_buf_write buf (be16 x).

Definition aws_byte_buf_write_from_whole_string (buf : aws_byte_buf)
    (s : aws_string) : bool * aws_byte_buf :=
  aws_byte_buf_write buf (bytes s).

(** Releases the storage and zeroes the structure. *)
Definition aws_byte_buf_clean_up (buf : aws_byte_buf) : aws_byte_buf :=
  mk_buf [] 0.

(** A cursor is the bytes that remain to be read.  A cursor of non-zero
    length has a non-null pointer, and reading keeps it non-null, so the
    pointer itself is not represented. *)
Definition aws_byte_cursor : Type := list byte.

Definition aws_byte_cursor_read_be16 (cursor : aws_byte_cursor)
    : option Z * aws_byte_cursor :=
  match cursor with
  | hi :: lo :: rest => (Some (256 * byte_val hi + byte_val lo), rest)
  | _ => (None, cursor)
  end.

(** Bounds-checked advance: the [n] bytes passed over, or the null cursor
    ([None]) and no movement when fewer than [n] remain. *)
Definition aws_byte_cursor_advance_nospec (cursor : aws_byte_cursor) (n : Z)
    : option (list byte) * aws_byte_cursor :=
  if n <=? Z.of_nat (length cursor)
  then (Some (firstn (Z.to_nat n) cursor), skipn (Z.to_nat n) cursor)
  else (None, cursor).

(** ** The wire format, as section 6 of the design gives it *)

Definition pair_wire (kv : list byte * list byte) : list byte :=
  be16 (Z.of_nat (length (fst kv))) ++ fst kv ++
  be16 (Z.of_nat (length (snd kv))) ++ snd kv.

Definition pairs_wire (l : list (list byte * list byte)) : list byte :=
  flat_map pair_wire l.

Definition wire_format (count : Z) (l : list (list byte * list byte))
    : list byte :=
  be16 count ++ pairs_wire l.

(** The mathematical serialized length of a sequence of elements. *)
Definition elem_cost (e : aws_hash_element) : Z :=
  4 + len (key e) + len (value e).

Definition total_cost (l : list aws_hash_element) : Z :=
  fold_right (fun e acc => elem_cost e + acc) 0 l.

(** ** Sorting the snapshot array *)

(** Modelled from the spec: [aws_cryptosdk_compare_hash_elems_by_key_string]
    (utils.c) is the comparator of step (5) of the serializer,
    byte-lexicographic comparison of the two keys' raw bytes. *)
Definition aws_cryptosdk_compare_hash_elems_by_key_string
    (a b : aws_hash_element) : comparison :=
  aws_string_compare (key a) (key b).

Fixpoint sort_insert (cmp : aws_hash_element -> aws_hash_element -> comparison)
    (e : aws_hash_element) (l : list aws_hash_element) : list aws_hash_element :=
  match l with
  | [] => [e]
  | x :: l' =>
      match cmp e x with
      | Gt => x :: sort_insert cmp e l'
      | _ => e :: l
      end
  end.

(** [aws_array_list_sort]: the array's items put in ascending order of the
    comparator. *)
Definition aws_array_list_sort
    (cmp : aws_hash_element -> aws_hash_element -> comparison)
    (l : list aws_hash_element) : list aws_hash_element :=
  fold_right (sort_insert cmp) [] l.

(** [struct aws_array_list] of hash elements: its storage and its items. *)
Record aws_array_list : Type := mk_array {
  data_ptr : N;
  items : list aws_hash_element
}.

(** Modelled from the spec: [aws_cryptosdk_hash_elems_array_init] (utils.c)
    takes the snapshot array of all (key, value) entries of the mapping, in
    the order the table's iterator yields them; its one allocation can
    fail. *)
Definition aws_cryptosdk_hash_elems_array_init (alloc : aws_allocator)
    (map : aws_hash_table) (h : heap) : option aws_array_list * heap :=
  match aws_mem_acquire h with
  | (Some p, h') => (Some (mk_array p map), h')
  | (None, h') => (None, h')
  end.

Definition aws_array_list_clean_up (a : aws_array_list) (h : heap) : heap :=
  aws_mem_release (data_ptr a) h.

(** ** Canonical serializer *)

Inductive write_exit : Type :=
| WriteDone (output : aws_byte_buf)
| GetAtFailed (output : aws_byte_buf)
| GotoWriteErr (output : aws_byte_buf).

(** The body of the [for (idx = 0; idx < num_elems; ++idx)] loop, [todo]
    being [num_elems - idx]. *)
Fixpoint serialize_loop (todo : nat) (idx : nat) (elems : list aws_hash_element)
    (output : aws_byte_buf) : write_exit :=
  match todo with
  | O => WriteDone output
  | S todo' =>
      match nth_error elems idx with
      | None => GetAtFailed output
      | Some elem =>
          match aws_byte_buf_write_be16 output (to_uint16 (len (key elem))) with
          | (false, o1) => GotoWriteErr o1
          | (true, o1) =>
          match aws_byte_buf_write_from_whole_string o1 (key elem) with
          | (false, o2) => GotoWriteErr o2
          | (true, o2) =>
          match aws_byte_buf_write_be16 o2 (to_uint16 (len (value elem))) with
          | (false, o3) => GotoWriteErr o3
          | (true, o3) =>
          match aws_byte_buf_write_from_whole_string o3 (value elem) with
          | (false, o4) => GotoWriteErr o4
          | (true, o4) => serialize_loop todo' (S idx) elems o4
          end end end end
      end
  end.

Definition aws_cryptosdk_enc_ctx_serialize (alloc : aws_allocator)
    (output : aws_byte_buf) (enc_ctx : aws_hash_table) (h : heap)
    : aws_result unit * aws_byte_buf * heap :=
  let num_elems := aws_hash_table_get_entry_count enc_ctx in
  if num_elems >? UINT16_MAX
  then (AWS_OP_ERR AWS_CRYPTOSDK_ERR_LIMIT_EXCEEDED, output, h)
  else
    match aws_cryptosdk_enc_ctx_size enc_ctx with
    | AWS_OP_ERR e => (AWS_OP_ERR e, output, h)
    | AWS_OP_SUCCESS length =>
        if length =? 0 then (AWS_OP_SUCCESS tt, output, h)
        else if capacity output <? length
        then (AWS_OP_ERR AWS_ERROR_SHORT_BUFFER, output, h)
        else
          match aws_byte_buf_write_be16 output (to_uint16 num_elems) with
          | (false, o) =>
              (AWS_OP_ERR AWS_ERROR_SHORT_BUFFER, aws_byte_buf_clean_up o, h)
          | (true, o) =>
              match aws_cryptosdk_hash_elems_array_init alloc enc_ctx h with
              | (None, h1) => (AWS_OP_ERR AWS_ERROR_OOM, o, h1)
              | (Some arr, h1) =>
                  let elems :=
                    aws_array_list_sort
                      aws_cryptosdk_compare_hash_elems_by_key_string (items arr) in
                  match serialize_loop (Z.to_nat num_elems) 0 elems o with
                  | GetAtFailed o' =>
                      (AWS_OP_ERR AWS_ERROR_INVALID_INDEX, o',
                       aws_array_list_clean_up arr h1)
                  | GotoWriteErr o' =>
                      (AWS_OP_ERR AWS_ERROR_SHORT_BUFFER,
                       aws_byte_buf_clean_up o',
                       aws_array_list_clean_up arr h1)
                  | WriteDone o' =>
                      (AWS_OP_SUCCESS tt, o', aws_array_list_clean_up arr h1)
                  end
              end
          end
    end.

(** ** Mutating the table, deserializer and clone engine *)

Section EncCtx.

(** The order in which a table's iterator visits the elements is not part
    of the hash table's contract, and an insertion or a deletion may move
    every element (growth, backward shifts).  [rehash] stands for whatever
    order the table has after such a change. *)
Variable rehash : aws_hash_table -> aws_hash_table.

(** Both destroy callbacks of an encryption context are
    [aws_hash_callback_string_destroy] ([aws_cryptosdk_enc_ctx_init]). *)
Definition destroy_elem (e : aws_hash_element) (h : heap) : heap :=
  aws_string_destroy (Some (value e)) (aws_string_destroy (Some (key e)) h).

(** [aws_hash_table_clear]: destroys every key and value and leaves the
    table empty. *)
Definition aws_hash_table_clear (t : aws_hash_table) (h : heap)
    : aws_hash_table * heap :=
  ([], fold_left (fun h' e => destroy_elem e h') t h).

(** Modelled from the spec: [aws_cryptosdk_enc_ctx_clear] (enc_ctx.h) clears
    the mapping entirely, destroying all its entries. *)
Definition aws_cryptosdk_enc_ctx_clear (enc_ctx : aws_hash_table) (h : heap)
    : aws_hash_table * heap :=
  aws_hash_table_clear enc_ctx h.

(** The overwrite [aws_hash_table_put] does when the key is already there:
    the old key is destroyed unless it is the very pointer being put, the
    old value is destroyed, and the slot takes the new pair where it is. *)
Fixpoint overwrite_elem (k v : aws_string) (t : aws_hash_table) (h : heap)
    : aws_hash_table * heap :=
  match t with
  | [] => ([], h)
  | e :: t' =>
      if aws_string_eq (key e) k then
        let h1 := if N.eqb (str_ptr (key e)) (str_ptr k) then h
                  else aws_string_destroy (Some (key e)) h in
        (mk_elem k v :: t', aws_string_destroy (Some (value e)) h1)
      else
        let (t2, h2) := overwrite_elem k v t' h in (e :: t2, h2)
  end.

(** [aws_hash_table_put]: [None] is [AWS_OP_ERR], [Some was_created] is
    success.  Only a new key can make the table grow, and the allocation
    that growth needs is the one thing that can fail. *)
Definition aws_hash_table_put (t : aws_hash_table) (k v : aws_string) (h : heap)
    : option bool * aws_hash_table * heap :=
  match aws_hash_table_find t k with
  | Some _ =>
      let (t', h') := overwrite_elem k v t h in (Some false, t', h')
  | None =>
      match aws_mem_acquire h with
      | (None, h') => (None, t, h')
      | (Some _, h') => (Some true, rehash (mk_elem k v :: t), h')
      end
  end.

(** [aws_hash_iter_delete (&iter, true)]: removes the element the iterator
    is at and destroys its key and value. *)
Definition aws_hash_iter_delete (e : aws_hash_element) (t : aws_hash_table)
    (h : heap) : aws_hash_table * heap :=
  (rehash (filter (fun x => negb (aws_string_eq (key x) (key e))) t),
   destroy_elem e h).

(** The assignment [dest_elem->value = value] on the element found for
    key [k]. *)
Fixpoint set_elem_value (k v : aws_string) (t : aws_hash_table) : aws_hash_table :=
  match t with
  | [] => []
  | e :: t' =>
      if aws_string_eq (key e) k then mk_elem (key e) v :: t'
      else e :: set_elem_value k v t'
  end.

(** *** Strict deserializer *)

Inductive parse_exit : Type :=
| ParseDone
| GotoShortBuf
| GotoRethrow (e : aws_error).

(** The [for (i = 0; i < elem_count; i++)] loop, [todo] being
    [elem_count - i]. *)
Fixpoint deserialize_loop (todo : nat) (alloc : aws_allocator)
    (enc_ctx : aws_hash_table) (cursor : aws_byte_cursor) (h : heap)
    : parse_exit * aws_hash_table * aws_byte_cursor * heap :=
  match todo with
  | O => (ParseDone, enc_ctx, cursor, h)
  | S todo' =>
      match aws_byte_cursor_read_be16 cursor with
      | (None, c1) => (GotoShortBuf, enc_ctx, c1, h)
      | (Some klen, c1) =>
      match aws_byte_cursor_advance_nospec c1 klen with
      | (None, c2) => (GotoShortBuf, enc_ctx, c2, h)
      | (Some k_cursor, c2) =>
      match aws_byte_cursor_read_be16 c2 with
      | (None, c3) => (GotoShortBuf, enc_ctx, c3, h)
      | (Some vlen, c3) =>
      match aws_byte_cursor_advance_nospec c3 vlen with
      | (None, c4) => (GotoShortBuf, enc_ctx, c4, h)
      | (Some v_cursor, c4) =>
          let (k, h1) := aws_string_new_from_array alloc k_cursor h in
          let (v, h2) := aws_string_new_from_array alloc v_cursor h1 in
          match k, v with
          | Some k', Some v' =>
              match aws_hash_table_put enc_ctx k' v' h2 with
              | (None, t, h3) =>
                  (GotoRethrow AWS_ERROR_OOM, t, c4,
                   aws_string_destroy v (aws_string_destroy k h3))
              | (Some false, t, h3) =>
                  (GotoRethrow AWS_CRYPTOSDK_ERR_BAD_CIPHERTEXT, t, c4, h3)
              | (Some true, t, h3) =>
                  deserialize_loop todo' alloc t c4 h3
              end
          | _, _ =>
              (GotoRethrow AWS_ERROR_OOM, enc_ctx, c4,
               aws_string_destroy v (aws_string_destroy k h2))
          end
      end end end end
  end.

Definition aws_cryptosdk_enc_ctx_deserialize (alloc : aws_allocator)
    (enc_ctx : aws_hash_table) (cursor : aws_byte_cursor) (h : heap)
    : aws_result unit * aws_hash_table * aws_byte_cursor * heap :=
  let (t0, h0) := aws_cryptosdk_enc_ctx_clear enc_ctx h in
  if Z.of_nat (length cursor) =? 0 then (AWS_OP_SUCCESS tt, t0, cursor, h0)
  else
    match aws_byte_cursor_read_be16 cursor with
    | (None, c) =>
        let (t, h') := aws_cryptosdk_enc_ctx_clear t0 h0 in
        (AWS_OP_ERR AWS_ERROR_SHORT_BUFFER, t, c, h')
    | (Some elem_count, c) =>
        if elem_count =? 0
        then (AWS_OP_ERR AWS_CRYPTOSDK_ERR_BAD_CIPHERTEXT, t0, c, h0)
        else
          match deserialize_loop (Z.to_nat elem_count) alloc t0 c h0 with
          | (ParseDone, t, c', h') => (AWS_OP_SUCCESS tt, t, c', h')
          | (GotoShortBuf, t, c', h') =>
              let (t', h'') := aws_cryptosdk_enc_ctx_clear t h' in
              (AWS_OP_ERR AWS_ERROR_SHORT_BUFFER, t', c', h'')
          | (GotoRethrow e, t, c', h') =>
              let (t', h'') := aws_cryptosdk_enc_ctx_clear t h' in
              (AWS_OP_ERR e, t', c', h'')
          end
    end.

(** *** Clone engine *)

Definition clone_or_reuse_string (allocator' : aws_allocator) (str : aws_string)
    (h : heap) : option aws_string * heap :=
  match allocator str with
  | None => (Some str, h)
  | Some _ => aws_string_new_from_array allocator' (bytes str) h
  end.

(** First loop of [aws_cryptosdk_enc_ctx_clone]: [iter] runs over the
    elements of the destination. *)
Fixpoint clone_prune (iter : list aws_hash_element) (dest src : aws_hash_table)
    (h : heap) : aws_hash_table * heap :=
  match iter with
  | [] => (dest, h)
  | e :: rest =>
      match aws_hash_table_find src (key e) with
      | None =>
          let (dest', h') := aws_hash_iter_delete e dest h in
          clone_prune rest dest' src h'
      | Some _ => clone_prune rest dest src h
      end
  end.

(** Second loop: [iter] runs over the elements of the source. *)
Fixpoint clone_reconcile (iter : list aws_hash_element) (alloc : aws_allocator)
    (dest : aws_hash_table) (h : heap)
    : aws_result unit * aws_hash_table * heap :=
  match iter with
  | [] => (AWS_OP_SUCCESS tt, dest, h)
  | e :: rest =>
      match aws_hash_table_find dest (key e) with
      | Some dest_elem =>
          if negb (aws_string_eq (value dest_elem) (value e)) then
            match clone_or_reuse_string alloc (value e) h with
            | (None, h1) => (AWS_OP_ERR AWS_ERROR_OOM, dest, h1)
            | (Some v, h1) =>
                clone_reconcile rest alloc (set_elem_value (key e) v dest)
                  (aws_string_destroy (Some (value dest_elem)) h1)
            end
          else clone_reconcile rest alloc dest h
      | None =>
          let (k, h1) := clone_or_reuse_string alloc (key e) h in
          let (v, h2) := clone_or_reuse_string alloc (value e) h1 in
          match k, v with
          | Some k', Some v' =>
              match aws_hash_table_put dest k' v' h2 with
              | (None, d, h3) =>
                  (AWS_OP_ERR AWS_ERROR_OOM, d,
                   aws_string_destroy v (aws_string_destroy k h3))
              | (Some _, d, h3) => clone_reconcile rest alloc d h3
              end
          | _, _ =>
              (AWS_OP_ERR AWS_ERROR_OOM, dest,
               aws_string_destroy v (aws_string_destroy k h2))
          end
      end
  end.

Definition aws_cryptosdk_enc_ctx_clone (alloc : aws_allocator)
    (dest src : aws_hash_table) (h : heap)
    : aws_result unit * aws_hash_table * heap :=
  let (dest1, h1) := clone_prune dest dest src h in
  clone_reconcile src alloc dest1 h1.

End EncCtx.

(** ** Initialisation *)

(** [aws_hash_table_init]: an empty table, unless its slot array cannot be
    allocated. *)
Definition aws_hash_table_init (alloc : aws_allocator) (h : heap)
    : option aws_hash_table * heap :=
  match aws_mem_acquire h with
  | (Some _, h') => (Some [], h')
  | (None, h') => (None, h')
  end.

Definition aws_cryptosdk_enc_ctx_init (alloc : aws_allocator) (h : heap)
    : aws_result aws_hash_table * heap :=
  match aws_hash_table_init alloc h with
  | (None, h') => (AWS_OP_ERR AWS_ERROR_OOM, h')
  | (Some enc_ctx, h') => (AWS_OP_SUCCESS enc_ctx, h')
  end.

(** ** Predicates used in the statements *)

(** Byte-lexicographic order of the keys, on elements and on the pairs of
    raw bytes they stand for. *)
Definition key_le (a b : aws_hash_element) : Prop :=
  aws_cryptosdk_compare_hash_elems_by_key_string a b <> Gt.

Definition pair_key_le (a b : list byte * list byte) : Prop :=
  bytes_compare (fst a) (fst b) <> Gt.

(** Lengths that survive the cast to [uint16_t]. *)
Definition fits_u16 (e : aws_hash_element) : Prop :=
  len (key e) <= UINT16_MAX /\ len (value e) <= UINT16_MAX.

(** The bytes the serializer appends for a non-empty table. *)
Definition canonical_bytes (enc_ctx : aws_hash_table) : list byte :=
  wire_format (aws_hash_table_get_entry_count enc_ctx)
    (map pair_bytes
       (aws_array_list_sort aws_cryptosdk_compare_hash_elems_by_key_string
          enc_ctx)).

(** No allocation of the plan fails. *)
Definition plan_ok (h : heap) : bool := forallb (fun b => b) (plan h).

(** Both strings of the element belong to [alloc]. *)
Definition owned_by (alloc : aws_allocator) (e : aws_hash_element) : Prop :=
  allocator (key e) = Some alloc /\ allocator (value e) = Some alloc.

(** A pair whose two lengths can be written in 16 bits. *)
Definition pair_fits (p : list byte * list byte) : Prop :=
  Z.of_nat (length (fst p)) <= UINT16_MAX /\
  Z.of_nat (length (snd p)) <= UINT16_MAX.

(** The length of the encoding of a table: nothing for the empty table,
    else the count prefix and the entries. *)
Definition encoding_length (m : aws_hash_table) : Z :=
  match m with
  | [] => 0
  | _ => 2 + total_cost m
  end.

(** [r] is what the clone engine installs for the source string [str] in a
    call entered with heap [h]: [str] itself exactly when [str] is static,
    and for any other [str] a string owned by [alloc], with the same bytes,
    at an address that was not allocated when the call began. *)
Definition installed_from (alloc : aws_allocator) (h : heap)
    (str r : aws_string) : Prop :=
  (r = str <-> allocator str = None) /\
  (allocator str <> None ->
   allocator r = Some alloc /\ bytes r = bytes str /\
   (next_ptr h <= str_ptr r)%N).

(** Where the two strings of an element of the destination come from:
    each is a string the destination held before the call, or was installed
    from a string of the source (for the value, of the source element with
    the same key). *)
Definition elem_policy (alloc : aws_allocator) (h0 : heap)
    (dest0 src : aws_hash_table) (x : aws_hash_element) : Prop :=
  ((exists d, In d dest0 /\ key x = key d) \/
   (exists s, In s src /\ installed_from alloc h0 (key s) (key x))) /\
  ((exists d, In d dest0 /\ value x = value d) \/
   (exists s, In s src /\ key_bytes s = key_bytes x /\
              installed_from alloc h0 (value s) (value x))).

(** An allocator-owned string is an object that exists in heap [h]: its
    address was handed out before the next fresh one.  Nothing is asked of
    a static string's address. *)
Definition string_live (h : heap) (str : aws_string) : Prop :=
  allocator str <> None -> (str_ptr str < next_ptr h)%N.

(** The strings of the source exist when the call begins. *)
Definition strings_live (h : heap) (src : aws_hash_table) : Prop :=
  forall s, In s src -> string_live h (key s) /\ string_live h (value s).

(** ** Sample contexts *)

(** A table whose iteration order is reversed by every insertion and
    deletion. *)
Definition reversing_rehash (t : aws_hash_table) : aws_hash_table := rev t.

Definition heap0 : heap := mk_heap 100 [] [].

(** ["k2" -> "v"] with a static key, then ["k1" -> "wx"] with a static
    value; the other two strings belong to allocator 7. *)
Definition sample_src : aws_hash_table :=
  [ mk_elem (mk_aws_string 1 None [x6b; x32]) (mk_aws_string 2 (Some 7%N) [x76]);
    mk_elem (mk_aws_string 3 (Some 7%N) [x6b; x31]) (mk_aws_string 4 None [x77; x78]) ].

(** The same two pairs held by other string objects, in the other order. *)
Definition sample_src_twin : aws_hash_table :=
  [ mk_elem (mk_aws_string 21 (Some 8%N) [x6b; x31]) (mk_aws_string 22 (Some 8%N) [x77; x78]);
    mk_elem (mk_aws_string 23 (Some 8%N) [x6b; x32]) (mk_aws_string 24 (Some 8%N) [x76]) ].

(** ["zz" -> "y"], a key the source lacks, and ["k1" -> "old"], a key of the
    source under another value. *)
Definition sample_dest : aws_hash_table :=
  [ mk_elem (mk_aws_string 10 (Some 7%N) [x7a; x7a]) (mk_aws_string 11 (Some 7%N) [x79]);
    mk_elem (mk_aws_string 12 (Some 7%N) [x6b; x31])
            (mk_aws_string 13 (Some 7%N) [x6f; x6c; x64]) ].

(** [sample_dest] after a clone of [sample_src] with allocator 9: the key
    object of "k1" is kept and its value is the source's static string; "k2"
    is new, its key the source's static key and its value a fresh copy. *)
Definition sample_cloned : aws_hash_table :=
  [ mk_elem (mk_aws_string 12 (Some 7%N) [x6b; x31]) (mk_aws_string 4 None [x77; x78]);
    mk_elem (mk_aws_string 1 None [x6b; x32]) (mk_aws_string 100 (Some 9%N) [x76]) ].

Definition sample_pairs : list (list byte * list byte) :=
  [ ([x6b; x31], [x77; x78]); ([x6b; x32], [x76]) ].

(** The canonical encoding of the two pairs: count 2, then "k1" before
    "k2". *)
Definition sample_wire : list byte :=
  [ x00; x02;
    x00; x02; x6b; x31; x00; x02; x77; x78;
    x00; x02; x6b; x32; x00; x01; x76 ].

(** Count 2 over the key "k" twice. *)
Definition duplicate_pairs : list (list byte * list byte) :=
  [ ([x6b], [x61]); ([x6b], [x62]) ].

(** One entry with a static key of [n] bytes and an empty value: its
    encoding takes [6 + n] bytes. *)
Definition boundary_ctx (n : Z) : aws_hash_table :=
  [ mk_elem (mk_aws_string 1 None (repeat x61 (Z.to_nat n)))
            (mk_aws_string 2 None []) ].

(** One entry whose key is 65535 bytes long: its encoding takes 65541
    bytes. *)
Definition oversize_pairs : list (list byte * list byte) :=
  [ (repeat x61 (Z.to_nat 65535), []) ].

(** A buffer that already holds one byte. *)
Definition sample_output : aws_byte_buf := mk_buf [xff] 64.

(** What [sample_dest] holds after the deserialization of [sample_wire] with
    allocator 9. *)
Definition sample_parsed : aws_hash_table :=
  [ mk_elem (mk_aws_string 100 (Some 9%N) [x6b; x31])
            (mk_aws_string 101 (Some 9%N) [x77; x78]);
    mk_elem (mk_aws_string 103 (Some 9%N) [x6b; x32])
            (mk_aws_string 104 (Some 9%N) [x76]) ].

(** * Properties *)

(** ** Bytes, comparison and membership *)

Lemma bytes_eqb_eq (a b : list byte) : bytes_eqb a b = true <-> a = b.
Proof.
  revert b; induction a as [|x a IH]; intros [|y b]; simpl;
    try (split; [discriminate | congruence]); [tauto|].
  rewrite andb_true_iff, IH. split.
  - intros [Hxy ->]. apply Byte.byte_dec_bl in Hxy. now subst.
  - intros H; injection H as -> ->. split; [now apply Byte.byte_dec_lb | reflexivity].
Qed.

Lemma bytes_eqb_refl (a : list byte) : bytes_eqb a a = true.
Proof. now apply bytes_eqb_eq. Qed.

Lemma bytes_eqb_neq (a b : list byte) : bytes_eqb a b = false <-> a <> b.
Proof.
  rewrite <- bytes_eqb_eq. destruct (bytes_eqb a b); split; congruence.
Qed.

Lemma bytes_eqb_sym (a b : list byte) : bytes_eqb a b = bytes_eqb b a.
Proof.
  destruct (bytes_eqb a b) eqn:E.
  - apply bytes_eqb_eq in E; subst. now rewrite bytes_eqb_refl.
  - symmetry. apply bytes_eqb_neq. apply bytes_eqb_neq in E. congruence.
Qed.

Lemma mem_bytes_In (k : list byte) (l : list (list byte)) :
  mem_bytes k l = true <-> In k l.
Proof.
  induction l as [|x l IH]; simpl; [split; [discriminate | tauto]|].
  rewrite orb_true_iff, IH, bytes_eqb_eq. intuition congruence.
Qed.

Lemma mem_bytes_not_In (k : list byte) (l : list (list byte)) :
  mem_bytes k l = false <-> ~ In k l.
Proof.
  rewrite <- mem_bytes_In. destruct (mem_bytes k l); split; congruence.
Qed.

Lemma nodup_bytes_NoDup (l : list (list byte)) :
  nodup_bytes l = true <-> NoDup l.
Proof.
  induction l as [|x l IH]; simpl; [split; [constructor | reflexivity]|].
  rewrite andb_true_iff, negb_true_iff, mem_bytes_not_In, IH.
  split; [intros []; now constructor | inversion 1; now split].
Qed.

Lemma byte_val_range (b : byte) : 0 <= byte_val b < 256.
Proof.
  unfold byte_val. pose proof (Byte.to_N_bounded b). lia.
Qed.

Lemma byte_val_of_Z (z : Z) : byte_val (byte_of_Z z) = z mod 256.
Proof.
  unfold byte_val, byte_of_Z.
  assert (Hr : 0 <= z mod 256 < 256) by (apply Z.mod_pos_bound; lia).
  destruct (Byte.of_N (Z.to_N (z mod 256))) as [b|] eqn:E.
  - apply Byte.to_of_N in E. rewrite E. lia.
  - apply Byte.of_N_None_iff in E. lia.
Qed.

Lemma byte_val_inj (a b : byte) : byte_val a = byte_val b -> a = b.
Proof.
  unfold byte_val. intros H. apply N2Z.inj in H.
  pose proof (Byte.of_to_N a) as Ha. pose proof (Byte.of_to_N b) as Hb.
  congruence.
Qed.

Lemma bytes_compare_eq (a b : list byte) : bytes_compare a b = Eq <-> a = b.
Proof.
  revert b; induction a as [|x a IH]; intros [|y b]; simpl;
    try (split; [discriminate | congruence]); [tauto|].
  destruct (Z.compare_spec (byte_val x) (byte_val y)) as [E|E|E].
  - apply byte_val_inj in E; subst. rewrite IH. split; congruence.
  - split; [discriminate | intros H; injection H as -> _; lia].
  - split; [discriminate | intros H; injection H as -> _; lia].
Qed.

Lemma bytes_compare_antisym (a b : list byte) :
  bytes_compare b a = CompOpp (bytes_compare a b).
Proof.
  revert b; induction a as [|x a IH]; intros [|y b]; simpl; try reflexivity.
  rewrite (Z.compare_antisym (byte_val x) (byte_val y)).
  destruct (byte_val x ?= byte_val y); simpl; auto.
Qed.

Lemma bytes_compare_trans (a b c : list byte) :
  bytes_compare a b <> Gt -> bytes_compare b c <> Gt -> bytes_compare a c <> Gt.
Proof.
  revert b c; induction a as [|x a IH]; intros [|y b] [|z c]; simpl;
    try congruence.
  destruct (Z.compare_spec (byte_val x) (byte_val y)) as [E1|E1|E1];
    destruct (Z.compare_spec (byte_val y) (byte_val z)) as [E2|E2|E2];
    destruct (Z.compare_spec (byte_val x) (byte_val z)) as [E3|E3|E3];
    try congruence; try lia.
  apply IH.
Qed.

(** ** Size calculator *)

Lemma len_nonneg (s : aws_string) : 0 <= len s.
Proof. unfold len. lia. Qed.

Lemma elem_cost_pos (e : aws_hash_element) : 4 <= elem_cost e.
Proof.
  unfold elem_cost. pose proof (len_nonneg (key e)).
  pose proof (len_nonneg (value e)). lia.
Qed.

Lemma total_cost_nonneg (l : list aws_hash_element) : 0 <= total_cost l.
Proof.
  induction l as [|e l IH]; simpl; [lia|]. pose proof (elem_cost_pos e). lia.
Qed.

Lemma total_cost_app (l1 l2 : list aws_hash_element) :
  total_cost (l1 ++ l2) = total_cost l1 + total_cost l2.
Proof. induction l1 as [|e l1 IH]; simpl; lia. Qed.

Lemma total_cost_perm (l1 l2 : list aws_hash_element) :
  Permutation l1 l2 -> total_cost l1 = total_cost l2.
Proof. induction 1; simpl; lia. Qed.

(** The variadic checked sum of four sizes succeeds exactly when the sum
    fits in [size_t]. *)
Lemma add_size_checked_varargs_4 (a b c d : Z) :
  0 <= a -> 0 <= b -> 0 <= c -> 0 <= d ->
  aws_add_size_checked_varargs [a; b; c; d] =
    if a + b + c + d <=? SIZE_MAX then AWS_OP_SUCCESS (a + b + c + d)
    else AWS_OP_ERR AWS_ERROR_OVERFLOW_DETECTED.
Proof.
  intros Ha Hb Hc Hd.
  unfold aws_add_size_checked_varargs, add_size_checked_from, aws_add_size_checked.
  assert (HS : 0 < SIZE_MAX) by reflexivity.
  repeat match goal with
  | |- context [?x >? ?y] => destruct (Z.gtb_spec x y)
  | |- context [?x <=? ?y] => destruct (Z.leb_spec x y)
  end; try reflexivity; try lia.
Qed.

Lemma size_step (acc : Z) (e : aws_hash_element) :
  0 <= acc ->
  aws_add_size_checked_varargs [acc; len (key e); len (value e); 4] =
    if acc + elem_cost e <=? SIZE_MAX then AWS_OP_SUCCESS (acc + elem_cost e)
    else AWS_OP_ERR AWS_ERROR_OVERFLOW_DETECTED.
Proof.
  intros Hacc.
  rewrite add_size_checked_varargs_4
    by (auto using len_nonneg; lia).
  unfold elem_cost.
  replace (acc + len (key e) + len (value e) + 4)
    with (acc + (4 + len (key e) + len (value e))) by lia.
  reflexivity.
Qed.

Lemma size_loop_fits (l : list aws_hash_element) (acc : Z) :
  0 <= acc -> acc + total_cost l <= UINT16_MAX ->
  enc_ctx_size_loop acc l = AWS_OP_SUCCESS (acc + total_cost l).
Proof.
  revert acc; induction l as [|e l IH]; intros acc Hacc Hfit; simpl in *.
  - f_equal; lia.
  - pose proof (total_cost_nonneg l). pose proof (elem_cost_pos e).
    unfold UINT16_MAX in *.
    rewrite size_step by assumption.
    destruct (Z.leb_spec (acc + elem_cost e) SIZE_MAX) as [_|Hbig];
      [|unfold SIZE_MAX in Hbig; lia].
    destruct (Z.gtb_spec (acc + elem_cost e) 65535); [lia|].
    rewrite IH by lia. f_equal; lia.
Qed.

Lemma size_loop_success (l : list aws_hash_element) (acc r : Z) :
  0 <= acc -> acc <= UINT16_MAX ->
  enc_ctx_size_loop acc l = AWS_OP_SUCCESS r ->
  r = acc + total_cost l /\ r <= UINT16_MAX.
Proof.
  revert acc; induction l as [|e l IH]; intros acc Hacc Hle Hr; simpl in *.
  - injection Hr as <-. lia.
  - pose proof (elem_cost_pos e).
    rewrite size_step in Hr by assumption.
    destruct (Z.leb_spec (acc + elem_cost e) SIZE_MAX); [|discriminate].
    destruct (Z.gtb_spec (acc + elem_cost e) UINT16_MAX); [discriminate|].
    apply IH in Hr; lia.
Qed.

Lemma size_loop_prefix (seen l : list aws_hash_element) (acc : Z) :
  0 <= acc -> acc + total_cost seen <= UINT16_MAX ->
  enc_ctx_size_loop acc (seen ++ l) = enc_ctx_size_loop (acc + total_cost seen) l.
Proof.
  revert acc; induction seen as [|e seen IH]; intros acc Hacc Hfit; simpl in *.
  - f_equal; lia.
  - pose proof (total_cost_nonneg seen). pose proof (elem_cost_pos e).
    unfold UINT16_MAX in *.
    rewrite size_step by assumption.
    destruct (Z.leb_spec (acc + elem_cost e) SIZE_MAX) as [_|Hbig];
      [|unfold SIZE_MAX in Hbig; lia].
    destruct (Z.gtb_spec (acc + elem_cost e) 65535); [lia|].
    rewrite IH by lia. f_equal; lia.
Qed.

Lemma size_nonempty (enc_ctx : aws_hash_table) :
  0 < aws_hash_table_get_entry_count enc_ctx <= UINT16_MAX ->
  aws_cryptosdk_enc_ctx_size enc_ctx = enc_ctx_size_loop 2 enc_ctx.
Proof.
  intros [Hpos Hle]. unfold aws_cryptosdk_enc_ctx_size.
  destruct (Z.gtb_spec (aws_hash_table_get_entry_count enc_ctx) UINT16_MAX); [lia|].
  destruct (Z.eqb_spec (aws_hash_table_get_entry_count enc_ctx) 0); [lia|].
  reflexivity.
Qed.

(** C3. Size calculator contract.  With more than 65535 entries the size
    computation fails with LimitExceeded; with no entry it succeeds with 0;
    otherwise a successful result is exactly 2 plus the sum over the entries
    of (4 + key length + value length) and is at most 65535, the computation
    succeeds whenever that total is at most 65535, and at the first entry
    whose overflow-checked addition leaves the accumulator above 65535 the
    computation fails with LimitExceeded whatever entries follow; when the
    checked addition itself fails, its error is returned at once. *)
Theorem enc_ctx_size_contract (enc_ctx : aws_hash_table) :
  let n := aws_hash_table_get_entry_count enc_ctx in
  (UINT16_MAX < n ->
     aws_cryptosdk_enc_ctx_size enc_ctx =
       AWS_OP_ERR AWS_CRYPTOSDK_ERR_LIMIT_EXCEEDED) /\
  (n = 0 -> aws_cryptosdk_enc_ctx_size enc_ctx = AWS_OP_SUCCESS 0) /\
  (0 < n <= UINT16_MAX ->
     (forall r, aws_cryptosdk_enc_ctx_size enc_ctx = AWS_OP_SUCCESS r ->
        r = 2 + total_cost enc_ctx /\ r <= UINT16_MAX) /\
     (2 + total_cost enc_ctx <= UINT16_MAX ->
        aws_cryptosdk_enc_ctx_size enc_ctx =
          AWS_OP_SUCCESS (2 + total_cost enc_ctx)) /\
     (forall seen e rest,
        enc_ctx = seen ++ e :: rest ->
        2 + total_cost seen <= UINT16_MAX ->
        (forall s,
           aws_add_size_checked_varargs
             [2 + total_cost seen; len (key e); len (value e); 4] =
             AWS_OP_SUCCESS s ->
           UINT16_MAX < s ->
           aws_cryptosdk_enc_ctx_size enc_ctx =
             AWS_OP_ERR AWS_CRYPTOSDK_ERR_LIMIT_EXCEEDED) /\
        (forall er,
           aws_add_size_checked_varargs
             [2 + total_cost seen; len (key e); len (value e); 4] =
             AWS_OP_ERR er ->
           aws_cryptosdk_enc_ctx_size enc_ctx = AWS_OP_ERR er))).
Proof.
  intros n. subst n. split; [|split].
  - intros Hbig. unfold aws_cryptosdk_enc_ctx_size.
    destruct (Z.gtb_spec (aws_hash_table_get_entry_count enc_ctx) UINT16_MAX);
      [reflexivity | lia].
  - intros Hz. unfold aws_cryptosdk_enc_ctx_size. rewrite Hz. reflexivity.
  - intros Hn. rewrite (size_nonempty _ Hn). split; [|split].
    + intros r Hr. apply size_loop_success in Hr;
        [exact Hr | lia | unfold UINT16_MAX; lia].
    + intros Hfit. apply size_loop_fits; lia.
    + intros seen e rest -> Hseen.
      pose proof (total_cost_nonneg seen).
      rewrite size_loop_prefix by lia. simpl.
      split.
      * intros s Hs Hover. rewrite Hs.
        destruct (Z.gtb_spec s UINT16_MAX); [reflexivity | lia].
      * intros er Her. now rewrite Her.
Qed.

(** ** Sorting by key *)

Lemma sort_insert_perm (e : aws_hash_element) (l : list aws_hash_element) :
  Permutation
    (sort_insert aws_cryptosdk_compare_hash_elems_by_key_string e l) (e :: l).
Proof.
  induction l as [|x l IH]; simpl; [reflexivity|].
  destruct (aws_cryptosdk_compare_hash_elems_by_key_string e x);
    try reflexivity.
  rewrite IH. apply perm_swap.
Qed.

Lemma sort_perm (l : list aws_hash_element) :
  Permutation
    (aws_array_list_sort aws_cryptosdk_compare_hash_elems_by_key_string l) l.
Proof.
  induction l as [|x l IH]; simpl; [reflexivity|].
  rewrite sort_insert_perm. now constructor.
Qed.

Lemma key_le_trans (a b c : aws_hash_element) :
  key_le a b -> key_le b c -> key_le a c.
Proof. apply bytes_compare_trans. Qed.

Lemma key_le_of_Gt (e x : aws_hash_element) :
  aws_cryptosdk_compare_hash_elems_by_key_string e x = Gt -> key_le x e.
Proof.
  unfold key_le, aws_cryptosdk_compare_hash_elems_by_key_string,
    aws_string_compare.
  intros H. rewrite bytes_compare_antisym, H. discriminate.
Qed.

Lemma sort_insert_sorted (e : aws_hash_element) (l : list aws_hash_element) :
  StronglySorted key_le l ->
  StronglySorted key_le
    (sort_insert aws_cryptosdk_compare_hash_elems_by_key_string e l).
Proof.
  induction 1 as [|x l Hs IH Hall]; simpl.
  - repeat constructor.
  - destruct (aws_cryptosdk_compare_hash_elems_by_key_string e x) eqn:E.
    + constructor; [now constructor|].
      assert (Hex : key_le e x) by (unfold key_le; congruence).
      constructor; [assumption|].
      eapply Forall_impl; [|exact Hall]. intros y. now apply key_le_trans.
    + constructor; [now constructor|].
      assert (Hex : key_le e x) by (unfold key_le; congruence).
      constructor; [assumption|].
      eapply Forall_impl; [|exact Hall]. intros y. now apply key_le_trans.
    + constructor; [assumption|].
      apply (Permutation_Forall (Permutation_sym (sort_insert_perm e l))).
      constructor; [now apply key_le_of_Gt | assumption].
Qed.

Lemma sort_sorted (l : list aws_hash_element) :
  StronglySorted key_le
    (aws_array_list_sort aws_cryptosdk_compare_hash_elems_by_key_string l).
Proof.
  induction l as [|x l IH]; simpl; [constructor|].
  now apply sort_insert_sorted.
Qed.

Lemma sorted_pairs_of_elems (l : list aws_hash_element) :
  StronglySorted key_le l -> StronglySorted pair_key_le (map pair_bytes l).
Proof.
  induction 1 as [|x l Hs IH Hall]; simpl; constructor; [assumption|].
  rewrite Forall_map. exact Hall.
Qed.

(** A sequence of pairs with distinct keys has one arrangement in key
    order. *)
Lemma sorted_pairs_unique (p1 p2 : list (list byte * list byte)) :
  Permutation p1 p2 -> NoDup (map fst p1) ->
  StronglySorted pair_key_le p1 -> StronglySorted pair_key_le p2 -> p1 = p2.
Proof.
  revert p2; induction p1 as [|a p1 IH]; intros p2 Hperm Hnd Hs1 Hs2.
  - now apply Permutation_nil in Hperm.
  - destruct p2 as [|b p2];
      [apply Permutation_sym, Permutation_nil in Hperm; discriminate|].
    assert (Hab : a = b).
    { inversion Hs1 as [|? ? _ Ha]; subst.
      inversion Hs2 as [|? ? _ Hb]; subst.
      assert (Hin_b : In b (a :: p1))
        by (eapply Permutation_in; [apply Permutation_sym, Hperm | now left]).
      assert (Hin_a : In a (b :: p2))
        by (eapply Permutation_in; [exact Hperm | now left]).
      destruct Hin_b as [|Hin_b]; [assumption|].
      destruct Hin_a as [|Hin_a]; [congruence|].
      rewrite Forall_forall in Ha, Hb.
      pose proof (Ha _ Hin_b) as Hle1. pose proof (Hb _ Hin_a) as Hle2.
      unfold pair_key_le in Hle1, Hle2.
      rewrite bytes_compare_antisym in Hle2.
      assert (Hk : fst a = fst b).
      { apply bytes_compare_eq.
        destruct (bytes_compare (fst a) (fst b)); simpl in *; congruence. }
      inversion Hnd as [|? ? Hnotin _]; subst. exfalso. apply Hnotin.
      rewrite Hk. now apply in_map. }
    subst b. f_equal. apply IH.
    + now apply Permutation_cons_inv in Hperm.
    + now inversion Hnd.
    + now inversion Hs1.
    + now inversion Hs2.
Qed.

Lemma map_fst_pair_bytes (l : list aws_hash_element) :
  map fst (map pair_bytes l) = map key_bytes l.
Proof. rewrite map_map. reflexivity. Qed.

(** Two tables holding the same pairs of raw bytes are sorted into the
    same sequence of pairs, whatever order their iterators follow. *)
Lemma sort_pairs_canonical (m1 m2 : aws_hash_table) :
  aws_hash_table_is_valid m1 = true ->
  Permutation (map pair_bytes m1) (map pair_bytes m2) ->
  map pair_bytes
    (aws_array_list_sort aws_cryptosdk_compare_hash_elems_by_key_string m1) =
  map pair_bytes
    (aws_array_list_sort aws_cryptosdk_compare_hash_elems_by_key_string m2).
Proof.
  intros Hv Hperm. apply sorted_pairs_unique.
  - rewrite (Permutation_map pair_bytes (sort_perm m1)), Hperm.
    apply Permutation_sym, Permutation_map, sort_perm.
  - rewrite map_fst_pair_bytes.
    apply (Permutation_NoDup (Permutation_sym
             (Permutation_map key_bytes (sort_perm m1)))).
    now apply nodup_bytes_NoDup.
  - apply sorted_pairs_of_elems, sort_sorted.
  - apply sorted_pairs_of_elems, sort_sorted.
Qed.

(** The snapshot array has one sorted arrangement: whatever algorithm
    [aws_array_list_sort] runs, a sorted permutation of a table with unique
    keys is the sequence modelled here. *)
Lemma sort_unique (l l' : list aws_hash_element) :
  NoDup (map key_bytes l) -> Permutation l' l -> StronglySorted key_le l' ->
  l' = aws_array_list_sort aws_cryptosdk_compare_hash_elems_by_key_string l.
Proof.
  intros Hnd Hperm Hsorted.
  assert (Hperm' : Permutation l'
            (aws_array_list_sort aws_cryptosdk_compare_hash_elems_by_key_string l))
    by (rewrite Hperm; apply Permutation_sym, sort_perm).
  pose proof (sort_sorted l) as Hs. revert Hperm' Hs.
  assert (Hnd' : NoDup (map key_bytes l'))
    by (apply (Permutation_NoDup (Permutation_sym (Permutation_map key_bytes Hperm)));
        exact Hnd).
  clear Hperm Hnd.
  generalize (aws_array_list_sort aws_cryptosdk_compare_hash_elems_by_key_string l).
  induction Hsorted as [|a l1 Hs1 IH Ha]; intros l2 Hperm Hs2.
  - now apply Permutation_nil in Hperm.
  - destruct l2 as [|b l2];
      [apply Permutation_sym, Permutation_nil in Hperm; discriminate|].
    inversion Hs2 as [|? ? Hs2' Hb]; subst.
    inversion Hnd' as [|? ? Hnotin Hnd1]; subst.
    assert (Hab : a = b).
    { assert (Hin_b : In b (a :: l1))
        by (eapply Permutation_in; [apply Permutation_sym, Hperm | now left]).
      assert (Hin_a : In a (b :: l2))
        by (eapply Permutation_in; [exact Hperm | now left]).
      destruct Hin_b as [|Hin_b]; [assumption|].
      destruct Hin_a as [|Hin_a]; [congruence|].
      rewrite Forall_forall in Ha, Hb.
      pose proof (Ha _ Hin_b) as Hle1. pose proof (Hb _ Hin_a) as Hle2.
      unfold key_le, aws_cryptosdk_compare_hash_elems_by_key_string,
        aws_string_compare in Hle1, Hle2.
      rewrite bytes_compare_antisym in Hle2.
      assert (Hk : key_bytes a = key_bytes b).
      { apply bytes_compare_eq. unfold key_bytes.
        destruct (bytes_compare (bytes (key a)) (bytes (key b)));
          simpl in *; congruence. }
      exfalso. apply Hnotin. rewrite Hk. now apply in_map. }
    subst b. f_equal. apply IH; auto.
    now apply Permutation_cons_inv in Hperm.
Qed.

(** ** Canonical serializer *)

Lemma buf_write_fits (buf : aws_byte_buf) (src : list byte) :
  buf_len buf + Z.of_nat (length src) <= capacity buf ->
  aws_byte_buf_write buf src = (true, mk_buf (buffer buf ++ src) (capacity buf)).
Proof.
  intros H. unfold aws_byte_buf_write.
  destruct (Z.gtb_spec (buf_len buf + Z.of_nat (length src)) (capacity buf));
    [lia | reflexivity].
Qed.

Lemma buf_write_fits' (b : list byte) (c : Z) (src : list byte) :
  Z.of_nat (length b) + Z.of_nat (length src) <= c ->
  aws_byte_buf_write (mk_buf b c) src = (true, mk_buf (b ++ src) c).
Proof. intros H. now rewrite buf_write_fits. Qed.

Lemma be16_length (x : Z) : length (be16 x) = 2%nat.
Proof. reflexivity. Qed.

Lemma buf_write_true (buf o : aws_byte_buf) (src : list byte) :
  aws_byte_buf_write buf src = (true, o) ->
  buf_len buf + Z.of_nat (length src) <= capacity buf /\
  o = mk_buf (buffer buf ++ src) (capacity buf).
Proof.
  unfold aws_byte_buf_write.
  destruct (Z.gtb_spec (buf_len buf + Z.of_nat (length src)) (capacity buf));
    intros Hw; inversion Hw; subst. split; [lia | reflexivity].
Qed.

Lemma buf_len_app (b : list byte) (c : Z) (src : list byte) :
  buf_len (mk_buf (b ++ src) c) = buf_len (mk_buf b c) + Z.of_nat (length src).
Proof. unfold buf_len; simpl. rewrite length_app. lia. Qed.

Lemma to_uint16_small (x : Z) : 0 <= x <= UINT16_MAX -> to_uint16 x = x.
Proof. unfold to_uint16, UINT16_MAX. intros H. apply Z.mod_small. lia. Qed.

Lemma pair_wire_length (kv : list byte * list byte) :
  Z.of_nat (length (pair_wire kv)) =
  4 + Z.of_nat (length (fst kv)) + Z.of_nat (length (snd kv)).
Proof.
  unfold pair_wire. rewrite ?length_app, ?be16_length, ?Nat2Z.inj_add. lia.
Qed.

Lemma pairs_wire_cons (p : list byte * list byte)
    (l : list (list byte * list byte)) :
  pairs_wire (p :: l) = pair_wire p ++ pairs_wire l.
Proof. reflexivity. Qed.

Lemma pairs_wire_app (l1 l2 : list (list byte * list byte)) :
  pairs_wire (l1 ++ l2) = pairs_wire l1 ++ pairs_wire l2.
Proof. apply flat_map_app. Qed.

Lemma pairs_wire_length (l : list aws_hash_element) :
  Z.of_nat (length (pairs_wire (map pair_bytes l))) = total_cost l.
Proof.
  induction l as [|e l IH]; [reflexivity|].
  rewrite map_cons, pairs_wire_cons, length_app, Nat2Z.inj_add, IH,
    pair_wire_length.
  change (total_cost (e :: l)) with (elem_cost e + total_cost l).
  unfold elem_cost, len, pair_bytes. simpl fst; simpl snd. lia.
Qed.

Lemma fits_u16_of_total (l : list aws_hash_element) :
  total_cost l <= UINT16_MAX -> Forall fits_u16 l.
Proof.
  induction l as [|e l IH]; simpl; intros H; constructor.
  - pose proof (total_cost_nonneg l). unfold fits_u16, elem_cost in *.
    pose proof (len_nonneg (key e)). pose proof (len_nonneg (value e)). lia.
  - apply IH. pose proof (elem_cost_pos e). lia.
Qed.

(** One iteration of the write loop appends the element's wire form,
    provided it fits. *)
Lemma serialize_loop_step (todo idx : nat) (elems : list aws_hash_element)
    (e : aws_hash_element) (out : aws_byte_buf) :
  nth_error elems idx = Some e -> fits_u16 e ->
  (buf_len out + elem_cost e <= capacity out ->
   serialize_loop (S todo) idx elems out =
     serialize_loop todo (S idx) elems
       (mk_buf (buffer out ++ pair_wire (pair_bytes e)) (capacity out))) /\
  (forall o, serialize_loop (S todo) idx elems out = WriteDone o ->
     buf_len out + elem_cost e <= capacity out).
Proof.
  intros Hnth [Hk Hv]. simpl. rewrite Hnth.
  unfold aws_byte_buf_write_be16, aws_byte_buf_write_from_whole_string.
  pose proof (len_nonneg (key e)) as Hk0. pose proof (len_nonneg (value e)) as Hv0.
  rewrite !to_uint16_small by lia.
  unfold elem_cost. split.
  - intros Hfit.
    destruct out as [b c]. unfold buf_len in Hfit.
    cbn [buffer capacity] in *. unfold len in *.
    repeat (rewrite buf_write_fits';
            [| rewrite ?length_app, ?be16_length, ?Nat2Z.inj_add; lia]).
    unfold pair_wire, pair_bytes. cbn [fst snd].
    now rewrite <- !app_assoc.
  - intros o.
    destruct out as [b c]. unfold buf_len. cbn [buffer capacity]. unfold len.
    destruct (aws_byte_buf_write (mk_buf b c) _) as [[|] o1] eqn:W1;
      [|discriminate].
    apply buf_write_true in W1 as [H1 ->]. cbn [buffer capacity].
    destruct (aws_byte_buf_write _ (bytes (key e))) as [[|] o2] eqn:W2;
      [|discriminate].
    apply buf_write_true in W2 as [H2 ->]. cbn [buffer capacity].
    destruct (aws_byte_buf_write _ (be16 _)) as [[|] o3] eqn:W3;
      [|discriminate].
    apply buf_write_true in W3 as [H3 ->]. cbn [buffer capacity].
    destruct (aws_byte_buf_write _ (bytes (value e))) as [[|] o4] eqn:W4;
      [|discriminate].
    apply buf_write_true in W4 as [H4 _]. intros _.
    unfold buf_len in H4. cbn [buffer capacity] in H4.
    rewrite ?length_app, ?be16_length, ?Nat2Z.inj_add in H4. lia.
Qed.

Lemma serialize_loop_spec (rest pre : list aws_hash_element) (out : aws_byte_buf) :
  Forall fits_u16 rest ->
  (buf_len out + total_cost rest <= capacity out ->
   serialize_loop (length rest) (length pre) (pre ++ rest) out =
     WriteDone (mk_buf (buffer out ++ pairs_wire (map pair_bytes rest))
                  (capacity out))) /\
  (forall o, buf_len out <= capacity out ->
     serialize_loop (length rest) (length pre) (pre ++ rest) out =
               WriteDone o ->
     buf_len out + total_cost rest <= capacity out).
Proof.
  revert pre out; induction rest as [|e rest IH]; intros pre out Hall.
  - simpl. split.
    + intros _. rewrite app_nil_r. now destruct out.
    + intros o Hv _. lia.
  - inversion Hall as [|? ? He Hrest]; subst.
    assert (Hnth : nth_error (pre ++ e :: rest) (length pre) = Some e)
      by (rewrite nth_error_app2, Nat.sub_diag by lia; reflexivity).
    destruct (serialize_loop_step (length rest) (length pre)
                (pre ++ e :: rest) e out Hnth He) as [Hgo Hinv].
    assert (Hpre : pre ++ e :: rest = (pre ++ [e]) ++ rest)
      by (now rewrite <- app_assoc).
    assert (Hlen : S (length pre) = length (pre ++ [e]))
      by (rewrite length_app; simpl; lia).
    pose proof (total_cost_nonneg rest) as Hnn.
    change (length (e :: rest)) with (S (length rest)).
    change (total_cost (e :: rest)) with (elem_cost e + total_cost rest).
    split.
    + intros Hfit. rewrite Hgo by lia.
      rewrite Hpre, Hlen.
      destruct (IH (pre ++ [e])
                  (mk_buf (buffer out ++ pair_wire (pair_bytes e)) (capacity out))
                  Hrest) as [IHgo _].
      rewrite IHgo.
      * cbn [buffer capacity]. rewrite map_cons, pairs_wire_cons.
        now rewrite <- app_assoc.
      * destruct out as [b c]. cbn [buffer capacity] in *.
        rewrite buf_len_app, pair_wire_length.
        unfold elem_cost, len, buf_len, pair_bytes in *.
        cbn [buffer capacity fst snd] in *. lia.
    + intros o _ Ho. pose proof (Hinv o Ho) as Hfit1.
      rewrite Hgo in Ho by assumption.
      rewrite Hpre, Hlen in Ho.
      destruct (IH (pre ++ [e])
                  (mk_buf (buffer out ++ pair_wire (pair_bytes e)) (capacity out))
                  Hrest) as [_ IHinv].
      destruct out as [b c]. cbn [buffer capacity] in *.
      apply IHinv in Ho; rewrite buf_len_app, pair_wire_length in *;
        unfold elem_cost, len, buf_len, pair_bytes in *;
        cbn [buffer capacity fst snd] in *; lia.
Qed.

Lemma total_cost_count (l : list aws_hash_element) :
  4 * Z.of_nat (length l) <= total_cost l.
Proof.
  induction l as [|e l IH]; [simpl; lia|].
  change (total_cost (e :: l)) with (elem_cost e + total_cost l).
  change (length (e :: l)) with (S (length l)).
  pose proof (elem_cost_pos e). lia.
Qed.

Lemma sort_length (l : list aws_hash_element) :
  length (aws_array_list_sort aws_cryptosdk_compare_hash_elems_by_key_string l)
  = length l.
Proof. apply Permutation_length, sort_perm. Qed.

Lemma sort_total_cost (l : list aws_hash_element) :
  total_cost (aws_array_list_sort aws_cryptosdk_compare_hash_elems_by_key_string l)
  = total_cost l.
Proof. apply total_cost_perm, sort_perm. Qed.

Lemma canonical_bytes_length (enc_ctx : aws_hash_table) :
  Z.of_nat (length (canonical_bytes enc_ctx)) = 2 + total_cost enc_ctx.
Proof.
  unfold canonical_bytes, wire_format.
  rewrite length_app, be16_length, Nat2Z.inj_add, pairs_wire_length,
    sort_total_cost. lia.
Qed.

Lemma serialize_empty (alloc : aws_allocator) (output : aws_byte_buf) (h : heap) :
  aws_cryptosdk_enc_ctx_serialize alloc output [] h =
    (AWS_OP_SUCCESS tt, output, h).
Proof. reflexivity. Qed.

(** The run of the serializer on a non-empty table whose size passed the
    check, up to the write loop. *)
Lemma serialize_nonempty (alloc : aws_allocator) (output : aws_byte_buf)
    (enc_ctx : aws_hash_table) (h : heap) :
  enc_ctx <> [] -> 2 + total_cost enc_ctx <= UINT16_MAX ->
  aws_cryptosdk_enc_ctx_serialize alloc output enc_ctx h =
    if capacity output <? 2 + total_cost enc_ctx
    then (AWS_OP_ERR AWS_ERROR_SHORT_BUFFER, output, h)
    else
      match aws_byte_buf_write_be16 output
              (aws_hash_table_get_entry_count enc_ctx) with
      | (false, o) =>
          (AWS_OP_ERR AWS_ERROR_SHORT_BUFFER, aws_byte_buf_clean_up o, h)
      | (true, o) =>
          match aws_mem_acquire h with
          | (None, h1) => (AWS_OP_ERR AWS_ERROR_OOM, o, h1)
          | (Some p, h1) =>
              match serialize_loop (length enc_ctx) 0
                      (aws_array_list_sort
                         aws_cryptosdk_compare_hash_elems_by_key_string enc_ctx)
                      o with
              | GetAtFailed o' =>
                  (AWS_OP_ERR AWS_ERROR_INVALID_INDEX, o', aws_mem_release p h1)
              | GotoWriteErr o' =>
                  (AWS_OP_ERR AWS_ERROR_SHORT_BUFFER, aws_byte_buf_clean_up o',
                   aws_mem_release p h1)
              | WriteDone o' => (AWS_OP_SUCCESS tt, o', aws_mem_release p h1)
              end
          end
      end.
Proof.
  intros Hne Hfit.
  pose proof (total_cost_count enc_ctx) as Hcnt.
  assert (Hpos : 0 < aws_hash_table_get_entry_count enc_ctx)
    by (unfold aws_hash_table_get_entry_count; destruct enc_ctx;
        [congruence | simpl length; lia]).
  unfold aws_cryptosdk_enc_ctx_serialize.
  unfold aws_hash_table_get_entry_count in *. unfold UINT16_MAX in *.
  destruct (Z.gtb_spec (Z.of_nat (length enc_ctx)) 65535); [lia|].
  rewrite size_nonempty
    by (unfold aws_hash_table_get_entry_count, UINT16_MAX; lia).
  rewrite size_loop_fits by (unfold UINT16_MAX; lia).
  pose proof (total_cost_nonneg enc_ctx).
  destruct (Z.eqb_spec (2 + total_cost enc_ctx) 0); [lia|].
  destruct (capacity output <? 2 + total_cost enc_ctx); [reflexivity|].
  rewrite to_uint16_small by (unfold UINT16_MAX; lia).
  destruct (aws_byte_buf_write_be16 output _) as [[|] o]; [|reflexivity].
  unfold aws_cryptosdk_hash_elems_array_init.
  destruct (aws_mem_acquire h) as [[p|] h1]; [|reflexivity].
  cbn [items]. rewrite Nat2Z.id. reflexivity.
Qed.

(** What a successful serialization has written. *)
Lemma serialize_success_inv (alloc : aws_allocator) (output o : aws_byte_buf)
    (enc_ctx : aws_hash_table) (h h' : heap) :
  aws_cryptosdk_enc_ctx_serialize alloc output enc_ctx h =
    (AWS_OP_SUCCESS tt, o, h') ->
  (enc_ctx = [] /\ o = output) \/
  (enc_ctx <> [] /\ 2 + total_cost enc_ctx <= UINT16_MAX /\
   o = mk_buf (buffer output ++ canonical_bytes enc_ctx) (capacity output)).
Proof.
  destruct enc_ctx as [|e0 l0] eqn:El; [rewrite serialize_empty; left; split; congruence|].
  rewrite <- El. intros Hs. right.
  assert (Hne : enc_ctx <> []) by (subst; discriminate).
  split; [assumption|].
  assert (Hfit : 2 + total_cost enc_ctx <= UINT16_MAX).
  { unfold aws_cryptosdk_enc_ctx_serialize in Hs.
    destruct (aws_hash_table_get_entry_count enc_ctx >? UINT16_MAX) eqn:Hc;
      [discriminate|].
    destruct (aws_cryptosdk_enc_ctx_size enc_ctx) as [r|er] eqn:Hsz;
      [|discriminate].
    assert (Hn : 0 < aws_hash_table_get_entry_count enc_ctx <= UINT16_MAX).
    { unfold aws_hash_table_get_entry_count in *. rewrite El. simpl length.
      rewrite El in Hc. simpl length in Hc.
      destruct (Z.gtb_spec (Z.of_nat (S (length l0))) UINT16_MAX);
        [discriminate | lia]. }
    rewrite size_nonempty in Hsz by assumption.
    apply size_loop_success in Hsz; unfold UINT16_MAX in *; lia. }
  split; [assumption|].
  rewrite serialize_nonempty in Hs by assumption.
  destruct (capacity output <? 2 + total_cost enc_ctx); [discriminate|].
  unfold aws_byte_buf_write_be16 in Hs.
  destruct (aws_byte_buf_write output _) as [[|] o1] eqn:W1; [|discriminate].
  apply buf_write_true in W1 as [Hcap ->].
  destruct (aws_mem_acquire h) as [[p|] h1]; [|discriminate].
  destruct (serialize_loop _ _ _ _) as [o'|o'|o'] eqn:Hloop; try discriminate.
  injection Hs as <- _.
  rewrite <- (sort_length enc_ctx) in Hloop.
  pose proof (serialize_loop_spec
                (aws_array_list_sort
                   aws_cryptosdk_compare_hash_elems_by_key_string enc_ctx)
                [] (mk_buf (buffer output ++
                      be16 (aws_hash_table_get_entry_count enc_ctx))
                      (capacity output))) as [Hgo Hinv].
  { apply fits_u16_of_total. rewrite sort_total_cost.
    pose proof (total_cost_nonneg enc_ctx). lia. }
  cbn [app length] in Hgo, Hinv.
  assert (Hv : buf_len (mk_buf (buffer output ++
                      be16 (aws_hash_table_get_entry_count enc_ctx))
                      (capacity output)) <= capacity output).
  { destruct output as [b c]. cbn [buffer capacity] in *.
    rewrite buf_len_app. unfold buf_len in *. cbn [buffer] in *.
    rewrite be16_length in *. lia. }
  pose proof (Hinv o' Hv Hloop) as Hroom.
  rewrite Hgo in Hloop by exact Hroom.
  injection Hloop as <-. cbn [buffer capacity].
  unfold canonical_bytes, wire_format. now rewrite <- app_assoc.
Qed.

(** A non-empty table that fits is serialized whenever the buffer has room
    for its encoding and the snapshot array can be allocated. *)
Lemma serialize_fits (alloc : aws_allocator) (output : aws_byte_buf)
    (enc_ctx : aws_hash_table) (h h1 : heap) (p : N) :
  enc_ctx <> [] -> 2 + total_cost enc_ctx <= UINT16_MAX ->
  buf_len output + (2 + total_cost enc_ctx) <= capacity output ->
  aws_mem_acquire h = (Some p, h1) ->
  aws_cryptosdk_enc_ctx_serialize alloc output enc_ctx h =
    (AWS_OP_SUCCESS tt,
     mk_buf (buffer output ++ canonical_bytes enc_ctx) (capacity output),
     aws_mem_release p h1).
Proof.
  intros Hne Hfit Hroom Hacq.
  rewrite serialize_nonempty by assumption.
  assert (Hlen0 : 0 <= buf_len output) by (unfold buf_len; lia).
  pose proof (total_cost_nonneg enc_ctx).
  destruct (Z.ltb_spec (capacity output) (2 + total_cost enc_ctx)); [lia|].
  unfold aws_byte_buf_write_be16.
  rewrite buf_write_fits by (rewrite be16_length; lia).
  rewrite Hacq.
  rewrite <- (sort_length enc_ctx).
  pose proof (serialize_loop_spec
                (aws_array_list_sort
                   aws_cryptosdk_compare_hash_elems_by_key_string enc_ctx)
                [] (mk_buf (buffer output ++
                      be16 (aws_hash_table_get_entry_count enc_ctx))
                      (capacity output))) as [Hgo _].
  { apply fits_u16_of_total. rewrite sort_total_cost. lia. }
  cbn [app length] in Hgo. rewrite Hgo.
  - cbn [buffer capacity]. unfold canonical_bytes, wire_format.
    now rewrite <- app_assoc.
  - destruct output as [b c]. cbn [buffer capacity] in *.
    rewrite buf_len_app, be16_length, sort_total_cost.
    unfold buf_len in *. cbn [buffer] in *. lia.
Qed.

(** C2. Canonical determinism.  Two valid tables holding the same key-value
    pairs, whatever the order in which their iterators visit them, are
    serialized (when both serializations succeed) into the same bytes, and
    what is appended to the buffer is, for a non-empty table, the count
    followed by the pairs in byte-lexicographic order of their keys. *)
Theorem serialize_canonical (alloc1 alloc2 : aws_allocator)
    (output o1 o2 : aws_byte_buf) (m1 m2 : aws_hash_table) (h1 h1' h2 h2' : heap) :
  aws_hash_table_is_valid m1 = true ->
  Permutation (map pair_bytes m1) (map pair_bytes m2) ->
  aws_cryptosdk_enc_ctx_serialize alloc1 output m1 h1 = (AWS_OP_SUCCESS tt, o1, h1') ->
  aws_cryptosdk_enc_ctx_serialize alloc2 output m2 h2 = (AWS_OP_SUCCESS tt, o2, h2') ->
  o1 = o2 /\
  exists sorted,
    Permutation sorted (map pair_bytes m1) /\
    StronglySorted pair_key_le sorted /\
    buffer o1 =
      buffer output ++
      match sorted with
      | [] => []
      | _ => wire_format (Z.of_nat (length sorted)) sorted
      end.
Proof.
  intros Hv Hperm Hs1 Hs2.
  pose proof (Permutation_length Hperm) as Hlen. rewrite !length_map in Hlen.
  apply serialize_success_inv in Hs1. apply serialize_success_inv in Hs2.
  destruct Hs1 as [[-> ->]|(Hne1 & Hfit1 & ->)].
  - destruct m2; [|discriminate Hlen].
    destruct Hs2 as [[_ ->]|[Hne2 _]]; [|congruence].
    split; [reflexivity|]. exists []. repeat split; try constructor.
    now rewrite app_nil_r.
  - destruct Hs2 as [[-> _]|(Hne2 & Hfit2 & ->)];
      [destruct m1; [congruence | discriminate Hlen]|].
    assert (Hcanon : canonical_bytes m1 = canonical_bytes m2).
    { unfold canonical_bytes, aws_hash_table_get_entry_count.
      rewrite Hlen. f_equal. now apply sort_pairs_canonical. }
    split; [now rewrite Hcanon|].
    exists (map pair_bytes
              (aws_array_list_sort
                 aws_cryptosdk_compare_hash_elems_by_key_string m1)).
    split; [apply Permutation_map, sort_perm|].
    split; [apply sorted_pairs_of_elems, sort_sorted|].
    cbn [buffer]. f_equal.
    rewrite length_map, sort_length.
    unfold canonical_bytes, aws_hash_table_get_entry_count.
    destruct (map pair_bytes (aws_array_list_sort _ m1)) eqn:E; [|reflexivity].
    apply (f_equal (@length _)) in E. rewrite length_map, sort_length in E.
    destruct m1; [congruence | discriminate E].
Qed.

(** ** Cursor reads against the wire format *)

Lemma read_be16_wire (x : Z) (rest : list byte) :
  0 <= x <= UINT16_MAX ->
  aws_byte_cursor_read_be16 (be16 x ++ rest) = (Some x, rest).
Proof.
  unfold UINT16_MAX. intros Hx. unfold be16, aws_byte_cursor_read_be16.
  cbn [app]. rewrite !byte_val_of_Z.
  rewrite (Z.mod_small (x / 256)) by
    (split; [apply Z.div_pos; lia | apply Z.div_lt_upper_bound; lia]).
  do 2 f_equal. pose proof (Z.div_mod x 256). lia.
Qed.

Lemma advance_wire (bs rest : list byte) :
  aws_byte_cursor_advance_nospec (bs ++ rest) (Z.of_nat (length bs)) =
    (Some bs, rest).
Proof.
  unfold aws_byte_cursor_advance_nospec.
  destruct (Z.leb_spec (Z.of_nat (length bs)) (Z.of_nat (length (bs ++ rest))))
    as [_|Hbad]; [|rewrite length_app in Hbad; lia].
  rewrite Nat2Z.id, firstn_app, Nat.sub_diag, firstn_all, firstn_O, app_nil_r.
  rewrite skipn_app, Nat.sub_diag, skipn_all. reflexivity.
Qed.

(** ** Allocation under a plan without failures *)

Lemma acquire_ok (h : heap) :
  plan_ok h = true ->
  exists h', aws_mem_acquire h = (Some (next_ptr h), h') /\
             plan_ok h' = true /\ next_ptr h' = N.succ (next_ptr h).
Proof.
  unfold plan_ok, aws_mem_acquire. destruct h as [n p r]. cbn [plan next_ptr released].
  destruct p as [|[|] p]; cbn [forallb]; intros Hp; try discriminate;
    eexists; repeat split; assumption.
Qed.

Lemma string_new_ok (alloc : aws_allocator) (bs : list byte) (h : heap) :
  plan_ok h = true ->
  exists h', aws_string_new_from_array alloc bs h =
               (Some (mk_aws_string (next_ptr h) (Some alloc) bs), h') /\
             plan_ok h' = true /\ next_ptr h' = N.succ (next_ptr h).
Proof.
  intros Hp. destruct (acquire_ok h Hp) as (h' & Hacq & Hp' & Hn).
  exists h'. unfold aws_string_new_from_array. rewrite Hacq. auto.
Qed.

Lemma string_new_owned (alloc : aws_allocator) (bs : list byte) (h h' : heap)
    (s : aws_string) :
  aws_string_new_from_array alloc bs h = (Some s, h') ->
  s = mk_aws_string (next_ptr h) (Some alloc) bs /\
  next_ptr h' = N.succ (next_ptr h).
Proof.
  unfold aws_string_new_from_array, aws_mem_acquire.
  destruct (plan h) as [|[|] p]; intros H; inversion H; subst; auto.
Qed.

(** ** Lookups *)

Lemma table_find_none (t : aws_hash_table) (k : aws_string) :
  aws_hash_table_find t k = None <-> ~ In (bytes k) (map key_bytes t).
Proof.
  unfold aws_hash_table_find. induction t as [|e t IH]; simpl; [tauto|].
  unfold aws_string_eq at 1, key_bytes at 1.
  destruct (bytes_eqb (bytes (key e)) (bytes k)) eqn:E.
  - apply bytes_eqb_eq in E. split; [discriminate | tauto].
  - apply bytes_eqb_neq in E. rewrite IH. tauto.
Qed.

Lemma table_find_some (t : aws_hash_table) (k : aws_string) (e : aws_hash_element) :
  aws_hash_table_find t k = Some e -> In e t /\ key_bytes e = bytes k.
Proof.
  unfold aws_hash_table_find. intros H. apply find_some in H as [Hin Heq].
  split; [assumption|]. now apply bytes_eqb_eq.
Qed.

Lemma table_find_in (t : aws_hash_table) (k : aws_string) (e : aws_hash_element) :
  NoDup (map key_bytes t) -> In e t -> key_bytes e = bytes k ->
  aws_hash_table_find t k = Some e.
Proof.
  unfold aws_hash_table_find. induction t as [|x t IH]; simpl; [tauto|].
  intros Hnd [->|Hin] Hk.
  - unfold aws_string_eq, key_bytes in *. rewrite Hk, bytes_eqb_refl. reflexivity.
  - inversion Hnd as [|? ? Hnotin Hnd']; subst.
    unfold aws_string_eq at 1.
    destruct (bytes_eqb (bytes (key x)) (bytes k)) eqn:E.
    + apply bytes_eqb_eq in E. exfalso. apply Hnotin.
      unfold key_bytes at 1. rewrite E, <- Hk. now apply in_map.
    + now apply IH.
Qed.

Lemma table_find_congr (t : aws_hash_table) (k k' : aws_string) :
  bytes k = bytes k' -> aws_hash_table_find t k = aws_hash_table_find t k'.
Proof.
  intros Hk. unfold aws_hash_table_find, aws_string_eq. now rewrite Hk.
Qed.

(** ** Strict deserializer *)

Section Deserializer.

Variable rehash : aws_hash_table -> aws_hash_table.
Hypothesis rehash_perm : forall t, Permutation (rehash t) t.

Lemma clear_empty (t : aws_hash_table) (h : heap) :
  fst (aws_cryptosdk_enc_ctx_clear t h) = [].
Proof. reflexivity. Qed.

Lemma put_new (t : aws_hash_table) (k v : aws_string) (h : heap) :
  aws_hash_table_find t k = None -> plan_ok h = true ->
  exists h', aws_hash_table_put rehash t k v h =
               (Some true, rehash (mk_elem k v :: t), h') /\
             plan_ok h' = true.
Proof.
  intros Hf Hp. unfold aws_hash_table_put. rewrite Hf.
  destruct (acquire_ok h Hp) as (h' & -> & Hp' & _). now exists h'.
Qed.

Lemma put_existing (t : aws_hash_table) (k v : aws_string) (h : heap)
    (e : aws_hash_element) :
  aws_hash_table_find t k = Some e ->
  exists t' h', aws_hash_table_put rehash t k v h = (Some false, t', h').
Proof.
  intros Hf. unfold aws_hash_table_put. rewrite Hf.
  destruct (overwrite_elem k v t h) as [t' h']. now exists t', h'.
Qed.

(** Reading one well-formed entry off the cursor: both fields are found,
    both strings are allocated, and the loop goes on with the insertion. *)
Lemma deserialize_loop_entry (n : nat) (alloc : aws_allocator)
    (t : aws_hash_table) (p : list byte * list byte) (rest : list byte)
    (h : heap) :
  pair_fits p -> plan_ok h = true ->
  exists h2,
    plan_ok h2 = true /\
    deserialize_loop rehash (S n) alloc t (pair_wire p ++ rest) h =
      match aws_hash_table_put rehash t
              (mk_aws_string (next_ptr h) (Some alloc) (fst p))
              (mk_aws_string (N.succ (next_ptr h)) (Some alloc) (snd p)) h2 with
      | (None, t', h3) =>
          (GotoRethrow AWS_ERROR_OOM, t', rest,
           aws_string_destroy
             (Some (mk_aws_string (N.succ (next_ptr h)) (Some alloc) (snd p)))
             (aws_string_destroy
                (Some (mk_aws_string (next_ptr h) (Some alloc) (fst p))) h3))
      | (Some false, t', h3) =>
          (GotoRethrow AWS_CRYPTOSDK_ERR_BAD_CIPHERTEXT, t', rest, h3)
      | (Some true, t', h3) => deserialize_loop rehash n alloc t' rest h3
      end.
Proof.
  intros [Hk Hv] Hp.
  destruct (string_new_ok alloc (fst p) h Hp) as (h1 & Hk1 & Hp1 & Hn1).
  destruct (string_new_ok alloc (snd p) h1 Hp1) as (h2 & Hv2 & Hp2 & Hn2).
  exists h2. split; [assumption|].
  cbn [deserialize_loop]. unfold pair_wire. rewrite <- !app_assoc.
  rewrite read_be16_wire by lia. rewrite advance_wire.
  rewrite read_be16_wire by lia. rewrite advance_wire.
  rewrite Hk1, Hv2, Hn1. reflexivity.
Qed.

Lemma deserialize_loop_fresh (n : nat) (alloc : aws_allocator)
    (t : aws_hash_table) (p : list byte * list byte) (rest : list byte)
    (h : heap) :
  pair_fits p -> plan_ok h = true -> ~ In (fst p) (map key_bytes t) ->
  exists k v h',
    deserialize_loop rehash (S n) alloc t (pair_wire p ++ rest) h =
      deserialize_loop rehash n alloc (rehash (mk_elem k v :: t)) rest h' /\
    pair_bytes (mk_elem k v) = p /\ owned_by alloc (mk_elem k v) /\
    plan_ok h' = true.
Proof.
  intros Hfit Hp Hnew.
  destruct (deserialize_loop_entry n alloc t p rest h Hfit Hp) as (h2 & Hp2 & ->).
  set (k := mk_aws_string (next_ptr h) (Some alloc) (fst p)).
  set (v := mk_aws_string (N.succ (next_ptr h)) (Some alloc) (snd p)).
  assert (Hf : aws_hash_table_find t k = None) by (now apply table_find_none).
  destruct (put_new t k v h2 Hf Hp2) as (h3 & -> & Hp3).
  exists k, v, h3. repeat split; try assumption.
  now destruct p.
Qed.

Lemma deserialize_loop_duplicate (n : nat) (alloc : aws_allocator)
    (t : aws_hash_table) (p : list byte * list byte) (rest : list byte)
    (h : heap) :
  pair_fits p -> plan_ok h = true -> In (fst p) (map key_bytes t) ->
  exists t' h',
    deserialize_loop rehash (S n) alloc t (pair_wire p ++ rest) h =
      (GotoRethrow AWS_CRYPTOSDK_ERR_BAD_CIPHERTEXT, t', rest, h').
Proof.
  intros Hfit Hp Hdup.
  destruct (deserialize_loop_entry n alloc t p rest h Hfit Hp) as (h2 & Hp2 & ->).
  set (k := mk_aws_string (next_ptr h) (Some alloc) (fst p)).
  set (v := mk_aws_string (N.succ (next_ptr h)) (Some alloc) (snd p)).
  destruct (aws_hash_table_find t k) as [e|] eqn:Hf;
    [|apply table_find_none in Hf; contradiction].
  destruct (put_existing t k v h2 e Hf) as (t' & h' & ->).
  now exists t', h'.
Qed.

(** The loop over a run of well-formed entries with fresh, pairwise
    distinct keys inserts them all and stops at the bytes that follow. *)
Lemma deserialize_loop_entries (ps : list (list byte * list byte)) (n : nat)
    (alloc : aws_allocator) (t : aws_hash_table) (rest : list byte) (h : heap) :
  Forall pair_fits ps -> NoDup (map fst ps) ->
  (forall kb, In kb (map fst ps) -> ~ In kb (map key_bytes t)) ->
  plan_ok h = true ->
  exists t' h',
    deserialize_loop rehash (length ps + n) alloc t (pairs_wire ps ++ rest) h =
      deserialize_loop rehash n alloc t' rest h' /\
    Permutation (map pair_bytes t') (ps ++ map pair_bytes t) /\
    (Forall (owned_by alloc) t -> Forall (owned_by alloc) t') /\
    plan_ok h' = true.
Proof.
  revert t h; induction ps as [|p ps IH]; intros t h Hfit Hnd Hnew Hp.
  - exists t, h. repeat split; auto.
  - inversion Hfit as [|? ? Hfp Hfps]; subst.
    inversion Hnd as [|? ? Hnotin Hnd']; subst.
    destruct (deserialize_loop_fresh (length ps + n) alloc t p
                (pairs_wire ps ++ rest) h Hfp Hp) as (k & v & h1 & Hstep & Hkv & Hown & Hp1).
    { apply Hnew. now left. }
    assert (Hpm : Permutation (map pair_bytes (rehash (mk_elem k v :: t)))
                    (p :: map pair_bytes t)).
    { rewrite (Permutation_map pair_bytes (rehash_perm _)). cbn [map].
      now rewrite Hkv. }
    destruct (IH (rehash (mk_elem k v :: t)) h1 Hfps Hnd') as (t' & h' & Hrun & Hperm & Hall & Hp').
    { intros kb Hin Hin'.
      rewrite <- map_fst_pair_bytes in Hin'.
      apply (Permutation_in _ (Permutation_map fst Hpm)) in Hin'.
      cbn [map] in Hin'. destruct Hin' as [<-|Hin']; [contradiction|].
      rewrite map_fst_pair_bytes in Hin'.
      apply (Hnew kb); [now right | assumption]. }
    { assumption. }
    exists t', h'. split; [|split; [|split]].
    + rewrite pairs_wire_cons, <- app_assoc. cbn [length Nat.add].
      now rewrite Hstep.
    + rewrite Hperm, Hpm. cbn [app]. apply Permutation_sym, Permutation_middle.
    + intros Ht. apply Hall.
      apply (Permutation_Forall (Permutation_sym (rehash_perm _))).
      now constructor.
    + assumption.
Qed.

Lemma clear_plan (t : aws_hash_table) (h : heap) :
  plan (snd (aws_cryptosdk_enc_ctx_clear t h)) = plan h /\
  next_ptr (snd (aws_cryptosdk_enc_ctx_clear t h)) = next_ptr h.
Proof.
  unfold aws_cryptosdk_enc_ctx_clear, aws_hash_table_clear. cbn [snd].
  revert h; induction t as [|e t IH]; intros h; cbn [fold_left]; [auto|].
  destruct (IH (destroy_elem e h)) as [-> ->].
  unfold destroy_elem, aws_string_destroy, aws_mem_release.
  destruct (allocator (key e)), (allocator (value e)); auto.
Qed.

Lemma clear_plan_ok (t : aws_hash_table) (h : heap) :
  plan_ok h = true -> plan_ok (snd (aws_cryptosdk_enc_ctx_clear t h)) = true.
Proof.
  unfold plan_ok. now rewrite (proj1 (clear_plan t h)).
Qed.

(** The deserializer on a well-formed encoding of [ps] under a declared
    count, followed by any bytes. *)
Lemma deserialize_wire (alloc : aws_allocator) (enc_ctx : aws_hash_table)
    (ps : list (list byte * list byte)) (extra : list byte) (h : heap) :
  ps <> [] -> Z.of_nat (length ps) <= UINT16_MAX ->
  Forall pair_fits ps -> NoDup (map fst ps) -> plan_ok h = true ->
  exists t' h',
    aws_cryptosdk_enc_ctx_deserialize rehash alloc enc_ctx
      (wire_format (Z.of_nat (length ps)) ps ++ extra) h =
      (AWS_OP_SUCCESS tt, t', extra, h') /\
    Permutation (map pair_bytes t') ps /\
    Forall (owned_by alloc) t'.
Proof.
  intros Hne Hcount Hfit Hnd Hp.
  unfold aws_cryptosdk_enc_ctx_deserialize.
  pose proof (clear_plan_ok enc_ctx h Hp) as Hp0.
  destruct (aws_cryptosdk_enc_ctx_clear enc_ctx h) as [t0 h0] eqn:Hclear.
  assert (Ht0 : t0 = []) by (now inversion Hclear). subst t0.
  cbn [snd] in Hp0.
  unfold wire_format. rewrite <- app_assoc.
  destruct (Z.eqb_spec
              (Z.of_nat (length (be16 (Z.of_nat (length ps)) ++ pairs_wire ps ++ extra))) 0)
    as [Hz|_]; [rewrite length_app, be16_length in Hz; lia|].
  assert (Hpos : 0 < Z.of_nat (length ps)) by (destruct ps; [congruence | simpl length; lia]).
  rewrite read_be16_wire by lia.
  destruct (Z.eqb_spec (Z.of_nat (length ps)) 0); [lia|].
  rewrite Nat2Z.id.
  destruct (deserialize_loop_entries ps 0 alloc [] extra h0 Hfit Hnd)
    as (t' & h' & Hrun & Hperm & Hown & _); [intros kb _ [] | assumption |].
  rewrite Nat.add_0_r in Hrun. rewrite Hrun. cbn [deserialize_loop].
  exists t', h'. split; [reflexivity|]. split.
  - now rewrite Hperm, app_nil_r.
  - apply Hown. constructor.
Qed.

(** C10. Trailing bytes are accepted.  On a cursor that starts with a
    well-formed encoding of [count > 0] entries with pairwise distinct keys
    and goes on with any bytes, deserialization (no allocation failing)
    succeeds, the mapping holds exactly those entries, and the cursor is left
    at the trailing bytes. *)
Theorem deserialize_trailing_bytes (alloc : aws_allocator)
    (enc_ctx : aws_hash_table) (ps : list (list byte * list byte))
    (extra : list byte) (h : heap) :
  ps <> [] -> Z.of_nat (length ps) <= UINT16_MAX ->
  Forall pair_fits ps -> NoDup (map fst ps) -> plan_ok h = true ->
  exists t' h',
    aws_cryptosdk_enc_ctx_deserialize rehash alloc enc_ctx
      (wire_format (Z.of_nat (length ps)) ps ++ extra) h =
      (AWS_OP_SUCCESS tt, t', extra, h') /\
    Permutation (map pair_bytes t') ps.
Proof.
  intros Hne Hcount Hfit Hnd Hp.
  destruct (deserialize_wire alloc enc_ctx ps extra h Hne Hcount Hfit Hnd Hp)
    as (t' & h' & Hrun & Hperm & _).
  now exists t', h'.
Qed.

Lemma pair_fits_of_elems (l : list aws_hash_element) :
  Forall fits_u16 l -> Forall pair_fits (map pair_bytes l).
Proof.
  intros H. rewrite Forall_map. eapply Forall_impl; [|exact H].
  intros e He. exact He.
Qed.

(** C1. Round trip.  A valid table with at most 65535 entries whose encoding
    is at most 65535 bytes is serialized successfully into a buffer that has
    room for it (the snapshot array being allocated), and deserializing the
    bytes so written (no allocation failing) succeeds, consumes them all and
    yields a valid table with the same key-value pairs as the original,
    whatever the two tables' iteration orders. *)
Theorem serialize_deserialize_roundtrip (alloc alloc' : aws_allocator)
    (output : aws_byte_buf) (M target : aws_hash_table) (h h2 : heap) :
  aws_hash_table_is_valid M = true ->
  aws_hash_table_get_entry_count M <= UINT16_MAX ->
  encoding_length M <= UINT16_MAX ->
  buf_len output + encoding_length M <= capacity output ->
  plan_ok h = true -> plan_ok h2 = true ->
  exists written o h' t' h2',
    aws_cryptosdk_enc_ctx_serialize alloc output M h = (AWS_OP_SUCCESS tt, o, h') /\
    o = mk_buf (buffer output ++ written) (capacity output) /\
    Z.of_nat (length written) = encoding_length M /\
    aws_cryptosdk_enc_ctx_deserialize rehash alloc' target written h2 =
      (AWS_OP_SUCCESS tt, t', [], h2') /\
    aws_hash_table_is_valid t' = true /\
    Permutation (map pair_bytes t') (map pair_bytes M).
Proof.
  intros Hv Hcount Hsize Hroom Hp Hp2.
  destruct M as [|e0 M0] eqn:EM.
  - exists [], output, h. do 2 eexists.
    rewrite serialize_empty. rewrite app_nil_r.
    split; [reflexivity|]. split; [now destruct output|].
    split; [reflexivity|]. split; [reflexivity|]. split; constructor.
  - rewrite <- EM in *. assert (Hne : M <> []) by (subst; discriminate).
    assert (Hlen : encoding_length M = 2 + total_cost M) by (now subst).
    rewrite Hlen in *.
    destruct (acquire_ok h Hp) as (h1 & Hacq & _ & _).
    set (ps := map pair_bytes
                 (aws_array_list_sort
                    aws_cryptosdk_compare_hash_elems_by_key_string M)).
    assert (Hpslen : length ps = length M)
      by (unfold ps; now rewrite length_map, sort_length).
    assert (Hperm : Permutation ps (map pair_bytes M))
      by (apply Permutation_map, sort_perm).
    assert (Hnd : NoDup (map fst ps)).
    { apply (Permutation_NoDup (Permutation_sym (Permutation_map fst Hperm))).
      rewrite map_fst_pair_bytes. now apply nodup_bytes_NoDup. }
    destruct (deserialize_wire alloc' target ps [] h2)
      as (t' & h2' & Hrun & Hperm' & _); try assumption.
    { intros Hnil. rewrite Hnil in Hpslen. destruct M; [congruence | discriminate]. }
    { rewrite Hpslen. exact Hcount. }
    { apply pair_fits_of_elems, fits_u16_of_total. rewrite sort_total_cost.
      pose proof (total_cost_nonneg M). lia. }
    rewrite app_nil_r, Hpslen in Hrun.
    exists (canonical_bytes M). do 2 eexists. exists t', h2'.
    split; [now apply (serialize_fits alloc output M h h1 (next_ptr h))|].
    split; [reflexivity|]. split; [apply canonical_bytes_length|].
    split; [exact Hrun|]. split.
    + apply nodup_bytes_NoDup. rewrite <- map_fst_pair_bytes.
      apply (Permutation_NoDup (Permutation_sym (Permutation_map fst Hperm'))).
      exact Hnd.
    + now rewrite Hperm'.
Qed.

(** A sequence of pairs in which some key occurs twice splits at the first
    entry whose key has been seen before. *)
Lemma first_duplicate (es : list (list byte * list byte)) :
  nodup_bytes (map fst es) = false ->
  exists ps d tail,
    es = ps ++ d :: tail /\ NoDup (map fst ps) /\ In (fst d) (map fst ps).
Proof.
  induction es as [|x es IH] using rev_ind; [discriminate|].
  intros Hdup.
  destruct (nodup_bytes (map fst es)) eqn:Hes.
  - apply nodup_bytes_NoDup in Hes.
    exists es, x, []. split; [reflexivity|]. split; [assumption|].
    destruct (mem_bytes (fst x) (map fst es)) eqn:Hmem;
      [now apply mem_bytes_In|].
    apply mem_bytes_not_In in Hmem. exfalso.
    assert (Hnd : NoDup (map fst (es ++ [x]))).
    { rewrite map_app. apply NoDup_app; [assumption | repeat constructor; auto|].
      intros a Ha [<-|[]]. contradiction. }
    apply nodup_bytes_NoDup in Hnd. congruence.
  - destruct (IH eq_refl) as (ps & d & tail & -> & Hnd & Hin).
    exists ps, d, (tail ++ [x]). split; [|auto].
    now rewrite <- app_assoc.
Qed.

(** C5. Duplicate-key rejection.  When the entries a cursor encodes under
    its declared count include two with byte-identical keys, deserialization
    (no allocation failing) fails with BadCiphertext and the target mapping
    ends up empty. *)
Theorem deserialize_duplicate_key (alloc : aws_allocator)
    (enc_ctx : aws_hash_table) (count : Z)
    (es : list (list byte * list byte)) (rest : list byte) (h : heap) :
  Forall pair_fits es -> nodup_bytes (map fst es) = false ->
  Z.of_nat (length es) <= count <= UINT16_MAX -> plan_ok h = true ->
  exists c' h',
    aws_cryptosdk_enc_ctx_deserialize rehash alloc enc_ctx
      (wire_format count es ++ rest) h =
      (AWS_OP_ERR AWS_CRYPTOSDK_ERR_BAD_CIPHERTEXT, [], c', h').
Proof.
  intros Hfit Hdup Hcount Hp.
  destruct (first_duplicate es Hdup) as (ps & d & tail & -> & Hnd & Hin).
  rewrite length_app in Hcount. cbn [length] in Hcount.
  apply Forall_app in Hfit as [Hfps Hfd].
  inversion Hfd as [|? ? Hfitd _]; subst.
  unfold aws_cryptosdk_enc_ctx_deserialize.
  pose proof (clear_plan_ok enc_ctx h Hp) as Hp0.
  destruct (aws_cryptosdk_enc_ctx_clear enc_ctx h) as [t0 h0] eqn:Hclear.
  assert (Ht0 : t0 = []) by (now inversion Hclear). subst t0.
  cbn [snd] in Hp0.
  unfold wire_format. rewrite <- app_assoc.
  destruct (Z.eqb_spec
              (Z.of_nat (length (be16 count ++ pairs_wire (ps ++ d :: tail) ++ rest))) 0)
    as [Hz|_]; [rewrite length_app, be16_length in Hz; lia|].
  rewrite read_be16_wire by lia.
  destruct (Z.eqb_spec count 0); [lia|].
  replace (Z.to_nat count)
    with (length ps + S (Z.to_nat count - length ps - 1))%nat by lia.
  rewrite pairs_wire_app, pairs_wire_cons, <- !app_assoc.
  destruct (deserialize_loop_entries ps (S (Z.to_nat count - length ps - 1))
              alloc [] (pair_wire d ++ pairs_wire tail ++ rest) h0 Hfps Hnd)
    as (t' & h' & -> & Hperm & _ & Hp'); [intros kb _ [] | assumption |].
  destruct (deserialize_loop_duplicate (Z.to_nat count - length ps - 1) alloc t' d
              (pairs_wire tail ++ rest) h' Hfitd Hp') as (t'' & h'' & ->).
  { rewrite <- map_fst_pair_bytes.
    apply (Permutation_in _ (Permutation_sym (Permutation_map fst Hperm))).
    now rewrite app_nil_r. }
  eexists; eexists; reflexivity.
Qed.

(** C6. Zero-count rejection versus true-empty acceptance.  On a cursor with
    no byte left deserialization succeeds with an empty mapping; on a cursor
    whose first two bytes read as the count zero (the two bytes alone, or
    followed by more) it fails with BadCiphertext; on a cursor holding a
    single byte it fails with ShortBuffer.  The mapping is empty in all
    three cases. *)
Theorem deserialize_empty_and_zero_count (alloc : aws_allocator)
    (enc_ctx : aws_hash_table) (h : heap) :
  let h0 := snd (aws_cryptosdk_enc_ctx_clear enc_ctx h) in
  aws_cryptosdk_enc_ctx_deserialize rehash alloc enc_ctx [] h =
    (AWS_OP_SUCCESS tt, [], [], h0) /\
  (forall rest,
     aws_cryptosdk_enc_ctx_deserialize rehash alloc enc_ctx
       (x00 :: x00 :: rest) h =
       (AWS_OP_ERR AWS_CRYPTOSDK_ERR_BAD_CIPHERTEXT, [], rest, h0)) /\
  (forall b,
     aws_cryptosdk_enc_ctx_deserialize rehash alloc enc_ctx [b] h =
       (AWS_OP_ERR AWS_ERROR_SHORT_BUFFER, [], [b], h0)).
Proof.
  cbv zeta. repeat split; intros; reflexivity.
Qed.

(** C4. Deserialization failure atomicity.  Whatever the cursor, the heap
    (and so whichever allocations fail) and the previous contents of the
    target mapping, a deserialization that returns an error leaves the
    target mapping empty. *)
Theorem deserialize_failure_leaves_empty (alloc : aws_allocator)
    (enc_ctx : aws_hash_table) (cursor : aws_byte_cursor) (h : heap)
    (e : aws_error) (t' : aws_hash_table) (c' : aws_byte_cursor) (h' : heap) :
  aws_cryptosdk_enc_ctx_deserialize rehash alloc enc_ctx cursor h =
    (AWS_OP_ERR e, t', c', h') ->
  t' = [].
Proof.
  unfold aws_cryptosdk_enc_ctx_deserialize, aws_cryptosdk_enc_ctx_clear,
    aws_hash_table_clear.
  destruct (Z.of_nat (length cursor) =? 0); [discriminate|].
  destruct (aws_byte_cursor_read_be16 cursor) as [[elem_count|] c];
    [|intros H; now inversion H].
  destruct (elem_count =? 0); [intros H; now inversion H|].
  destruct (deserialize_loop rehash _ alloc [] c _) as [[[x t] c1] h1].
  destruct x; intros H; now inversion H.
Qed.

Lemma overwrite_owned (alloc : aws_allocator) (k v : aws_string)
    (t t' : aws_hash_table) (h h' : heap) :
  Forall (owned_by alloc) t -> owned_by alloc (mk_elem k v) ->
  overwrite_elem k v t h = (t', h') -> Forall (owned_by alloc) t'.
Proof.
  intros Ht Hkv. revert t' h'.
  induction Ht as [|e t He Ht IH]; intros t' h' Hov; cbn [overwrite_elem] in Hov.
  - inversion Hov. constructor.
  - destruct (aws_string_eq (key e) k).
    + inversion Hov; subst. now constructor.
    + destruct (overwrite_elem k v t h) as [t2 h2].
      inversion Hov; subst. constructor; [assumption|]. eapply IH; reflexivity.
Qed.

Lemma put_owned (alloc : aws_allocator) (k v : aws_string)
    (t t' : aws_hash_table) (h h' : heap) (r : option bool) :
  Forall (owned_by alloc) t -> owned_by alloc (mk_elem k v) ->
  aws_hash_table_put rehash t k v h = (r, t', h') -> Forall (owned_by alloc) t'.
Proof.
  intros Ht Hkv. unfold aws_hash_table_put.
  destruct (aws_hash_table_find t k).
  - destruct (overwrite_elem k v t h) as [t2 h2] eqn:Hov.
    intros H; inversion H; subst. eapply overwrite_owned; eauto.
  - destruct (aws_mem_acquire h) as [[p|] h1]; intros H; inversion H; subst.
    + apply (Permutation_Forall (Permutation_sym (rehash_perm _))).
      now constructor.
    + assumption.
Qed.

(** However the loop ends, every string it has put in the table was created
    with the caller's allocator. *)
Lemma deserialize_loop_owned (n : nat) (alloc : aws_allocator) :
  forall (t : aws_hash_table) (c : aws_byte_cursor) (h : heap)
         (x : parse_exit) (t' : aws_hash_table) (c' : aws_byte_cursor) (h' : heap),
  Forall (owned_by alloc) t ->
  deserialize_loop rehash n alloc t c h = (x, t', c', h') ->
  Forall (owned_by alloc) t'.
Proof.
  induction n as [|n IH]; intros t c h x t' c' h' Ht Hrun;
    cbn [deserialize_loop] in Hrun.
  - inversion Hrun; now subst.
  - destruct (aws_byte_cursor_read_be16 c) as [[klen|] c1];
      [|inversion Hrun; now subst].
    destruct (aws_byte_cursor_advance_nospec c1 klen) as [[k_cursor|] c2];
      [|inversion Hrun; now subst].
    destruct (aws_byte_cursor_read_be16 c2) as [[vlen|] c3];
      [|inversion Hrun; now subst].
    destruct (aws_byte_cursor_advance_nospec c3 vlen) as [[v_cursor|] c4];
      [|inversion Hrun; now subst].
    destruct (aws_string_new_from_array alloc k_cursor h) as [k h1] eqn:Hk.
    destruct (aws_string_new_from_array alloc v_cursor h1) as [v h2] eqn:Hv.
    destruct k as [k|]; [destruct v as [v|]|]; try (inversion Hrun; now subst).
    apply string_new_owned in Hk as [-> _]. apply string_new_owned in Hv as [-> _].
    destruct (aws_hash_table_put rehash t _ _ h2) as [[r t2] h3] eqn:Hput.
    assert (Ht2 : Forall (owned_by alloc) t2)
      by (eapply put_owned; [exact Ht | | exact Hput]; split; reflexivity).
    destruct r as [[|]|]; [eapply IH; eauto | |]; inversion Hrun; now subst.
Qed.

(** C9. Allocator ownership of deserialized strings.  Whatever the input
    and however deserialization ends, every key and every value it leaves in
    the mapping carries the caller's allocator, never the null allocator of a
    static string; the clone engine therefore takes its copying branch on
    each of them and never installs such a string by reference. *)
Theorem deserialize_strings_allocator_owned (alloc : aws_allocator)
    (enc_ctx : aws_hash_table) (cursor : aws_byte_cursor) (h : heap)
    (r : aws_result unit) (t' : aws_hash_table) (c' : aws_byte_cursor)
    (h' : heap) (e : aws_hash_element) :
  aws_cryptosdk_enc_ctx_deserialize rehash alloc enc_ctx cursor h =
    (r, t', c', h') ->
  In e t' ->
  allocator (key e) = Some alloc /\ allocator (value e) = Some alloc /\
  forall (a : aws_allocator) (hh : heap),
    clone_or_reuse_string a (key e) hh =
      aws_string_new_from_array a (bytes (key e)) hh /\
    clone_or_reuse_string a (value e) hh =
      aws_string_new_from_array a (bytes (value e)) hh.
Proof.
  intros Hrun Hin.
  assert (Hall : Forall (owned_by alloc) t').
  { revert Hrun.
    unfold aws_cryptosdk_enc_ctx_deserialize, aws_cryptosdk_enc_ctx_clear,
      aws_hash_table_clear.
    destruct (Z.of_nat (length cursor) =? 0);
      [intros H; inversion H; constructor|].
    destruct (aws_byte_cursor_read_be16 cursor) as [[elem_count|] c];
      [|intros H; inversion H; constructor].
    destruct (elem_count =? 0); [intros H; inversion H; constructor|].
    destruct (deserialize_loop rehash _ alloc [] c _) as [[[x t] c1] h1] eqn:Hloop.
    apply deserialize_loop_owned in Hloop; [|constructor].
    destruct x; intros H; inversion H; subst; (assumption || constructor). }
  rewrite Forall_forall in Hall. destruct (Hall e Hin) as [Hk Hv].
  split; [assumption|]. split; [assumption|].
  intros a hh. unfold clone_or_reuse_string. now rewrite Hk, Hv.
Qed.

End Deserializer.

(** ** Clone engine *)

Section Clone.

Variable rehash : aws_hash_table -> aws_hash_table.
Hypothesis rehash_perm : forall t, Permutation (rehash t) t.

Lemma unique_by_key (t : aws_hash_table) (x y : aws_hash_element) :
  NoDup (map key_bytes t) -> In x t -> In y t ->
  key_bytes x = key_bytes y -> x = y.
Proof.
  induction t as [|a t IH]; simpl; intros Hnd Hx Hy Hk; [tauto|].
  inversion Hnd as [|? ? Hnotin Hnd']; subst.
  destruct Hx as [->|Hx], Hy as [->|Hy]; auto.
  - exfalso. apply Hnotin. rewrite Hk. now apply in_map.
  - exfalso. apply Hnotin. rewrite <- Hk. now apply in_map.
Qed.

Lemma filter_keys_NoDup (f : aws_hash_element -> bool) (t : aws_hash_table) :
  NoDup (map key_bytes t) -> NoDup (map key_bytes (filter f t)).
Proof.
  induction t as [|a t IH]; simpl; intros Hnd; [constructor|].
  inversion Hnd as [|? ? Hnotin Hnd']; subst.
  destruct (f a); simpl; [constructor|]; auto.
  intros Hin. apply Hnotin. apply in_map_iff in Hin as (x & Hx & Hin).
  apply filter_In in Hin as [Hin _]. rewrite <- Hx. now apply in_map.
Qed.

Lemma rehash_In (t : aws_hash_table) (x : aws_hash_element) :
  In x (rehash t) <-> In x t.
Proof.
  split; apply Permutation_in;
    [apply rehash_perm | apply Permutation_sym, rehash_perm].
Qed.

Lemma rehash_keys_NoDup (t : aws_hash_table) :
  NoDup (map key_bytes t) -> NoDup (map key_bytes (rehash t)).
Proof.
  apply Permutation_NoDup, Permutation_map, Permutation_sym, rehash_perm.
Qed.

Lemma iter_delete_spec (e : aws_hash_element) (t t' : aws_hash_table)
    (h h' : heap) :
  aws_hash_iter_delete rehash e t h = (t', h') ->
  (forall x, In x t' <-> In x t /\ key_bytes x <> key_bytes e) /\
  (NoDup (map key_bytes t) -> NoDup (map key_bytes t')) /\
  next_ptr h' = next_ptr h.
Proof.
  unfold aws_hash_iter_delete. intros H; inversion H; subst; clear H.
  split; [|split].
  - intros x. rewrite rehash_In, filter_In, negb_true_iff.
    unfold aws_string_eq. rewrite bytes_eqb_neq. reflexivity.
  - intros Hnd. now apply rehash_keys_NoDup, filter_keys_NoDup.
  - unfold destroy_elem, aws_string_destroy, aws_mem_release.
    destruct (allocator (key e)), (allocator (value e)); reflexivity.
Qed.

Lemma clone_prune_spec (src : aws_hash_table) :
  forall (iter dest : aws_hash_table) (h : heap) (d1 : aws_hash_table) (h1 : heap),
  clone_prune rehash iter dest src h = (d1, h1) ->
  (forall x, In x d1 -> In x dest) /\
  (NoDup (map key_bytes dest) -> NoDup (map key_bytes d1)) /\
  (forall x, In x d1 -> In (key_bytes x) (map key_bytes iter) ->
             In (key_bytes x) (map key_bytes src)) /\
  next_ptr h1 = next_ptr h.
Proof.
  induction iter as [|e iter IH]; intros dest h d1 h1 Hrun;
    cbn [clone_prune] in Hrun.
  - inversion Hrun; subst. repeat split; auto. intros x _ [].
  - destruct (aws_hash_table_find src (key e)) as [s|] eqn:Hf.
    + destruct (IH _ _ _ _ Hrun) as (Hsub & Hnd & Hin & Hptr).
      repeat split; auto.
      intros x Hx [Hk|Hk]; [|now apply Hin].
      apply table_find_some in Hf as [Hs Hsk].
      rewrite <- Hk. unfold key_bytes at 1. rewrite <- Hsk.
      now apply in_map.
    + destruct (aws_hash_iter_delete rehash e dest h) as [dest' h'] eqn:Hdel.
      apply iter_delete_spec in Hdel as (Hmem & Hnd' & Hptr').
      destruct (IH _ _ _ _ Hrun) as (Hsub & Hnd & Hin & Hptr).
      repeat split.
      * intros x Hx. now apply Hmem, Hsub.
      * auto.
      * intros x Hx [Hk|Hk]; [|now apply Hin].
        apply Hsub, Hmem in Hx as [_ Hne]. now symmetry in Hk.
      * congruence.
Qed.

Lemma set_elem_value_keys (k v : aws_string) (t : aws_hash_table) :
  map key_bytes (set_elem_value k v t) = map key_bytes t.
Proof.
  induction t as [|e t IH]; [reflexivity|]. cbn [set_elem_value].
  destruct (aws_string_eq (key e) k); cbn [map]; [reflexivity | now rewrite IH].
Qed.

Lemma set_elem_value_In (k v : aws_string) (t : aws_hash_table)
    (x : aws_hash_element) :
  In x (set_elem_value k v t) ->
  In x t \/
  (exists d, In d t /\ key_bytes d = bytes k /\ x = mk_elem (key d) v).
Proof.
  induction t as [|e t IH]; [intros []|]. cbn [set_elem_value].
  destruct (aws_string_eq (key e) k) eqn:E.
  - intros [<-|Hin]; [|left; now right].
    right. exists e. split; [now left|]. split; [|reflexivity].
    now apply bytes_eqb_eq.
  - intros [<-|Hin]; [left; now left|].
    destruct (IH Hin) as [Hx|(d & Hd & Hk & ->)]; [left; now right|].
    right. exists d. split; [now right | auto].
Qed.

Lemma set_elem_value_has (k v : aws_string) (t : aws_hash_table)
    (d : aws_hash_element) :
  aws_hash_table_find t k = Some d ->
  In (mk_elem (key d) v) (set_elem_value k v t).
Proof.
  unfold aws_hash_table_find.
  induction t as [|e t IH]; [discriminate|]. cbn [find set_elem_value].
  destruct (aws_string_eq (key e) k).
  - intros H; injection H as ->. now left.
  - intros H. right. now apply IH.
Qed.

Lemma clone_or_reuse_bytes (alloc : aws_allocator) (str r : aws_string)
    (h h' : heap) :
  clone_or_reuse_string alloc str h = (Some r, h') -> bytes r = bytes str.
Proof.
  unfold clone_or_reuse_string. destruct (allocator str).
  - intros H. apply string_new_owned in H as [-> _]. reflexivity.
  - intros H; now inversion H.
Qed.

Lemma rehash_keys_In (t : aws_hash_table) (kb : list byte) :
  In kb (map key_bytes (rehash t)) <-> In kb (map key_bytes t).
Proof.
  split; apply Permutation_in, Permutation_map;
    [apply rehash_perm | apply Permutation_sym, rehash_perm].
Qed.

(** The second loop, when it runs to its end: the destination keeps unique
    keys, gains exactly the keys of the elements visited, and each of its
    elements either agrees with a visited element on key and value bytes or
    is an element the loop did not touch. *)
Lemma clone_reconcile_spec (alloc : aws_allocator) :
  forall (iter dest : aws_hash_table) (h : heap) (d' : aws_hash_table) (h' : heap),
  NoDup (map key_bytes dest) ->
  clone_reconcile rehash iter alloc dest h = (AWS_OP_SUCCESS tt, d', h') ->
  NoDup (map key_bytes d') /\
  (forall kb, In kb (map key_bytes d') <->
              In kb (map key_bytes dest) \/ In kb (map key_bytes iter)) /\
  (forall x, In x d' ->
     (exists s, In s iter /\ pair_bytes s = pair_bytes x) \/
     (~ In (key_bytes x) (map key_bytes iter) /\ In x dest)).
Proof.
  induction iter as [|e iter IH]; intros dest h d' h' Hnd Hrun;
    cbn [clone_reconcile] in Hrun.
  - inversion Hrun; subst. split; [assumption|].
    split; [intros kb; simpl; tauto|].
    intros x Hx. right. split; [intros [] | assumption].
  - destruct (aws_hash_table_find dest (key e)) as [de|] eqn:Hf.
    + destruct (aws_string_eq (value de) (value e)) eqn:Hveq; cbn [negb] in Hrun.
      * destruct (IH _ _ _ _ Hnd Hrun) as (Hnd' & Hkeys & Hel).
        apply table_find_some in Hf as [Hde Hdek].
        apply bytes_eqb_eq in Hveq.
        split; [assumption|]. split.
        -- intros kb. rewrite Hkeys. cbn [map In]. split; [tauto|].
           intros [H|[<-|H]]; auto. left. unfold key_bytes at 1.
           rewrite <- Hdek. now apply in_map.
        -- intros x Hx. destruct (Hel x Hx) as [(s & Hs & Hp)|[Hnot Hxd]].
           ++ left. exists s. split; [now right | assumption].
           ++ destruct (bytes_eqb (key_bytes x) (key_bytes e)) eqn:Hxe.
              ** apply bytes_eqb_eq in Hxe. left. exists e. split; [now left|].
                 assert (Hx_de : x = de)
                   by (apply (unique_by_key dest); auto;
                       unfold key_bytes in *; congruence).
                 subst x. unfold pair_bytes. unfold key_bytes in *.
                 f_equal; [now symmetry | now symmetry].
              ** apply bytes_eqb_neq in Hxe. right. split; [|assumption].
                 cbn [map In]. intros [H|H]; [congruence | contradiction].
      * destruct (clone_or_reuse_string alloc (value e) h) as [[v|] h1] eqn:Hc;
          [|discriminate].
        pose proof (clone_or_reuse_bytes _ _ _ _ _ Hc) as Hvb.
        assert (Hnd2 : NoDup (map key_bytes (set_elem_value (key e) v dest)))
          by (now rewrite set_elem_value_keys).
        destruct (IH _ _ _ _ Hnd2 Hrun) as (Hnd' & Hkeys & Hel).
        pose proof (set_elem_value_has (key e) v dest de Hf) as Hhas.
        apply table_find_some in Hf as [Hde Hdek].
        split; [assumption|]. split.
        -- intros kb. rewrite Hkeys, set_elem_value_keys. cbn [map In].
           split; [tauto|].
           intros [H|[<-|H]]; auto. left. unfold key_bytes at 1.
           rewrite <- Hdek. now apply in_map.
        -- intros x Hx. destruct (Hel x Hx) as [(s & Hs & Hp)|[Hnot Hxd]].
           ++ left. exists s. split; [now right | assumption].
           ++ destruct (bytes_eqb (key_bytes x) (key_bytes e)) eqn:Hxe.
              ** apply bytes_eqb_eq in Hxe. left. exists e. split; [now left|].
                 assert (Hx_new : x = mk_elem (key de) v)
                   by (apply (unique_by_key (set_elem_value (key e) v dest));
                       auto; unfold key_bytes in *; cbn [key]; congruence).
                 subst x. unfold pair_bytes. cbn [key value].
                 unfold key_bytes in *.
                 f_equal; [now symmetry | now symmetry].
              ** apply bytes_eqb_neq in Hxe. right. split.
                 { cbn [map In]. intros [H|H]; [congruence | contradiction]. }
                 apply set_elem_value_In in Hxd as [H|(d & Hd & Hdk & ->)];
                   [assumption|].
                 exfalso. apply Hxe. exact Hdk.
    + destruct (clone_or_reuse_string alloc (key e) h) as [k h1] eqn:Hck.
      destruct (clone_or_reuse_string alloc (value e) h1) as [v h2] eqn:Hcv.
      destruct k as [k|]; [destruct v as [v|]|]; try discriminate.
      pose proof (clone_or_reuse_bytes _ _ _ _ _ Hck) as Hkb.
      pose proof (clone_or_reuse_bytes _ _ _ _ _ Hcv) as Hvb.
      assert (Hfk : aws_hash_table_find dest k = None)
        by (now rewrite (table_find_congr dest k (key e))).
      unfold aws_hash_table_put in Hrun. rewrite Hfk in Hrun.
      destruct (aws_mem_acquire h2) as [[p|] h3]; [|discriminate].
      assert (Hnd2 : NoDup (map key_bytes (rehash (mk_elem k v :: dest)))).
      { apply rehash_keys_NoDup. cbn [map]. constructor; [|assumption].
        unfold key_bytes at 1; cbn [key]. now apply table_find_none. }
      destruct (IH _ _ _ _ Hnd2 Hrun) as (Hnd' & Hkeys & Hel).
      assert (Hke : key_bytes (mk_elem k v) = key_bytes e) by exact Hkb.
      split; [assumption|]. split.
      -- intros kb. rewrite Hkeys, rehash_keys_In. cbn [map In].
         rewrite Hke. tauto.
      -- intros x Hx. destruct (Hel x Hx) as [(s & Hs & Hp)|[Hnot Hxd]].
         ++ left. exists s. split; [now right | assumption].
         ++ apply (proj1 (rehash_In _ _)) in Hxd. cbn [In] in Hxd.
            destruct Hxd as [<-|Hxd].
            ** left. exists e. split; [now left|].
               unfold pair_bytes. cbn [key value]. now rewrite Hkb, Hvb.
            ** right. split; [|assumption].
               cbn [map In]. intros [H|H]; [|contradiction].
               apply table_find_none in Hf. apply Hf.
               unfold key_bytes in H. rewrite H.
               change (In (key_bytes x) (map key_bytes dest)). now apply in_map.
Qed.

(** C7. Clone convergence.  For valid source and destination tables,
    whatever keys each holds that the other lacks, a clone that succeeds
    leaves a valid destination whose key set is the source's key set and in
    which every key has a value byte-equal to the source's value for it:
    the destination and the source hold the same key-value pairs. *)
Theorem clone_convergence (alloc : aws_allocator) (dest src : aws_hash_table)
    (h : heap) (dest' : aws_hash_table) (h' : heap) :
  aws_hash_table_is_valid dest = true ->
  aws_hash_table_is_valid src = true ->
  aws_cryptosdk_enc_ctx_clone rehash alloc dest src h =
    (AWS_OP_SUCCESS tt, dest', h') ->
  aws_hash_table_is_valid dest' = true /\
  (forall kb, In kb (map key_bytes dest') <-> In kb (map key_bytes src)) /\
  (forall x, In x dest' ->
     exists s, In s src /\ bytes (key s) = bytes (key x) /\
               bytes (value s) = bytes (value x)) /\
  Permutation (map pair_bytes dest') (map pair_bytes src).
Proof.
  intros Hvd Hvs Hrun.
  apply nodup_bytes_NoDup in Hvd. apply nodup_bytes_NoDup in Hvs.
  unfold aws_cryptosdk_enc_ctx_clone in Hrun.
  destruct (clone_prune rehash dest dest src h) as [d1 h1] eqn:Hprune.
  apply clone_prune_spec in Hprune as (Hsub & Hnd1 & Hin1 & _).
  specialize (Hnd1 Hvd).
  apply clone_reconcile_spec in Hrun as (Hnd' & Hkeys & Hel); [|assumption].
  assert (Hkeyset : forall kb,
            In kb (map key_bytes dest') <-> In kb (map key_bytes src)).
  { intros kb. rewrite Hkeys. split; [|tauto].
    intros [Hk|Hk]; [|assumption].
    apply in_map_iff in Hk as (x & <- & Hx).
    apply Hin1; [assumption|]. now apply in_map, Hsub. }
  assert (Hmatch : forall x, In x dest' ->
            exists s, In s src /\ pair_bytes s = pair_bytes x).
  { intros x Hx. destruct (Hel x Hx) as [Hs|[Hnot _]]; [assumption|].
    exfalso. apply Hnot, Hkeyset. now apply in_map. }
  split; [now apply nodup_bytes_NoDup|]. split; [assumption|]. split.
  - intros x Hx. destruct (Hmatch x Hx) as (s & Hs & Hp).
    exists s. unfold pair_bytes in Hp. injection Hp as Hk Hv. auto.
  - apply NoDup_Permutation.
    + apply (NoDup_map_inv fst). now rewrite map_fst_pair_bytes.
    + apply (NoDup_map_inv fst). now rewrite map_fst_pair_bytes.
    + intros p. split; intros Hp.
      * apply in_map_iff in Hp as (x & <- & Hx).
        destruct (Hmatch x Hx) as (s & Hs & <-). now apply in_map.
      * apply in_map_iff in Hp as (s & <- & Hs).
        assert (Hk : In (key_bytes s) (map key_bytes dest'))
          by (apply Hkeyset; now apply in_map).
        apply in_map_iff in Hk as (x & Hxk & Hx).
        destruct (Hmatch x Hx) as (s' & Hs' & Hp').
        assert (Heq : s' = s).
        { apply (unique_by_key src); auto.
          unfold pair_bytes in Hp'. injection Hp' as Hk' _.
          unfold key_bytes in *. congruence. }
        subst s'. rewrite Hp'. now apply in_map.
Qed.

(** *** Copy or reuse *)

Lemma destroy_next_ptr (s : option aws_string) (h : heap) :
  next_ptr (aws_string_destroy s h) = next_ptr h.
Proof.
  unfold aws_string_destroy, aws_mem_release.
  destruct s as [str|]; [destruct (allocator str)|]; reflexivity.
Qed.

Lemma acquire_next_ptr (h h' : heap) (o : option N) :
  aws_mem_acquire h = (o, h') -> (next_ptr h <= next_ptr h')%N.
Proof.
  unfold aws_mem_acquire.
  destruct (plan h) as [|[|] p]; intros H; inversion H; subst;
    cbn [next_ptr]; lia.
Qed.

Lemma clone_or_reuse_next_ptr (alloc : aws_allocator) (str : aws_string)
    (h h' : heap) (o : option aws_string) :
  clone_or_reuse_string alloc str h = (o, h') -> (next_ptr h <= next_ptr h')%N.
Proof.
  unfold clone_or_reuse_string, aws_string_new_from_array.
  destruct (allocator str).
  - destruct (aws_mem_acquire h) as [[p|] h1] eqn:Hacq;
      intros H; inversion H; subst; eapply acquire_next_ptr; eauto.
  - intros H; inversion H; subst. lia.
Qed.

Lemma clone_or_reuse_installed (alloc : aws_allocator) (h0 h h' : heap)
    (str r : aws_string) :
  string_live h0 str -> (next_ptr h0 <= next_ptr h)%N ->
  clone_or_reuse_string alloc str h = (Some r, h') ->
  installed_from alloc h0 str r.
Proof.
  intros Hlive Hmono. unfold string_live in Hlive.
  unfold clone_or_reuse_string, installed_from.
  destruct (allocator str) as [a|] eqn:Ha.
  - specialize (Hlive ltac:(discriminate)). intros H. apply string_new_owned in H as [-> _]. cbn [allocator bytes str_ptr].
    split; [|intros _; repeat split; assumption].
    split; [|discriminate]. intros Heq. apply (f_equal str_ptr) in Heq.
    cbn [str_ptr] in Heq. lia.
  - intros H; inversion H; subst. split; [tauto | congruence].
Qed.

Lemma overwrite_In (k v : aws_string) (t t' : aws_hash_table) (h h' : heap)
    (x : aws_hash_element) :
  overwrite_elem k v t h = (t', h') -> In x t' -> x = mk_elem k v \/ In x t.
Proof.
  revert t' h'; induction t as [|e t IH]; intros t' h' Hov Hx;
    cbn [overwrite_elem] in Hov.
  - inversion Hov; subst. destruct Hx.
  - destruct (aws_string_eq (key e) k).
    + inversion Hov; subst. destruct Hx as [<-|Hx]; [now left | right; now right].
    + destruct (overwrite_elem k v t h) as [t2 h2].
      inversion Hov; subst. destruct Hx as [<-|Hx]; [right; now left|].
      destruct (IH _ _ eq_refl Hx); [now left | right; now right].
Qed.

Lemma overwrite_next_ptr (k v : aws_string) (t t' : aws_hash_table) (h h' : heap) :
  overwrite_elem k v t h = (t', h') -> next_ptr h' = next_ptr h.
Proof.
  revert t' h'; induction t as [|e t IH]; intros t' h' Hov;
    cbn [overwrite_elem] in Hov.
  - now inversion Hov.
  - destruct (aws_string_eq (key e) k).
    + injection Hov as _ <-.
      destruct (allocator (value e)), (N.eqb _ _), (allocator (key e));
        reflexivity.
    + destruct (overwrite_elem k v t h) as [t2 h2].
      injection Hov as _ <-. now apply (IH t2).
Qed.

Lemma put_In (t t' : aws_hash_table) (k v : aws_string) (h h' : heap)
    (r : option bool) (x : aws_hash_element) :
  aws_hash_table_put rehash t k v h = (r, t', h') -> In x t' ->
  x = mk_elem k v \/ In x t.
Proof.
  unfold aws_hash_table_put. destruct (aws_hash_table_find t k).
  - destruct (overwrite_elem k v t h) as [t2 h2] eqn:Hov.
    intros H Hx; inversion H; subst. eapply overwrite_In; eauto.
  - destruct (aws_mem_acquire h) as [[p|] h1]; intros H Hx; inversion H; subst.
    + apply (proj1 (rehash_In _ _)) in Hx. destruct Hx as [<-|Hx]; auto.
    + now right.
Qed.

Lemma put_next_ptr (t t' : aws_hash_table) (k v : aws_string) (h h' : heap)
    (r : option bool) :
  aws_hash_table_put rehash t k v h = (r, t', h') ->
  (next_ptr h <= next_ptr h')%N.
Proof.
  unfold aws_hash_table_put. destruct (aws_hash_table_find t k).
  - destruct (overwrite_elem k v t h) as [t2 h2] eqn:Hov.
    intros H; inversion H; subst. apply overwrite_next_ptr in Hov. lia.
  - destruct (aws_mem_acquire h) as [[p|] h1] eqn:Hacq;
      intros H; inversion H; subst; eapply acquire_next_ptr; eauto.
Qed.

Lemma clone_reconcile_policy (alloc : aws_allocator) (h0 : heap)
    (dest0 src : aws_hash_table) :
  strings_live h0 src ->
  forall (iter t : aws_hash_table) (h : heap) (r : aws_result unit)
         (t' : aws_hash_table) (h' : heap),
  incl iter src -> (next_ptr h0 <= next_ptr h)%N ->
  Forall (elem_policy alloc h0 dest0 src) t ->
  clone_reconcile rehash iter alloc t h = (r, t', h') ->
  Forall (elem_policy alloc h0 dest0 src) t'.
Proof.
  intros Hlive.
  induction iter as [|e iter IH]; intros t h r t' h' Hincl Hmono Ht Hrun;
    cbn [clone_reconcile] in Hrun.
  - now inversion Hrun; subst.
  - assert (He : In e src) by (apply Hincl; now left).
    assert (Hincl' : incl iter src) by (intros y Hy; apply Hincl; now right).
    destruct (Hlive e He) as [Hlk Hlv].
    destruct (aws_hash_table_find t (key e)) as [de|] eqn:Hf.
    + destruct (aws_string_eq (value de) (value e)); cbn [negb] in Hrun;
        [now apply (IH _ _ _ _ _ Hincl' Hmono Ht Hrun)|].
      destruct (clone_or_reuse_string alloc (value e) h) as [[v|] h1] eqn:Hc;
        [|now inversion Hrun; subst].
      pose proof (clone_or_reuse_next_ptr _ _ _ _ _ Hc) as Hm1.
      pose proof (clone_or_reuse_installed _ h0 _ _ _ _ Hlv Hmono Hc) as Hinst.
      refine (IH _ _ _ _ _ Hincl' _ _ Hrun).
      * rewrite destroy_next_ptr. lia.
      * rewrite Forall_forall in *. intros x Hx.
        apply set_elem_value_In in Hx as [Hx|(d & Hd & Hdk & ->)]; [now apply Ht|].
        destruct (Ht d Hd) as [Hkd _]. split; [exact Hkd|].
        right. exists e. split; [exact He|].
        split; [symmetry; exact Hdk | exact Hinst].
    + destruct (clone_or_reuse_string alloc (key e) h) as [k h1] eqn:Hck.
      destruct (clone_or_reuse_string alloc (value e) h1) as [v h2] eqn:Hcv.
      pose proof (clone_or_reuse_next_ptr _ _ _ _ _ Hck) as Hm1.
      pose proof (clone_or_reuse_next_ptr _ _ _ _ _ Hcv) as Hm2.
      destruct k as [k|]; [destruct v as [v|]|]; try (now inversion Hrun; subst).
      pose proof (clone_or_reuse_installed _ h0 _ _ _ _ Hlk Hmono Hck) as Hik.
      assert (Hmono1 : (next_ptr h0 <= next_ptr h1)%N) by lia.
      pose proof (clone_or_reuse_installed _ h0 _ _ _ _ Hlv Hmono1 Hcv) as Hiv.
      pose proof (clone_or_reuse_bytes _ _ _ _ _ Hck) as Hkb.
      destruct (aws_hash_table_put rehash t k v h2) as [[o d] h3] eqn:Hput.
      pose proof (put_next_ptr _ _ _ _ _ _ _ Hput) as Hm3.
      assert (Hd : Forall (elem_policy alloc h0 dest0 src) d).
      { rewrite Forall_forall in *. intros x Hx.
        destruct (put_In _ _ _ _ _ _ _ x Hput Hx) as [->|Hxt]; [|now apply Ht].
        split; right; exists e; (split; [exact He|]); [exact Hik|].
        split; [symmetry; exact Hkb | exact Hiv]. }
      destruct o as [b|]; [|now inversion Hrun; subst].
      refine (IH _ _ _ _ _ Hincl' _ Hd Hrun). lia.
Qed.

Lemma set_elem_value_other (k v : aws_string) (t : aws_hash_table)
    (x : aws_hash_element) :
  In x t -> key_bytes x <> bytes k -> In x (set_elem_value k v t).
Proof.
  induction t as [|e t IH]; [intros []|]. cbn [set_elem_value].
  intros [->|Hx] Hne.
  - unfold aws_string_eq.
    destruct (bytes_eqb (bytes (key x)) (bytes k)) eqn:E;
      [apply bytes_eqb_eq in E; contradiction | now left].
  - destruct (aws_string_eq (key e) k); right; auto.
Qed.

(** An element whose key the second loop does not visit is still there
    when the loop has run to its end. *)
Lemma clone_reconcile_untouched (alloc : aws_allocator) :
  forall (iter t : aws_hash_table) (h : heap) (t' : aws_hash_table) (h' : heap)
         (x : aws_hash_element),
  clone_reconcile rehash iter alloc t h = (AWS_OP_SUCCESS tt, t', h') ->
  In x t -> ~ In (key_bytes x) (map key_bytes iter) -> In x t'.
Proof.
  induction iter as [|e iter IH]; intros t h t' h' x Hrun Hx Hnot;
    cbn [clone_reconcile] in Hrun.
  - now inversion Hrun; subst.
  - assert (Hne : key_bytes x <> bytes (key e))
      by (intros Heq; apply Hnot; left; now symmetry).
    assert (Hnot' : ~ In (key_bytes x) (map key_bytes iter))
      by (intros Hin; apply Hnot; now right).
    destruct (aws_hash_table_find t (key e)) as [de|] eqn:Hf.
    + destruct (aws_string_eq (value de) (value e)); cbn [negb] in Hrun;
        [now apply (IH _ _ _ _ _ Hrun)|].
      destruct (clone_or_reuse_string alloc (value e) h) as [[v|] h1];
        [|discriminate].
      apply (IH _ _ _ _ _ Hrun); [|assumption].
      now apply set_elem_value_other.
    + destruct (clone_or_reuse_string alloc (key e) h) as [k h1] eqn:Hck.
      destruct (clone_or_reuse_string alloc (value e) h1) as [v h2].
      destruct k as [k|]; [destruct v as [v|]|]; try discriminate.
      pose proof (clone_or_reuse_bytes _ _ _ _ _ Hck) as Hkb.
      assert (Hfk : aws_hash_table_find t k = None)
        by (now rewrite (table_find_congr t k (key e))).
      unfold aws_hash_table_put in Hrun. rewrite Hfk in Hrun.
      destruct (aws_mem_acquire h2) as [[p|] h3]; [|discriminate].
      apply (IH _ _ _ _ _ Hrun); [|assumption].
      apply rehash_In. now right.
Qed.

(** A successful second loop leaves, for every visited element whose key
    the destination lacked, an element whose key and value were installed
    from that element's key and value. *)
Lemma clone_reconcile_installs (alloc : aws_allocator) (h0 : heap)
    (src : aws_hash_table) :
  strings_live h0 src ->
  forall (iter t : aws_hash_table) (h : heap) (t' : aws_hash_table) (h' : heap)
         (s : aws_hash_element),
  incl iter src -> NoDup (map key_bytes iter) ->
  (next_ptr h0 <= next_ptr h)%N ->
  clone_reconcile rehash iter alloc t h = (AWS_OP_SUCCESS tt, t', h') ->
  In s iter -> ~ In (key_bytes s) (map key_bytes t) ->
  exists x, In x t' /\
    installed_from alloc h0 (key s) (key x) /\
    installed_from alloc h0 (value s) (value x).
Proof.
  intros Hlive.
  induction iter as [|e iter IH]; intros t h t' h' s Hincl Hnd Hmono Hrun Hs Hnew;
    [destruct Hs|].
  assert (He : In e src) by (apply Hincl; now left).
  assert (Hincl' : incl iter src) by (intros y Hy; apply Hincl; now right).
  destruct (Hlive e He) as [Hlk Hlv].
  inversion Hnd as [|? ? Hfresh Hnd']; subst.
  cbn [clone_reconcile] in Hrun.
  destruct (aws_hash_table_find t (key e)) as [de|] eqn:Hf.
  - (* the key of [e] is in the destination, so [s] is a later element *)
    destruct Hs as [->|Hs];
      [apply table_find_some in Hf as [Hde Hdk]; exfalso; apply Hnew;
       unfold key_bytes at 1; rewrite <- Hdk; now apply in_map|].
    destruct (aws_string_eq (value de) (value e)); cbn [negb] in Hrun;
      [now apply (IH _ _ _ _ s Hincl' Hnd' Hmono Hrun)|].
    destruct (clone_or_reuse_string alloc (value e) h) as [[v|] h1] eqn:Hc;
      [|discriminate].
    pose proof (clone_or_reuse_next_ptr _ _ _ _ _ Hc) as Hm1.
    eapply IH; [exact Hincl' | exact Hnd' | | exact Hrun | exact Hs |].
    + rewrite destroy_next_ptr. lia.
    + now rewrite set_elem_value_keys.
  - destruct (clone_or_reuse_string alloc (key e) h) as [k h1] eqn:Hck.
    destruct (clone_or_reuse_string alloc (value e) h1) as [v h2] eqn:Hcv.
    pose proof (clone_or_reuse_next_ptr _ _ _ _ _ Hck) as Hm1.
    pose proof (clone_or_reuse_next_ptr _ _ _ _ _ Hcv) as Hm2.
    destruct k as [k|]; [destruct v as [v|]|]; try discriminate.
    pose proof (clone_or_reuse_installed _ h0 _ _ _ _ Hlk Hmono Hck) as Hik.
    assert (Hmono1 : (next_ptr h0 <= next_ptr h1)%N) by lia.
    pose proof (clone_or_reuse_installed _ h0 _ _ _ _ Hlv Hmono1 Hcv) as Hiv.
    pose proof (clone_or_reuse_bytes _ _ _ _ _ Hck) as Hkb.
    assert (Hfk : aws_hash_table_find t k = None)
      by (now rewrite (table_find_congr t k (key e))).
    unfold aws_hash_table_put in Hrun. rewrite Hfk in Hrun.
    destruct (aws_mem_acquire h2) as [[p|] h3] eqn:Hacq; [|discriminate].
    pose proof (acquire_next_ptr _ _ _ Hacq) as Hm3.
    destruct Hs as [->|Hs].
    + exists (mk_elem k v). split; [|split; assumption].
      apply (clone_reconcile_untouched alloc _ _ _ _ _ _ Hrun).
      * apply rehash_In. now left.
      * unfold key_bytes at 1. cbn [key]. now rewrite Hkb.
    + eapply IH; [exact Hincl' | exact Hnd' | | exact Hrun | exact Hs |];
        [lia|].
      rewrite rehash_keys_In. cbn [map In]. intros [Hk|Hk]; [|contradiction].
      apply Hfresh. unfold key_bytes at 1 in Hk. cbn [key] in Hk.
      rewrite Hkb in Hk. unfold key_bytes at 1. rewrite Hk. now apply in_map.
Qed.

(** C8. Copy-versus-reuse policy.  In a clone whose allocator-owned source
    strings exist when it is called, a source string is installed in the destination as
    that very string (same address) if and only if it is static (null
    allocator), and any other source string is installed as a string owned
    by the clone's allocator, with the same bytes, at an address allocated
    during the call.  Whatever the outcome, each key and each value found in
    the destination afterwards is either one the destination already held
    or was installed so from a source string; and after a successful clone
    from a valid source, every source element whose key the destination
    lacked has its key and its value installed so in one element of the
    destination. *)
Theorem clone_copy_or_reuse (alloc : aws_allocator) (dest src : aws_hash_table)
    (h : heap) (r : aws_result unit) (dest' : aws_hash_table) (h' : heap) :
  (forall s, In s src ->
     (allocator (key s) <> None -> (str_ptr (key s) < next_ptr h)%N) /\
     (allocator (value s) <> None -> (str_ptr (value s) < next_ptr h)%N)) ->
  aws_cryptosdk_enc_ctx_clone rehash alloc dest src h = (r, dest', h') ->
  (forall x, In x dest' ->
     ((exists d, In d dest /\ key x = key d) \/
      (exists s, In s src /\
         (key x = key s <-> allocator (key s) = None) /\
         (allocator (key s) <> None ->
          allocator (key x) = Some alloc /\ bytes (key x) = bytes (key s) /\
          (next_ptr h <= str_ptr (key x))%N))) /\
     ((exists d, In d dest /\ value x = value d) \/
      (exists s, In s src /\ key_bytes s = key_bytes x /\
         (value x = value s <-> allocator (value s) = None) /\
         (allocator (value s) <> None ->
          allocator (value x) = Some alloc /\
          bytes (value x) = bytes (value s) /\
          (next_ptr h <= str_ptr (value x))%N)))) /\
  (r = AWS_OP_SUCCESS tt -> aws_hash_table_is_valid src = true ->
   forall s, In s src -> ~ In (key_bytes s) (map key_bytes dest) ->
   exists x, In x dest' /\
     (key x = key s <-> allocator (key s) = None) /\
     (allocator (key s) <> None ->
      allocator (key x) = Some alloc /\ bytes (key x) = bytes (key s) /\
      (next_ptr h <= str_ptr (key x))%N) /\
     (value x = value s <-> allocator (value s) = None) /\
     (allocator (value s) <> None ->
      allocator (value x) = Some alloc /\ bytes (value x) = bytes (value s) /\
      (next_ptr h <= str_ptr (value x))%N)).
Proof.
  intros Hlive Hrun.
  unfold aws_cryptosdk_enc_ctx_clone in Hrun.
  destruct (clone_prune rehash dest dest src h) as [d1 h1] eqn:Hprune.
  apply clone_prune_spec in Hprune as (Hsub & _ & _ & Hptr).
  split.
  - intros x Hx.
    assert (Hd1 : Forall (elem_policy alloc h dest src) d1).
    { rewrite Forall_forall. intros y Hy.
      split; left; exists y; split; auto. }
    pose proof (clone_reconcile_policy alloc h dest src Hlive src d1 h1 r dest' h'
                  (incl_refl src)) as Hpol.
    rewrite Hptr in Hpol. specialize (Hpol (N.le_refl _) Hd1 Hrun).
    rewrite Forall_forall in Hpol. exact (Hpol x Hx).
  - intros -> Hvs s Hs Hnew.
    apply nodup_bytes_NoDup in Hvs.
    destruct (clone_reconcile_installs alloc h src Hlive src d1 h1 dest' h' s
                (incl_refl src) Hvs) as (x & Hx & [Hk1 Hk2] & [Hv1 Hv2]);
      try assumption.
    + rewrite Hptr. apply N.le_refl.
    + intros Hin. apply Hnew. apply in_map_iff in Hin as (y & <- & Hy).
      now apply in_map, Hsub.
    + exists x. repeat split; tauto.
Qed.

End Clone.

(** * The theorems on the sample contexts *)

Lemma reversing_rehash_perm (t : aws_hash_table) :
  Permutation (reversing_rehash t) t.
Proof. apply Permutation_sym, Permutation_rev. Qed.

Example sample_size : aws_cryptosdk_enc_ctx_size sample_src = AWS_OP_SUCCESS 17.
Proof. reflexivity. Qed.

Example sample_serialize :
  aws_cryptosdk_enc_ctx_serialize 7%N sample_output sample_src heap0 =
    (AWS_OP_SUCCESS tt, mk_buf (xff :: sample_wire) 64, mk_heap 101 [] [100%N]).
Proof. reflexivity. Qed.

Example sample_deserialize :
  aws_cryptosdk_enc_ctx_deserialize reversing_rehash 9%N sample_dest
    (sample_wire ++ [xaa; xbb]) heap0 =
    (AWS_OP_SUCCESS tt, sample_parsed, [xaa; xbb],
     mk_heap 106 [] [13%N; 12%N; 11%N; 10%N]).
Proof. reflexivity. Qed.

Example sample_clone :
  aws_cryptosdk_enc_ctx_clone reversing_rehash 9%N sample_dest sample_src heap0 =
    (AWS_OP_SUCCESS tt, sample_cloned, mk_heap 102 [] [13%N; 11%N; 10%N]).
Proof. reflexivity. Qed.

(** A clone that runs out of memory at its second allocation stops with the
    destination pruned and not yet reconciled. *)
Example sample_clone_oom :
  aws_cryptosdk_enc_ctx_clone reversing_rehash 9%N sample_dest sample_src
    (mk_heap 100 [true; false] []) =
    (AWS_OP_ERR AWS_ERROR_OOM,
     [ mk_elem (mk_aws_string 12 (Some 7%N) [x6b; x31])
               (mk_aws_string 13 (Some 7%N) [x6f; x6c; x64]) ],
     mk_heap 101 [] [100%N; 11%N; 10%N]).
Proof. reflexivity. Qed.

(** The size limit: an encoding of exactly 65535 bytes is accepted, one of
    65536 bytes is refused by the size computation and by the serializer. *)
Example size_at_limit :
  aws_cryptosdk_enc_ctx_size (boundary_ctx 65529) = AWS_OP_SUCCESS 65535.
Proof. vm_compute. reflexivity. Qed.

Example size_over_limit :
  aws_cryptosdk_enc_ctx_size (boundary_ctx 65530) =
    AWS_OP_ERR AWS_CRYPTOSDK_ERR_LIMIT_EXCEEDED.
Proof. vm_compute. reflexivity. Qed.

Example serialize_over_limit :
  aws_cryptosdk_enc_ctx_serialize 7%N (mk_buf [] 70000) (boundary_ctx 65530)
    heap0 =
    (AWS_OP_ERR AWS_CRYPTOSDK_ERR_LIMIT_EXCEEDED, mk_buf [] 70000, heap0).
Proof. vm_compute. reflexivity. Qed.

(** The checked addition of the size loop on two lengths of 2^63: the sum
    does not fit in [size_t], and the error is the addition's own. *)
Example checked_add_overflow :
  aws_add_size_checked_varargs
    [2; 9223372036854775808; 9223372036854775808; 4] =
    AWS_OP_ERR AWS_ERROR_OVERFLOW_DETECTED.
Proof. reflexivity. Qed.

Lemma serialize_deserialize_roundtrip_witness :
  exists written o h' t' h2',
    aws_cryptosdk_enc_ctx_serialize 7%N sample_output sample_src heap0 =
      (AWS_OP_SUCCESS tt, o, h') /\
    o = mk_buf (buffer sample_output ++ written) (capacity sample_output) /\
    Z.of_nat (length written) = encoding_length sample_src /\
    aws_cryptosdk_enc_ctx_deserialize reversing_rehash 9%N sample_dest written
      heap0 = (AWS_OP_SUCCESS tt, t', [], h2') /\
    aws_hash_table_is_valid t' = true /\
    Permutation (map pair_bytes t') (map pair_bytes sample_src).
Proof.
  apply (serialize_deserialize_roundtrip reversing_rehash reversing_rehash_perm
           7%N 9%N sample_output sample_src sample_dest heap0 heap0);
    vm_compute; first [reflexivity | discriminate].
Defined.

Lemma serialize_canonical_witness :
  mk_buf (xff :: sample_wire) 64 = mk_buf (xff :: sample_wire) 64 /\
  exists sorted,
    Permutation sorted (map pair_bytes sample_src) /\
    StronglySorted pair_key_le sorted /\
    buffer (mk_buf (xff :: sample_wire) 64) =
      buffer sample_output ++
      match sorted with
      | [] => []
      | _ => wire_format (Z.of_nat (length sorted)) sorted
      end.
Proof.
  apply (serialize_canonical 7%N 8%N sample_output
           (mk_buf (xff :: sample_wire) 64) (mk_buf (xff :: sample_wire) 64)
           sample_src sample_src_twin
           heap0 (mk_heap 101 [] [100%N]) heap0 (mk_heap 101 [] [100%N]));
    [reflexivity | apply perm_swap | reflexivity | reflexivity].
Defined.

Lemma enc_ctx_size_contract_witness :
  aws_cryptosdk_enc_ctx_size sample_src = AWS_OP_SUCCESS 17.
Proof.
  destruct (enc_ctx_size_contract sample_src) as (_ & _ & Hsome).
  destruct Hsome as (_ & Hfits & _);
    [vm_compute; split; [reflexivity | discriminate]|].
  apply Hfits. vm_compute. discriminate.
Defined.

Lemma deserialize_failure_leaves_empty_witness :
  snd (fst (fst (aws_cryptosdk_enc_ctx_deserialize reversing_rehash 9%N
                   sample_dest [x00; x02; x00; x01; x6b; x00; x01; x61; x00; x01]
                   heap0))) = [].
Proof.
  eapply (deserialize_failure_leaves_empty reversing_rehash 9%N sample_dest
            [x00; x02; x00; x01; x6b; x00; x01; x61; x00; x01] heap0
            AWS_ERROR_SHORT_BUFFER).
  vm_compute. reflexivity.
Defined.

Lemma deserialize_duplicate_key_witness :
  exists c' h',
    aws_cryptosdk_enc_ctx_deserialize reversing_rehash 9%N sample_dest
      (wire_format 2 duplicate_pairs ++ []) heap0 =
      (AWS_OP_ERR AWS_CRYPTOSDK_ERR_BAD_CIPHERTEXT, [], c', h').
Proof.
  apply (deserialize_duplicate_key reversing_rehash reversing_rehash_perm 9%N
           sample_dest 2 duplicate_pairs [] heap0).
  - repeat constructor; vm_compute; discriminate.
  - reflexivity.
  - vm_compute. split; discriminate.
  - reflexivity.
Defined.

Lemma clone_convergence_witness :
  aws_hash_table_is_valid sample_cloned = true /\
  (forall kb, In kb (map key_bytes sample_cloned) <->
              In kb (map key_bytes sample_src)) /\
  (forall x, In x sample_cloned ->
     exists s, In s sample_src /\ bytes (key s) = bytes (key x) /\
               bytes (value s) = bytes (value x)) /\
  Permutation (map pair_bytes sample_cloned) (map pair_bytes sample_src).
Proof.
  apply (clone_convergence reversing_rehash reversing_rehash_perm 9%N
           sample_dest sample_src heap0 sample_cloned
           (mk_heap 102 [] [13%N; 11%N; 10%N]));
    reflexivity.
Defined.

Lemma deserialize_strings_allocator_owned_witness :
  allocator (mk_aws_string 103 (Some 9%N) [x6b; x32]) = Some 9%N /\
  allocator (mk_aws_string 104 (Some 9%N) [x76]) = Some 9%N /\
  forall (a : aws_allocator) (hh : heap),
    clone_or_reuse_string a (mk_aws_string 103 (Some 9%N) [x6b; x32]) hh =
      aws_string_new_from_array a [x6b; x32] hh /\
    clone_or_reuse_string a (mk_aws_string 104 (Some 9%N) [x76]) hh =
      aws_string_new_from_array a [x76] hh.
Proof.
  apply (deserialize_strings_allocator_owned reversing_rehash
           reversing_rehash_perm 9%N sample_dest (sample_wire ++ [xaa; xbb])
           heap0 (AWS_OP_SUCCESS tt) sample_parsed [xaa; xbb]
           (mk_heap 106 [] [13%N; 12%N; 11%N; 10%N])
           (mk_elem (mk_aws_string 103 (Some 9%N) [x6b; x32])
                    (mk_aws_string 104 (Some 9%N) [x76]))).
  - reflexivity.
  - right; left; reflexivity.
Defined.

Lemma deserialize_trailing_bytes_witness :
  exists t' h',
    aws_cryptosdk_enc_ctx_deserialize reversing_rehash 9%N sample_dest
      (wire_format (Z.of_nat (length sample_pairs)) sample_pairs ++ [xaa; xbb])
      heap0 = (AWS_OP_SUCCESS tt, t', [xaa; xbb], h') /\
    Permutation (map pair_bytes t') sample_pairs.
Proof.
  apply (deserialize_trailing_bytes reversing_rehash reversing_rehash_perm 9%N
           sample_dest sample_pairs [xaa; xbb] heap0).
  - discriminate.
  - vm_compute. discriminate.
  - repeat constructor; vm_compute; discriminate.
  - repeat constructor; simpl; intuition discriminate.
  - reflexivity.
Defined.

Lemma clone_copy_or_reuse_witness :
  (forall x, In x sample_cloned ->
     ((exists d, In d sample_dest /\ key x = key d) \/
      (exists s, In s sample_src /\
         (key x = key s <-> allocator (key s) = None) /\
         (allocator (key s) <> None ->
          allocator (key x) = Some 9%N /\ bytes (key x) = bytes (key s) /\
          (next_ptr heap0 <= str_ptr (key x))%N))) /\
     ((exists d, In d sample_dest /\ value x = value d) \/
      (exists s, In s sample_src /\ key_bytes s = key_bytes x /\
         (value x = value s <-> allocator (value s) = None) /\
         (allocator (value s) <> None ->
          allocator (value x) = Some 9%N /\
          bytes (value x) = bytes (value s) /\
          (next_ptr heap0 <= str_ptr (value x))%N)))) /\
  (AWS_OP_SUCCESS tt = AWS_OP_SUCCESS tt ->
   aws_hash_table_is_valid sample_src = true ->
   forall s, In s sample_src -> ~ In (key_bytes s) (map key_bytes sample_dest) ->
   exists x, In x sample_cloned /\
     (key x = key s <-> allocator (key s) = None) /\
     (allocator (key s) <> None ->
      allocator (key x) = Some 9%N /\ bytes (key x) = bytes (key s) /\
      (next_ptr heap0 <= str_ptr (key x))%N) /\
     (value x = value s <-> allocator (value s) = None) /\
     (allocator (value s) <> None ->
      allocator (value x) = Some 9%N /\ bytes (value x) = bytes (value s) /\
      (next_ptr heap0 <= str_ptr (value x))%N)).
Proof.
  apply (clone_copy_or_reuse reversing_rehash reversing_rehash_perm 9%N
           sample_dest sample_src heap0 (AWS_OP_SUCCESS tt) sample_cloned
           (mk_heap 102 [] [13%N; 11%N; 10%N])).
  - intros s [<-|[<-|[]]]; split; intros _; reflexivity.
  - reflexivity.
Defined.

(** * Further properties of the codec *)

(** ** Serializer: agreement with the size calculator, and failures *)

Lemma size_success_count (enc_ctx : aws_hash_table) (n : Z) :
  aws_cryptosdk_enc_ctx_size enc_ctx = AWS_OP_SUCCESS n ->
  aws_hash_table_get_entry_count enc_ctx <= UINT16_MAX /\
  n = encoding_length enc_ctx /\ n <= UINT16_MAX.
Proof.
  unfold aws_cryptosdk_enc_ctx_size, aws_hash_table_get_entry_count.
  destruct (Z.gtb_spec (Z.of_nat (length enc_ctx)) UINT16_MAX) as [|Hle];
    [discriminate|].
  destruct enc_ctx as [|e l].
  - cbn. intros H; injection H as <-. unfold UINT16_MAX. repeat split; lia.
  - destruct (Z.eqb_spec (Z.of_nat (length (e :: l))) 0) as [Hz|_];
      [cbn [length] in Hz; lia|].
    intros Hs. apply size_loop_success in Hs; unfold UINT16_MAX in *; try lia.
    cbn [encoding_length]. repeat split; lia.
Qed.

(** The size calculator does not depend on the order in which the table's
    iterator yields the entries: a size computed for one order is the size
    computed for any other. *)
Theorem size_order_independent (m1 m2 : aws_hash_table) (n : Z) :
  Permutation m1 m2 ->
  aws_cryptosdk_enc_ctx_size m1 = AWS_OP_SUCCESS n ->
  aws_cryptosdk_enc_ctx_size m2 = AWS_OP_SUCCESS n.
Proof.
  intros Hperm Hs. apply size_success_count in Hs as (Hcount & -> & Hn).
  pose proof (Permutation_length Hperm) as Hlen.
  destruct m1 as [|e1 l1].
  - apply Permutation_nil in Hperm. now subst.
  - destruct m2 as [|e2 l2]; [discriminate Hlen|].
    cbn [encoding_length] in *.
    rewrite size_nonempty.
    + rewrite (total_cost_perm _ _ Hperm) in *.
      apply size_loop_fits; [lia | assumption].
    + unfold aws_hash_table_get_entry_count in *. rewrite <- Hlen.
      cbn [length] in *. lia.
Qed.

Lemma size_order_independent_witness :
  aws_cryptosdk_enc_ctx_size (rev sample_src) = AWS_OP_SUCCESS 17.
Proof.
  apply (size_order_independent sample_src (rev sample_src) 17).
  - apply Permutation_rev.
  - reflexivity.
Defined.

(** The serializer and the size calculator agree: an error of the size
    computation is the serializer's error, with buffer and heap untouched;
    and a successful serialization has appended to the buffer, after what it
    held, exactly as many bytes as the size computation returns. *)
Theorem serialize_agrees_with_size (alloc : aws_allocator)
    (output : aws_byte_buf) (enc_ctx : aws_hash_table) (h : heap) :
  (forall e, aws_cryptosdk_enc_ctx_size enc_ctx = AWS_OP_ERR e ->
     aws_cryptosdk_enc_ctx_serialize alloc output enc_ctx h =
       (AWS_OP_ERR e, output, h)) /\
  (forall o h',
     aws_cryptosdk_enc_ctx_serialize alloc output enc_ctx h =
       (AWS_OP_SUCCESS tt, o, h') ->
     exists n written,
       aws_cryptosdk_enc_ctx_size enc_ctx = AWS_OP_SUCCESS n /\
       o = mk_buf (buffer output ++ written) (capacity output) /\
       Z.of_nat (length written) = n).
Proof.
  split.
  - intros e He. unfold aws_cryptosdk_enc_ctx_serialize.
    destruct (aws_hash_table_get_entry_count enc_ctx >? UINT16_MAX) eqn:Hc.
    + unfold aws_cryptosdk_enc_ctx_size in He. rewrite Hc in He.
      now injection He as <-.
    + now rewrite He.
  - intros o h' Hs. apply serialize_success_inv in Hs.
    destruct Hs as [[-> ->]|(Hne & Hfit & ->)].
    + exists 0, []. rewrite app_nil_r. repeat split. now destruct output.
    + exists (2 + total_cost enc_ctx), (canonical_bytes enc_ctx).
      split; [|split; [reflexivity | apply canonical_bytes_length]].
      pose proof (total_cost_count enc_ctx).
      rewrite size_nonempty.
      * apply size_loop_fits; lia.
      * unfold aws_hash_table_get_entry_count, UINT16_MAX in *.
        destruct enc_ctx; [congruence | cbn [length] in *; lia].
Qed.

Lemma serialize_loop_no_get_failure (rest pre : list aws_hash_element)
    (out o : aws_byte_buf) :
  serialize_loop (length rest) (length pre) (pre ++ rest) out <> GetAtFailed o.
Proof.
  revert pre out; induction rest as [|e rest IH]; intros pre out;
    [discriminate|].
  cbn [length serialize_loop].
  rewrite nth_error_app2, Nat.sub_diag by lia. cbn [nth_error].
  destruct (aws_byte_buf_write_be16 out _) as [[|] o1]; [|discriminate].
  destruct (aws_byte_buf_write_from_whole_string o1 _) as [[|] o2];
    [|discriminate].
  destruct (aws_byte_buf_write_be16 o2 _) as [[|] o3]; [|discriminate].
  destruct (aws_byte_buf_write_from_whole_string o3 _) as [[|] o4];
    [|discriminate].
  replace (pre ++ e :: rest) with ((pre ++ [e]) ++ rest)
    by (now rewrite <- app_assoc).
  replace (S (length pre)) with (length (pre ++ [e]))
    by (rewrite length_app; simpl; lia).
  apply IH.
Qed.

(** A buffer without room.  For a non-empty table whose encoding fits the
    format, written to a buffer whose free space is smaller than the
    encoding, the serializer fails with ShortBuffer.  The buffer is left
    untouched when its whole capacity is below the encoding's length; when
    only its free space is, the writes are attempted and the buffer is
    cleaned up, so the bytes it held are gone (the snapshot array being
    allocated). *)
Theorem serialize_short_buffer (alloc : aws_allocator) (output : aws_byte_buf)
    (enc_ctx : aws_hash_table) (h : heap) :
  enc_ctx <> [] -> 2 + total_cost enc_ctx <= UINT16_MAX ->
  buf_len output <= capacity output ->
  capacity output < buf_len output + (2 + total_cost enc_ctx) ->
  (capacity output < 2 + total_cost enc_ctx ->
   aws_cryptosdk_enc_ctx_serialize alloc output enc_ctx h =
     (AWS_OP_ERR AWS_ERROR_SHORT_BUFFER, output, h)) /\
  (2 + total_cost enc_ctx <= capacity output ->
   forall p h1, aws_mem_acquire h = (Some p, h1) ->
   exists h',
     aws_cryptosdk_enc_ctx_serialize alloc output enc_ctx h =
       (AWS_OP_ERR AWS_ERROR_SHORT_BUFFER, mk_buf [] 0, h')).
Proof.
  intros Hne Hfit Hvalid Hroom.
  rewrite serialize_nonempty by assumption. split.
  - intros Hcap.
    destruct (Z.ltb_spec (capacity output) (2 + total_cost enc_ctx));
      [reflexivity | lia].
  - intros Hcap p h1 Hacq.
    destruct (Z.ltb_spec (capacity output) (2 + total_cost enc_ctx)); [lia|].
    unfold aws_byte_buf_write_be16.
    destruct (aws_byte_buf_write output _) as [[|] o1] eqn:W1;
      [|eexists; reflexivity].
    apply buf_write_true in W1 as [Hc1 ->]. rewrite Hacq.
    destruct (serialize_loop _ _ _ _) as [o'|o'|o'] eqn:Hloop.
    + exfalso.
      rewrite <- (sort_length enc_ctx) in Hloop.
      pose proof (serialize_loop_spec
                    (aws_array_list_sort
                       aws_cryptosdk_compare_hash_elems_by_key_string enc_ctx)
                    [] (mk_buf (buffer output ++
                          be16 (aws_hash_table_get_entry_count enc_ctx))
                          (capacity output))) as [_ Hinv].
      { apply fits_u16_of_total. rewrite sort_total_cost.
        pose proof (total_cost_nonneg enc_ctx). lia. }
      cbn [app length] in Hinv.
      assert (Hlen : buf_len (mk_buf (buffer output ++
                        be16 (aws_hash_table_get_entry_count enc_ctx))
                        (capacity output)) = buf_len output + 2).
      { destruct output as [b c]. rewrite buf_len_app.
        now rewrite be16_length. }
      rewrite be16_length in Hc1.
      specialize (Hinv o'). rewrite Hlen, sort_total_cost in Hinv.
      cbn [capacity] in Hinv. specialize (Hinv ltac:(lia) Hloop). lia.
    + exfalso. rewrite <- (sort_length enc_ctx) in Hloop.
      exact (serialize_loop_no_get_failure _ [] _ _ Hloop).
    + eexists; reflexivity.
Qed.

Lemma serialize_short_buffer_witness :
  (capacity (mk_buf [xff; xff] 18) < 2 + total_cost sample_src ->
   aws_cryptosdk_enc_ctx_serialize 7%N (mk_buf [xff; xff] 18) sample_src heap0 =
     (AWS_OP_ERR AWS_ERROR_SHORT_BUFFER, mk_buf [xff; xff] 18, heap0)) /\
  (2 + total_cost sample_src <= capacity (mk_buf [xff; xff] 18) ->
   forall p h1, aws_mem_acquire heap0 = (Some p, h1) ->
   exists h',
     aws_cryptosdk_enc_ctx_serialize 7%N (mk_buf [xff; xff] 18) sample_src heap0 =
       (AWS_OP_ERR AWS_ERROR_SHORT_BUFFER, mk_buf [] 0, h')).
Proof.
  apply (serialize_short_buffer 7%N (mk_buf [xff; xff] 18) sample_src heap0);
    vm_compute; (discriminate || reflexivity).
Defined.

(** Out of memory in the serializer.  When the snapshot array cannot be
    allocated, a non-empty table that fits, written to a buffer with room
    for it, makes the serializer fail with the allocator's error after the
    two bytes of the entry count have been appended: the buffer is neither
    untouched nor cleaned up. *)
Theorem serialize_oom_after_count (alloc : aws_allocator)
    (output : aws_byte_buf) (enc_ctx : aws_hash_table) (h h1 : heap) :
  enc_ctx <> [] -> 2 + total_cost enc_ctx <= UINT16_MAX ->
  buf_len output + (2 + total_cost enc_ctx) <= capacity output ->
  aws_mem_acquire h = (None, h1) ->
  aws_cryptosdk_enc_ctx_serialize alloc output enc_ctx h =
    (AWS_OP_ERR AWS_ERROR_OOM,
     mk_buf (buffer output ++ be16 (aws_hash_table_get_entry_count enc_ctx))
            (capacity output),
     h1).
Proof.
  intros Hne Hfit Hroom Hacq.
  rewrite serialize_nonempty by assumption.
  assert (Hlen0 : 0 <= buf_len output) by (unfold buf_len; lia).
  pose proof (total_cost_nonneg enc_ctx).
  destruct (Z.ltb_spec (capacity output) (2 + total_cost enc_ctx)); [lia|].
  unfold aws_byte_buf_write_be16.
  rewrite buf_write_fits by (rewrite be16_length; lia).
  now rewrite Hacq.
Qed.

Lemma serialize_oom_after_count_witness :
  aws_cryptosdk_enc_ctx_serialize 7%N sample_output sample_src
    (mk_heap 100 [false] []) =
    (AWS_OP_ERR AWS_ERROR_OOM,
     mk_buf (buffer sample_output ++
             be16 (aws_hash_table_get_entry_count sample_src))
            (capacity sample_output),
     mk_heap 100 [] []).
Proof.
  apply (serialize_oom_after_count 7%N sample_output sample_src
           (mk_heap 100 [false] []) (mk_heap 100 [] []));
    vm_compute; (discriminate || reflexivity).
Defined.

(** ** Deserializer: what it accepts, truncation, and the cursor *)

Lemma byte_of_Z_val (b : byte) : byte_of_Z (byte_val b) = b.
Proof.
  apply byte_val_inj. rewrite byte_val_of_Z.
  apply Z.mod_small, byte_val_range.
Qed.

Lemma read_be16_some (c c1 : aws_byte_cursor) (x : Z) :
  aws_byte_cursor_read_be16 c = (Some x, c1) ->
  c = be16 x ++ c1 /\ 0 <= x <= UINT16_MAX.
Proof.
  unfold aws_byte_cursor_read_be16.
  destruct c as [|hi [|lo rest]]; try discriminate.
  intros Hr.
  assert (Hx : x = 256 * byte_val hi + byte_val lo /\ c1 = rest)
    by (split; congruence).
  destruct Hx as [-> ->]. clear Hr.
  pose proof (byte_val_range hi). pose proof (byte_val_range lo).
  split; [|unfold UINT16_MAX; lia].
  unfold be16. cbn [app].
  replace (256 * byte_val hi + byte_val lo)
    with (byte_val lo + byte_val hi * 256) by lia.
  rewrite Z.div_add, Z.div_small, Z.add_0_l by lia.
  rewrite byte_of_Z_val. f_equal. f_equal.
  apply byte_val_inj. rewrite byte_val_of_Z.
  rewrite Z.mod_add by lia.
  symmetry. apply Z.mod_small. lia.
Qed.

Lemma read_be16_short (c : aws_byte_cursor) :
  (length c < 2)%nat -> aws_byte_cursor_read_be16 c = (None, c).
Proof.
  destruct c as [|hi [|lo rest]]; cbn [length]; intros H;
    [reflexivity | reflexivity | lia].
Qed.

Lemma read_be16_none (c c1 : aws_byte_cursor) :
  aws_byte_cursor_read_be16 c = (None, c1) -> c1 = c.
Proof.
  unfold aws_byte_cursor_read_be16.
  destruct c as [|hi [|lo rest]]; intros H; now inversion H.
Qed.

Lemma advance_some (c c2 : aws_byte_cursor) (n : Z) (bs : list byte) :
  0 <= n -> aws_byte_cursor_advance_nospec c n = (Some bs, c2) ->
  c = bs ++ c2 /\ Z.of_nat (length bs) = n.
Proof.
  unfold aws_byte_cursor_advance_nospec. intros Hn.
  destruct (Z.leb_spec n (Z.of_nat (length c))); [|discriminate].
  intros Ha; injection Ha as <- <-. split.
  - symmetry. apply firstn_skipn.
  - rewrite length_firstn. lia.
Qed.

Lemma advance_short (c : aws_byte_cursor) (n : Z) :
  Z.of_nat (length c) < n -> aws_byte_cursor_advance_nospec c n = (None, c).
Proof.
  unfold aws_byte_cursor_advance_nospec. intros H.
  destruct (Z.leb_spec n (Z.of_nat (length c))); [lia | reflexivity].
Qed.

Lemma advance_none (c c2 : aws_byte_cursor) (n : Z) :
  aws_byte_cursor_advance_nospec c n = (None, c2) -> c2 = c.
Proof.
  unfold aws_byte_cursor_advance_nospec.
  destruct (n <=? Z.of_nat (length c)); intros H; now inversion H.
Qed.

Section DeserializerFurther.

Variable rehash : aws_hash_table -> aws_hash_table.
Hypothesis rehash_perm : forall t, Permutation (rehash t) t.

Lemma put_created (t t' : aws_hash_table) (k v : aws_string) (h h' : heap) :
  aws_hash_table_put rehash t k v h = (Some true, t', h') ->
  aws_hash_table_find t k = None /\ t' = rehash (mk_elem k v :: t).
Proof.
  unfold aws_hash_table_put.
  destruct (aws_hash_table_find t k).
  - destruct (overwrite_elem k v t h). discriminate.
  - destruct (aws_mem_acquire h) as [[p|] h1]; intros H; inversion H; auto.
Qed.

(** The loop only moves the cursor forward inside the bytes it was given. *)
Lemma deserialize_loop_suffix (n : nat) (alloc : aws_allocator) :
  forall (t : aws_hash_table) (c : aws_byte_cursor) (h : heap)
         (x : parse_exit) (t' : aws_hash_table) (c' : aws_byte_cursor) (h' : heap),
  deserialize_loop rehash n alloc t c h = (x, t', c', h') ->
  exists consumed, c = consumed ++ c'.
Proof.
  induction n as [|n IH]; intros t c h x t' c' h' Hrun;
    cbn [deserialize_loop] in Hrun.
  - inversion Hrun; subst. now exists [].
  - destruct (aws_byte_cursor_read_be16 c) as [[klen|] c1] eqn:R1.
    2:{ apply read_be16_none in R1. inversion Hrun; subst. now exists []. }
    apply read_be16_some in R1 as [-> Hklen].
    destruct (aws_byte_cursor_advance_nospec c1 klen) as [[kc|] c2] eqn:A1.
    2:{ apply advance_none in A1. inversion Hrun; subst. now exists (be16 klen). }
    apply advance_some in A1 as [-> _]; [|lia].
    destruct (aws_byte_cursor_read_be16 c2) as [[vlen|] c3] eqn:R2.
    2:{ apply read_be16_none in R2. inversion Hrun; subst.
        exists (be16 klen ++ kc). now rewrite <- app_assoc. }
    apply read_be16_some in R2 as [-> Hvlen].
    destruct (aws_byte_cursor_advance_nospec c3 vlen) as [[vc|] c4] eqn:A2.
    2:{ apply advance_none in A2. inversion Hrun; subst.
        exists (be16 klen ++ kc ++ be16 vlen). now rewrite <- !app_assoc. }
    apply advance_some in A2 as [-> _]; [|lia].
    assert (Hhere : exists consumed,
              be16 klen ++ kc ++ be16 vlen ++ vc ++ c4 = consumed ++ c4)
      by (exists (be16 klen ++ kc ++ be16 vlen ++ vc); now rewrite <- !app_assoc).
    destruct (aws_string_new_from_array alloc kc h) as [k h1].
    destruct (aws_string_new_from_array alloc vc h1) as [v h2].
    destruct k as [k|]; [destruct v as [v|]|];
      try (inversion Hrun; subst; exact Hhere).
    destruct (aws_hash_table_put rehash t k v h2) as [[r t2] h3].
    destruct r as [[|]|]; try (inversion Hrun; subst; exact Hhere).
    apply IH in Hrun as [consumed ->].
    exists (be16 klen ++ kc ++ be16 vlen ++ vc ++ consumed).
    now rewrite <- !app_assoc.
Qed.

(** The cursor after a deserialization, whatever its outcome, is a suffix of
    the cursor given: the deserializer never reads past the bytes it was
    handed and never moves backwards. *)
Theorem deserialize_cursor_suffix (alloc : aws_allocator)
    (enc_ctx : aws_hash_table) (cursor : aws_byte_cursor) (h : heap)
    (r : aws_result unit) (t' : aws_hash_table) (c' : aws_byte_cursor)
    (h' : heap) :
  aws_cryptosdk_enc_ctx_deserialize rehash alloc enc_ctx cursor h =
    (r, t', c', h') ->
  exists consumed, cursor = consumed ++ c'.
Proof.
  unfold aws_cryptosdk_enc_ctx_deserialize, aws_cryptosdk_enc_ctx_clear,
    aws_hash_table_clear.
  destruct (Z.of_nat (length cursor) =? 0);
    [intros H; inversion H; now exists []|].
  destruct (aws_byte_cursor_read_be16 cursor) as [[elem_count|] c] eqn:R.
  2:{ apply read_be16_none in R. intros H; inversion H; subst. now exists []. }
  apply read_be16_some in R as [-> _].
  destruct (elem_count =? 0);
    [intros H; inversion H; now exists (be16 elem_count)|].
  destruct (deserialize_loop rehash _ alloc [] c _) as [[[x t] c1] h1] eqn:Hloop.
  apply deserialize_loop_suffix in Hloop as [consumed ->].
  destruct x; intros H; inversion H; subst;
    exists (be16 elem_count ++ consumed); now rewrite <- app_assoc.
Qed.

(** A loop that runs to its end has read a well-formed sequence of entries
    with keys that are new to the table, and has put exactly them in. *)
Lemma deserialize_loop_sound (n : nat) (alloc : aws_allocator) :
  forall (t : aws_hash_table) (c : aws_byte_cursor) (h : heap)
         (t' : aws_hash_table) (c' : aws_byte_cursor) (h' : heap),
  NoDup (map key_bytes t) ->
  deserialize_loop rehash n alloc t c h = (ParseDone, t', c', h') ->
  exists ps,
    length ps = n /\ c = pairs_wire ps ++ c' /\ Forall pair_fits ps /\
    Permutation (map pair_bytes t') (ps ++ map pair_bytes t) /\
    NoDup (map key_bytes t').
Proof.
  induction n as [|n IH]; intros t c h t' c' h' Hnd Hrun;
    cbn [deserialize_loop] in Hrun.
  - inversion Hrun; subst. exists [].
    split; [reflexivity|]. split; [reflexivity|]. split; [constructor|].
    split; [reflexivity | assumption].
  - destruct (aws_byte_cursor_read_be16 c) as [[klen|] c1] eqn:R1;
      [|discriminate].
    apply read_be16_some in R1 as [-> Hklen].
    destruct (aws_byte_cursor_advance_nospec c1 klen) as [[kc|] c2] eqn:A1;
      [|discriminate].
    apply advance_some in A1 as [-> Hkc]; [|lia].
    destruct (aws_byte_cursor_read_be16 c2) as [[vlen|] c3] eqn:R2;
      [|discriminate].
    apply read_be16_some in R2 as [-> Hvlen].
    destruct (aws_byte_cursor_advance_nospec c3 vlen) as [[vc|] c4] eqn:A2;
      [|discriminate].
    apply advance_some in A2 as [-> Hvc]; [|lia].
    destruct (aws_string_new_from_array alloc kc h) as [k h1] eqn:Hk.
    destruct (aws_string_new_from_array alloc vc h1) as [v h2] eqn:Hv.
    destruct k as [k|]; [destruct v as [v|]|]; try discriminate.
    apply string_new_owned in Hk as [-> _].
    apply string_new_owned in Hv as [-> _].
    destruct (aws_hash_table_put rehash t _ _ h2) as [[r t2] h3] eqn:Hput.
    destruct r as [[|]|]; try discriminate.
    apply put_created in Hput as [Hfind ->].
    apply table_find_none in Hfind. cbn [bytes] in Hfind.
    apply IH in Hrun as (ps & Hlen & -> & Hfit & Hperm & Hnd').
    2:{ apply (Permutation_NoDup
                 (Permutation_sym (Permutation_map key_bytes (rehash_perm _)))).
        cbn [map]. now constructor. }
    exists ((kc, vc) :: ps). split; [cbn [length]; now rewrite Hlen|].
    split; [|split; [|split; [|assumption]]].
    + rewrite pairs_wire_cons. unfold pair_wire. cbn [fst snd].
      rewrite Hkc, Hvc. now rewrite <- !app_assoc.
    + constructor; [|assumption]. split; cbn [fst snd]; lia.
    + rewrite Hperm, (Permutation_map pair_bytes (rehash_perm _)).
      cbn [map app]. unfold pair_bytes at 2. cbn [key value bytes].
      apply Permutation_sym, Permutation_middle.
Qed.

(** A successful deserialization of a non-empty cursor has read a count
    between 1 and 65535 and run the loop that many times to its end. *)
Lemma deserialize_success_loop (alloc : aws_allocator)
    (enc_ctx : aws_hash_table) (cursor : aws_byte_cursor) (h : heap)
    (t' : aws_hash_table) (c' : aws_byte_cursor) (h' : heap) :
  aws_cryptosdk_enc_ctx_deserialize rehash alloc enc_ctx cursor h =
    (AWS_OP_SUCCESS tt, t', c', h') ->
  cursor <> [] ->
  exists n c h0,
    cursor = be16 n ++ c /\ 0 < n <= UINT16_MAX /\
    deserialize_loop rehash (Z.to_nat n) alloc [] c h0 =
      (ParseDone, t', c', h').
Proof.
  unfold aws_cryptosdk_enc_ctx_deserialize, aws_cryptosdk_enc_ctx_clear,
    aws_hash_table_clear.
  intros Hrun Hne.
  destruct (Z.eqb_spec (Z.of_nat (length cursor)) 0) as [Hz|_];
    [destruct cursor; [congruence | cbn [length] in Hz; lia]|].
  destruct (aws_byte_cursor_read_be16 cursor) as [[elem_count|] c] eqn:R;
    [|discriminate].
  apply read_be16_some in R as [-> Hcount].
  destruct (Z.eqb_spec elem_count 0) as [|Hpos]; [discriminate|].
  destruct (deserialize_loop rehash _ alloc [] c _) as [[[x t] c1] h1] eqn:Hloop.
  destruct x; try discriminate.
  inversion Hrun; subst.
  exists elem_count, c. eexists. split; [reflexivity|]. split; [lia|].
  exact Hloop.
Qed.

(** What the deserializer accepts.  A deserialization that succeeds on a
    non-empty cursor has consumed exactly a well-formed encoding: a count
    between 1 and 65535, then that many entries with 16-bit lengths and
    pairwise distinct keys; the table holds exactly those entries and the
    cursor is left at what follows them.  On the empty cursor it succeeds
    with an empty table. *)
Theorem deserialize_accepts_only_wire (alloc : aws_allocator)
    (enc_ctx : aws_hash_table) (cursor : aws_byte_cursor) (h : heap)
    (t' : aws_hash_table) (c' : aws_byte_cursor) (h' : heap) :
  aws_cryptosdk_enc_ctx_deserialize rehash alloc enc_ctx cursor h =
    (AWS_OP_SUCCESS tt, t', c', h') ->
  (cursor = [] /\ t' = [] /\ c' = []) \/
  (exists ps,
     ps <> [] /\ Z.of_nat (length ps) <= UINT16_MAX /\
     cursor = wire_format (Z.of_nat (length ps)) ps ++ c' /\
     Forall pair_fits ps /\ NoDup (map fst ps) /\
     Permutation (map pair_bytes t') ps /\
     aws_hash_table_is_valid t' = true).
Proof.
  intros Hrun. destruct cursor as [|b0 cursor0] eqn:Ec.
  - left. revert Hrun. cbn. intros H; inversion H; auto.
  - right. rewrite <- Ec in *.
    apply deserialize_success_loop in Hrun as (n & c & h0 & -> & Hn & Hloop);
      [|subst; discriminate].
    apply deserialize_loop_sound in Hloop as (ps & Hlen & -> & Hfit & Hperm & Hnd);
      [|constructor].
    rewrite app_nil_r in Hperm.
    assert (Hcount : Z.of_nat (length ps) = n) by lia.
    exists ps. split; [intros ->; cbn [length] in Hcount; lia|].
    split; [lia|].
    split; [unfold wire_format; now rewrite Hcount, <- app_assoc|].
    split; [assumption|]. split; [|split; [assumption|]].
    + apply (Permutation_NoDup (Permutation_map fst Hperm)).
      now rewrite map_fst_pair_bytes.
    + now apply nodup_bytes_NoDup.
Qed.

(** A cursor cut inside an entry: whichever of the four fields the cut
    falls in, the loop leaves by SHORT_BUF having allocated nothing. *)
Lemma deserialize_loop_entry_truncated (n : nat) (alloc : aws_allocator)
    (t : aws_hash_table) (p : list byte * list byte) (tail : list byte)
    (m : nat) (h : heap) :
  pair_fits p -> (m < length (pair_wire p))%nat ->
  exists c',
    deserialize_loop rehash (S n) alloc t (firstn m (pair_wire p ++ tail)) h =
      (GotoShortBuf, t, c', h).
Proof.
  intros [Hk Hv] Hm. destruct p as [k v]. cbn [fst snd] in *.
  unfold pair_wire in *. cbn [fst snd] in *.
  rewrite !length_app, !be16_length in Hm.
  rewrite <- !app_assoc.
  cbn [deserialize_loop].
  rewrite firstn_app, be16_length.
  destruct (Nat.lt_ge_cases m 2) as [Hm2|Hm2].
  - (* cut inside the key length *)
    replace (m - 2)%nat with 0%nat by lia. rewrite firstn_O, app_nil_r.
    rewrite read_be16_short by (rewrite length_firstn; lia).
    eexists; reflexivity.
  - rewrite (firstn_all2 (be16 _)) by (rewrite be16_length; lia).
    rewrite read_be16_wire by lia.
    rewrite firstn_app.
    destruct (Nat.lt_ge_cases (m - 2) (length k)) as [Hmk|Hmk].
    + (* cut inside the key *)
      replace (m - 2 - length k)%nat with 0%nat by lia.
      rewrite firstn_O, app_nil_r.
      rewrite advance_short by (rewrite length_firstn; lia).
      eexists; reflexivity.
    + rewrite (firstn_all2 k) by lia. rewrite advance_wire.
      rewrite firstn_app, be16_length.
      destruct (Nat.lt_ge_cases (m - 2 - length k) 2) as [Hmv|Hmv].
      * (* cut inside the value length *)
        replace (m - 2 - length k - 2)%nat with 0%nat by lia.
        rewrite firstn_O, app_nil_r.
        rewrite read_be16_short by (rewrite length_firstn; lia).
        eexists; reflexivity.
      * (* cut inside the value *)
        rewrite (firstn_all2 (be16 _)) by (rewrite be16_length; lia).
        rewrite read_be16_wire by lia.
        rewrite advance_short; [eexists; reflexivity|].
        rewrite length_firstn, length_app. lia.
Qed.

Lemma deserialize_loop_truncated (alloc : aws_allocator) :
  forall (ps : list (list byte * list byte)) (t : aws_hash_table) (m : nat)
         (h : heap),
  Forall pair_fits ps -> NoDup (map fst ps) ->
  (forall kb, In kb (map fst ps) -> ~ In kb (map key_bytes t)) ->
  plan_ok h = true ->
  (m < length (pairs_wire ps))%nat ->
  exists t' c' h',
    deserialize_loop rehash (length ps) alloc t (firstn m (pairs_wire ps)) h =
      (GotoShortBuf, t', c', h').
Proof.
  induction ps as [|p ps IH]; intros t m h Hfit Hnd Hnew Hp Hm;
    [cbn in Hm; lia|].
  inversion Hfit as [|? ? Hfp Hfps]; subst.
  inversion Hnd as [|? ? Hnotin Hnd']; subst.
  rewrite pairs_wire_cons in *. cbn [length].
  destruct (Nat.lt_ge_cases m (length (pair_wire p))) as [Hcut|Hcut].
  - destruct (deserialize_loop_entry_truncated (length ps) alloc t p
                (pairs_wire ps) m h Hfp Hcut) as [c' Hrun].
    exists t, c', h. exact Hrun.
  - rewrite firstn_app, (firstn_all2 (pair_wire p)) by lia.
    destruct (deserialize_loop_fresh rehash (length ps) alloc t p
                (firstn (m - length (pair_wire p)) (pairs_wire ps)) h Hfp Hp)
      as (k & v & h1 & Hstep & Hkv & _ & Hp1).
    { apply Hnew. now left. }
    rewrite Hstep. apply IH; try assumption.
    + intros kb Hin Hin'. apply rehash_keys_In in Hin'; [|assumption].
      cbn [map In] in Hin'. destruct Hin' as [Hk|Hin'].
      * assert (Hfst : fst p = kb) by (rewrite <- Hkv; exact Hk).
        apply Hnotin. now rewrite Hfst.
      * apply (Hnew kb); [now right | assumption].
    + rewrite length_app in Hm. lia.
Qed.

(** Truncation.  Every proper, non-empty prefix of a well-formed encoding
    (a count, then that many entries with pairwise distinct keys) fails with
    ShortBuffer and leaves the mapping empty, wherever the cut falls: in the
    count, in a length field, inside a key or a value, or between two
    entries (no allocation failing). *)
Theorem deserialize_truncated (alloc : aws_allocator)
    (enc_ctx : aws_hash_table) (ps : list (list byte * list byte)) (m : nat)
    (h : heap) :
  ps <> [] -> Z.of_nat (length ps) <= UINT16_MAX ->
  Forall pair_fits ps -> NoDup (map fst ps) -> plan_ok h = true ->
  (0 < m < length (wire_format (Z.of_nat (length ps)) ps))%nat ->
  exists c' h',
    aws_cryptosdk_enc_ctx_deserialize rehash alloc enc_ctx
      (firstn m (wire_format (Z.of_nat (length ps)) ps)) h =
      (AWS_OP_ERR AWS_ERROR_SHORT_BUFFER, [], c', h').
Proof.
  intros Hne Hcount Hfit Hnd Hp [Hm0 Hm].
  unfold wire_format in *. rewrite length_app, be16_length in Hm.
  unfold aws_cryptosdk_enc_ctx_deserialize.
  pose proof (clear_plan_ok enc_ctx h Hp) as Hp0.
  destruct (aws_cryptosdk_enc_ctx_clear enc_ctx h) as [t0 h0] eqn:Hclear.
  assert (Ht0 : t0 = []) by (now inversion Hclear). subst t0.
  cbn [snd] in Hp0.
  assert (Hpos : 0 < Z.of_nat (length ps))
    by (destruct ps; [congruence | cbn [length]; lia]).
  rewrite firstn_app, be16_length.
  destruct (Nat.lt_ge_cases m 2) as [Hm2|Hm2].
  - assert (m = 1)%nat by lia. subst m. cbn [Nat.sub firstn app be16].
    cbn. eexists; eexists; reflexivity.
  - rewrite (firstn_all2 (be16 _)) by (rewrite be16_length; lia).
    destruct (Z.eqb_spec
                (Z.of_nat (length (be16 (Z.of_nat (length ps)) ++
                                   firstn (m - 2) (pairs_wire ps)))) 0)
      as [Hz|_]; [rewrite length_app, be16_length in Hz; lia|].
    rewrite read_be16_wire by lia.
    destruct (Z.eqb_spec (Z.of_nat (length ps)) 0); [lia|].
    rewrite Nat2Z.id.
    destruct (deserialize_loop_truncated alloc ps [] (m - 2) h0 Hfit Hnd)
      as (t' & c' & h' & ->); [intros kb _ [] | assumption | lia |].
    eexists; eexists; reflexivity.
Qed.

Lemma pairs_wire_count (ps : list (list byte * list byte)) :
  4 * Z.of_nat (length ps) <= Z.of_nat (length (pairs_wire ps)).
Proof.
  induction ps as [|p ps IH]; [cbn; lia|].
  rewrite pairs_wire_cons, length_app, Nat2Z.inj_add, pair_wire_length.
  cbn [length]. lia.
Qed.

Lemma pairs_wire_perm_length (ps1 ps2 : list (list byte * list byte)) :
  Permutation ps1 ps2 -> length (pairs_wire ps1) = length (pairs_wire ps2).
Proof.
  intros H. apply Permutation_length. unfold pairs_wire.
  now apply Permutation_flat_map.
Qed.

(** Decode, then encode.  A well-formed encoding whose entries come in
    byte-lexicographic order of their distinct keys, and which is at most
    65535 bytes long, is given back byte for byte: deserializing it (any
    bytes may follow) and serializing the resulting table into a buffer with
    room appends exactly the bytes that were consumed (no allocation
    failing). *)
Theorem deserialize_serialize_roundtrip (alloc alloc2 : aws_allocator)
    (enc_ctx : aws_hash_table) (ps : list (list byte * list byte))
    (extra : list byte) (output : aws_byte_buf) (h h2 : heap) :
  ps <> [] -> Forall pair_fits ps -> NoDup (map fst ps) ->
  StronglySorted pair_key_le ps ->
  Z.of_nat (length (wire_format (Z.of_nat (length ps)) ps)) <= UINT16_MAX ->
  buf_len output + Z.of_nat (length (wire_format (Z.of_nat (length ps)) ps))
    <= capacity output ->
  plan_ok h = true -> plan_ok h2 = true ->
  exists t' h' h2',
    aws_cryptosdk_enc_ctx_deserialize rehash alloc enc_ctx
      (wire_format (Z.of_nat (length ps)) ps ++ extra) h =
      (AWS_OP_SUCCESS tt, t', extra, h') /\
    aws_cryptosdk_enc_ctx_serialize alloc2 output t' h2 =
      (AWS_OP_SUCCESS tt,
       mk_buf (buffer output ++ wire_format (Z.of_nat (length ps)) ps)
              (capacity output),
       h2').
Proof.
  intros Hne Hfit Hnd Hsorted Hsize Hroom Hp Hp2.
  assert (Hwlen : Z.of_nat (length (wire_format (Z.of_nat (length ps)) ps)) =
                  2 + Z.of_nat (length (pairs_wire ps)))
    by (unfold wire_format; rewrite length_app, be16_length; lia).
  rewrite Hwlen in *.
  pose proof (pairs_wire_count ps) as Hcnt.
  destruct (deserialize_wire rehash rehash_perm alloc enc_ctx ps extra h)
    as (t' & h' & Hrun & Hperm & _); try assumption;
    [unfold UINT16_MAX in *; lia|].
  destruct (acquire_ok h2 Hp2) as (h3 & Hacq & _ & _).
  assert (Hlen : length t' = length ps)
    by (rewrite <- (Permutation_length Hperm); now rewrite length_map).
  assert (Hcost : total_cost t' = Z.of_nat (length (pairs_wire ps)))
    by (rewrite <- pairs_wire_length; f_equal;
        now apply pairs_wire_perm_length).
  assert (Hcanon : canonical_bytes t' = wire_format (Z.of_nat (length ps)) ps).
  { unfold canonical_bytes, aws_hash_table_get_entry_count. rewrite Hlen.
    f_equal. apply sorted_pairs_unique.
    - rewrite (Permutation_map pair_bytes (sort_perm t')). exact Hperm.
    - rewrite map_fst_pair_bytes.
      apply (Permutation_NoDup (Permutation_sym
               (Permutation_map key_bytes (sort_perm t')))).
      rewrite <- map_fst_pair_bytes.
      apply (Permutation_NoDup (Permutation_sym (Permutation_map fst Hperm))).
      exact Hnd.
    - apply sorted_pairs_of_elems, sort_sorted.
    - exact Hsorted. }
  exists t', h', (aws_mem_release (next_ptr h2) h3).
  split; [exact Hrun|].
  rewrite <- Hcanon.
  apply (serialize_fits alloc2 output t' h2 h3 (next_ptr h2)).
  - intros ->. destruct ps; [congruence | discriminate Hlen].
  - rewrite Hcost. exact Hsize.
  - rewrite Hcost. exact Hroom.
  - exact Hacq.
Qed.

(** *** What the deserializer releases *)

Lemma destroy_released_incl (s : option aws_string) (h : heap) :
  incl (released h) (released (aws_string_destroy s h)).
Proof.
  unfold aws_string_destroy, aws_mem_release.
  destruct s as [str|]; [destruct (allocator str)|];
    cbn [released]; auto using incl_refl, incl_tl.
Qed.

Lemma destroy_elem_released (e : aws_hash_element) (h : heap) :
  incl (released h) (released (destroy_elem e h)) /\
  (allocator (key e) <> None ->
   In (str_ptr (key e)) (released (destroy_elem e h))) /\
  (allocator (value e) <> None ->
   In (str_ptr (value e)) (released (destroy_elem e h))).
Proof.
  unfold destroy_elem, aws_string_destroy, aws_mem_release.
  destruct (allocator (key e)), (allocator (value e)); cbn [released];
    repeat split; try congruence; intros;
    auto using incl_refl, incl_tl, in_eq, in_cons.
Qed.

Lemma clear_released (t : aws_hash_table) (h : heap) :
  incl (released h) (released (snd (aws_cryptosdk_enc_ctx_clear t h))) /\
  forall e, In e t ->
    (allocator (key e) <> None ->
     In (str_ptr (key e)) (released (snd (aws_cryptosdk_enc_ctx_clear t h)))) /\
    (allocator (value e) <> None ->
     In (str_ptr (value e)) (released (snd (aws_cryptosdk_enc_ctx_clear t h)))).
Proof.
  unfold aws_cryptosdk_enc_ctx_clear, aws_hash_table_clear. cbn [snd].
  revert h; induction t as [|x t IH]; intros h; cbn [fold_left].
  - split; [apply incl_refl | intros e []].
  - destruct (IH (destroy_elem x h)) as [Hincl Hall].
    destruct (destroy_elem_released x h) as (Hi & Hk & Hv).
    split; [eapply incl_tran; eauto|].
    intros e [<-|He]; [|now apply Hall].
    split; intros Ha; apply Hincl; auto.
Qed.

Lemma acquire_released (h h' : heap) (o : option N) :
  aws_mem_acquire h = (o, h') -> released h' = released h.
Proof.
  unfold aws_mem_acquire.
  destruct (plan h) as [|[|] p]; intros H; inversion H; reflexivity.
Qed.

Lemma string_new_released (alloc : aws_allocator) (bs : list byte)
    (h h' : heap) (o : option aws_string) :
  aws_string_new_from_array alloc bs h = (o, h') -> released h' = released h.
Proof.
  unfold aws_string_new_from_array.
  destruct (aws_mem_acquire h) as [[p|] h1] eqn:Hacq;
    intros H; inversion H; subst; eapply acquire_released; eauto.
Qed.

Lemma overwrite_released_incl (k v : aws_string) (t t' : aws_hash_table)
    (h h' : heap) :
  overwrite_elem k v t h = (t', h') -> incl (released h) (released h').
Proof.
  revert t' h'; induction t as [|e t IH]; intros t' h' Hov;
    cbn [overwrite_elem] in Hov.
  - inversion Hov. apply incl_refl.
  - destruct (aws_string_eq (key e) k).
    + injection Hov as _ <-. unfold aws_mem_release.
      destruct (allocator (value e)), (N.eqb _ _), (allocator (key e));
        cbn [released]; auto using incl_refl, incl_tl.
    + destruct (overwrite_elem k v t h) as [t2 h2].
      injection Hov as _ <-. now apply (IH t2).
Qed.

Lemma put_released_incl (t t' : aws_hash_table) (k v : aws_string)
    (h h' : heap) (r : option bool) :
  aws_hash_table_put rehash t k v h = (r, t', h') ->
  incl (released h) (released h').
Proof.
  unfold aws_hash_table_put. destruct (aws_hash_table_find t k).
  - destruct (overwrite_elem k v t h) as [t2 h2] eqn:Hov.
    intros H; inversion H; subst. eapply overwrite_released_incl; eauto.
  - destruct (aws_mem_acquire h) as [[p|] h1] eqn:Hacq;
      intros H; inversion H; subst;
      rewrite (acquire_released _ _ _ Hacq); apply incl_refl.
Qed.

Lemma deserialize_loop_released_incl (n : nat) (alloc : aws_allocator) :
  forall (t : aws_hash_table) (c : aws_byte_cursor) (h : heap)
         (x : parse_exit) (t' : aws_hash_table) (c' : aws_byte_cursor) (h' : heap),
  deserialize_loop rehash n alloc t c h = (x, t', c', h') ->
  incl (released h) (released h').
Proof.
  induction n as [|n IH]; intros t c h x t' c' h' Hrun;
    cbn [deserialize_loop] in Hrun.
  - inversion Hrun; subst. apply incl_refl.
  - destruct (aws_byte_cursor_read_be16 c) as [[klen|] c1];
      [|inversion Hrun; subst; apply incl_refl].
    destruct (aws_byte_cursor_advance_nospec c1 klen) as [[kc|] c2];
      [|inversion Hrun; subst; apply incl_refl].
    destruct (aws_byte_cursor_read_be16 c2) as [[vlen|] c3];
      [|inversion Hrun; subst; apply incl_refl].
    destruct (aws_byte_cursor_advance_nospec c3 vlen) as [[vc|] c4];
      [|inversion Hrun; subst; apply incl_refl].
    destruct (aws_string_new_from_array alloc kc h) as [k h1] eqn:Hk.
    destruct (aws_string_new_from_array alloc vc h1) as [v h2] eqn:Hv.
    apply string_new_released in Hk. apply string_new_released in Hv.
    assert (H02 : incl (released h) (released h2))
      by (rewrite Hv, Hk; apply incl_refl).
    assert (Hfail : incl (released h)
              (released (aws_string_destroy v (aws_string_destroy k h2))))
      by (eapply incl_tran; [exact H02|];
          eapply incl_tran; apply destroy_released_incl).
    destruct k as [k|]; [destruct v as [v|]|];
      try (inversion Hrun; subst; exact Hfail).
    destruct (aws_hash_table_put rehash t k v h2) as [[r t2] h3] eqn:Hput.
    apply put_released_incl in Hput.
    destruct r as [[|]|].
    + apply IH in Hrun.
      exact (incl_tran H02 (incl_tran Hput Hrun)).
    + inversion Hrun; subst. exact (incl_tran H02 Hput).
    + inversion Hrun; subst.
      exact (incl_tran H02
               (incl_tran Hput
                  (incl_tran (destroy_released_incl (Some k) h3)
                     (destroy_released_incl (Some v)
                        (aws_string_destroy (Some k) h3))))).
Qed.

(** The previous contents are always destroyed.  Whatever the cursor holds
    and however the deserialization ends, every allocator-owned key and
    value that the mapping held on entry has been released, and nothing that
    had been released before is forgotten. *)
Theorem deserialize_releases_previous (alloc : aws_allocator)
    (enc_ctx : aws_hash_table) (cursor : aws_byte_cursor) (h : heap)
    (r : aws_result unit) (t' : aws_hash_table) (c' : aws_byte_cursor)
    (h' : heap) :
  aws_cryptosdk_enc_ctx_deserialize rehash alloc enc_ctx cursor h =
    (r, t', c', h') ->
  incl (released h) (released h') /\
  forall e, In e enc_ctx ->
    (allocator (key e) <> None -> In (str_ptr (key e)) (released h')) /\
    (allocator (value e) <> None -> In (str_ptr (value e)) (released h')).
Proof.
  intros Hrun.
  assert (Hgrow : incl (released (snd (aws_cryptosdk_enc_ctx_clear enc_ctx h)))
                    (released h')).
  { revert Hrun.
    unfold aws_cryptosdk_enc_ctx_deserialize.
    destruct (aws_cryptosdk_enc_ctx_clear enc_ctx h) as [t0 h0] eqn:Hclear.
    assert (Ht0 : t0 = []) by (now inversion Hclear). subst t0. cbn [snd].
    destruct (Z.of_nat (length cursor) =? 0);
      [intros H; inversion H; apply incl_refl|].
    destruct (aws_byte_cursor_read_be16 cursor) as [[elem_count|] c];
      [|intros H; inversion H; apply incl_refl].
    destruct (elem_count =? 0); [intros H; inversion H; apply incl_refl|].
    destruct (deserialize_loop rehash _ alloc [] c h0) as [[[x t] c1] h1] eqn:Hloop.
    apply deserialize_loop_released_incl in Hloop.
    pose proof (proj1 (clear_released t h1)) as Hc.
    destruct x; intros H; inversion H; subst;
      try assumption; eapply incl_tran; eauto. }
  destruct (clear_released enc_ctx h) as [Hincl Hall].
  split; [eapply incl_tran; eauto|].
  intros e He. destruct (Hall e He) as [Hk Hv].
  split; intros Ha; apply Hgrow; auto.
Qed.

Lemma size_loop_exceeds (l : list aws_hash_element) (acc : Z) :
  Forall fits_u16 l -> 0 <= acc <= UINT16_MAX ->
  UINT16_MAX < acc + total_cost l ->
  enc_ctx_size_loop acc l = AWS_OP_ERR AWS_CRYPTOSDK_ERR_LIMIT_EXCEEDED.
Proof.
  revert acc; induction l as [|e l IH]; intros acc Hfit Hacc Hover.
  - cbn in Hover. lia.
  - inversion Hfit as [|? ? [Hk Hv] Hfit']; subst.
    change (total_cost (e :: l)) with (elem_cost e + total_cost l) in Hover.
    cbn [enc_ctx_size_loop]. rewrite size_step by lia.
    pose proof (elem_cost_pos e) as Hpos.
    assert (Hsmall : acc + elem_cost e <= SIZE_MAX)
      by (unfold elem_cost, UINT16_MAX, SIZE_MAX in *; lia).
    destruct (Z.leb_spec (acc + elem_cost e) SIZE_MAX); [|lia].
    destruct (Z.gtb_spec (acc + elem_cost e) UINT16_MAX); [reflexivity|].
    apply IH; [assumption | lia | lia].
Qed.

(** The deserializer accepts more than the serializer writes.  The bytes a
    successful deserialization consumes may number more than 65535; the
    table it then yields is one the size calculator and the serializer
    refuse with LimitExceeded, so it cannot be encoded again. *)
Theorem deserialize_oversize_not_reencodable (alloc alloc2 : aws_allocator)
    (enc_ctx : aws_hash_table) (consumed c' : list byte) (h : heap)
    (t' : aws_hash_table) (h' : heap) (output : aws_byte_buf) (h2 : heap) :
  aws_cryptosdk_enc_ctx_deserialize rehash alloc enc_ctx (consumed ++ c') h =
    (AWS_OP_SUCCESS tt, t', c', h') ->
  UINT16_MAX < Z.of_nat (length consumed) ->
  aws_cryptosdk_enc_ctx_size t' = AWS_OP_ERR AWS_CRYPTOSDK_ERR_LIMIT_EXCEEDED /\
  aws_cryptosdk_enc_ctx_serialize alloc2 output t' h2 =
    (AWS_OP_ERR AWS_CRYPTOSDK_ERR_LIMIT_EXCEEDED, output, h2).
Proof.
  intros Hrun Hlong.
  assert (Hsize : aws_cryptosdk_enc_ctx_size t' =
                    AWS_OP_ERR AWS_CRYPTOSDK_ERR_LIMIT_EXCEEDED).
  { apply deserialize_success_loop in Hrun as (n & c & h0 & Hcur & Hn & Hloop).
    2:{ intros Hnil. apply (f_equal (@length _)) in Hnil.
        rewrite length_app in Hnil. cbn [length] in Hnil.
        unfold UINT16_MAX in Hlong. lia. }
    apply deserialize_loop_sound in Hloop as (ps & Hcnt & -> & Hfit & Hperm & _);
      [|constructor].
    rewrite app_nil_r in Hperm.
    rewrite app_assoc in Hcur. apply app_inv_tail in Hcur. subst consumed.
    rewrite length_app, be16_length in Hlong.
    assert (Hne : ps <> []) by (intros ->; cbn [length] in Hcnt; lia).
    assert (Hcount : Z.of_nat (length ps) <= UINT16_MAX) by lia.
    - assert (Hlen : length t' = length ps)
        by (rewrite <- (Permutation_length Hperm); now rewrite length_map).
      assert (Hcost : total_cost t' = Z.of_nat (length (pairs_wire ps)))
        by (rewrite <- pairs_wire_length; f_equal;
            now apply pairs_wire_perm_length).
      assert (Hfits : Forall fits_u16 t').
      { rewrite Forall_forall. intros e He.
        assert (Hin : In (pair_bytes e) ps)
          by (apply (Permutation_in _ Hperm); now apply in_map).
        rewrite Forall_forall in Hfit. exact (Hfit _ Hin). }
      rewrite size_nonempty.
      + apply size_loop_exceeds; [assumption | unfold UINT16_MAX; lia | lia].
      + unfold aws_hash_table_get_entry_count. rewrite Hlen.
        destruct ps; [congruence | cbn [length] in *; lia]. }
  split; [assumption|].
  unfold aws_cryptosdk_enc_ctx_serialize.
  destruct (aws_hash_table_get_entry_count t' >? UINT16_MAX); [reflexivity|].
  now rewrite Hsize.
Qed.

End DeserializerFurther.

Lemma deserialize_accepts_only_wire_witness :
  ([x00; x01; x00; x01; x6b; x00; x00; xaa] = [] /\
   [mk_elem (mk_aws_string 100 (Some 9%N) [x6b]) (mk_aws_string 101 (Some 9%N) [])]
     = [] /\ [xaa] = []) \/
  (exists ps,
     ps <> [] /\ Z.of_nat (length ps) <= UINT16_MAX /\
     [x00; x01; x00; x01; x6b; x00; x00; xaa] =
       wire_format (Z.of_nat (length ps)) ps ++ [xaa] /\
     Forall pair_fits ps /\ NoDup (map fst ps) /\
     Permutation
       (map pair_bytes
          [mk_elem (mk_aws_string 100 (Some 9%N) [x6b])
                   (mk_aws_string 101 (Some 9%N) [])]) ps /\
     aws_hash_table_is_valid
       [mk_elem (mk_aws_string 100 (Some 9%N) [x6b])
                (mk_aws_string 101 (Some 9%N) [])] = true).
Proof.
  apply (deserialize_accepts_only_wire reversing_rehash reversing_rehash_perm
           9%N sample_dest [x00; x01; x00; x01; x6b; x00; x00; xaa] heap0
           _ _ (mk_heap 103 [] [13%N; 12%N; 11%N; 10%N])).
  reflexivity.
Defined.

Lemma deserialize_truncated_witness :
  exists c' h',
    aws_cryptosdk_enc_ctx_deserialize reversing_rehash 9%N sample_dest
      (firstn 11 (wire_format (Z.of_nat (length sample_pairs)) sample_pairs))
      heap0 =
      (AWS_OP_ERR AWS_ERROR_SHORT_BUFFER, [], c', h').
Proof.
  apply (deserialize_truncated reversing_rehash reversing_rehash_perm 9%N
           sample_dest sample_pairs 11 heap0).
  - discriminate.
  - vm_compute. discriminate.
  - repeat constructor; vm_compute; discriminate.
  - repeat constructor; simpl; intuition discriminate.
  - reflexivity.
  - vm_compute. split; lia.
Defined.

Lemma deserialize_serialize_roundtrip_witness :
  exists t' h' h2',
    aws_cryptosdk_enc_ctx_deserialize reversing_rehash 9%N sample_dest
      (wire_format (Z.of_nat (length sample_pairs)) sample_pairs ++ [xaa; xbb])
      heap0 = (AWS_OP_SUCCESS tt, t', [xaa; xbb], h') /\
    aws_cryptosdk_enc_ctx_serialize 7%N sample_output t' heap0 =
      (AWS_OP_SUCCESS tt,
       mk_buf (buffer sample_output ++
               wire_format (Z.of_nat (length sample_pairs)) sample_pairs)
              (capacity sample_output),
       h2').
Proof.
  apply (deserialize_serialize_roundtrip reversing_rehash reversing_rehash_perm
           9%N 7%N sample_dest sample_pairs [xaa; xbb] sample_output heap0 heap0).
  - discriminate.
  - repeat constructor; vm_compute; discriminate.
  - repeat constructor; simpl; intuition discriminate.
  - repeat constructor; vm_compute; discriminate.
  - vm_compute. discriminate.
  - vm_compute. discriminate.
  - reflexivity.
  - reflexivity.
Defined.

Lemma deserialize_releases_previous_witness :
  incl (released heap0) (released (mk_heap 100 [] [13%N; 12%N; 11%N; 10%N])) /\
  forall e, In e sample_dest ->
    (allocator (key e) <> None ->
     In (str_ptr (key e)) (released (mk_heap 100 [] [13%N; 12%N; 11%N; 10%N]))) /\
    (allocator (value e) <> None ->
     In (str_ptr (value e)) (released (mk_heap 100 [] [13%N; 12%N; 11%N; 10%N]))).
Proof.
  apply (deserialize_releases_previous reversing_rehash 9%N sample_dest
           [x00] heap0 (AWS_OP_ERR AWS_ERROR_SHORT_BUFFER) [] [x00]).
  reflexivity.
Defined.

(** * Further properties of the clone engine *)

Section CloneFurther.

Variable rehash : aws_hash_table -> aws_hash_table.
Hypothesis rehash_perm : forall t, Permutation (rehash t) t.

(** The first loop deletes nothing when every key it visits is a key of
    the source. *)
Lemma clone_prune_keep (src : aws_hash_table) :
  forall (iter dest : aws_hash_table) (h : heap),
  (forall e, In e iter -> In (key_bytes e) (map key_bytes src)) ->
  clone_prune rehash iter dest src h = (dest, h).
Proof.
  induction iter as [|e iter IH]; intros dest h Hin; [reflexivity|].
  cbn [clone_prune].
  destruct (aws_hash_table_find src (key e)) as [s|] eqn:Hf.
  - apply IH. intros x Hx. apply Hin. now right.
  - apply table_find_none in Hf. exfalso. apply Hf. apply (Hin e). now left.
Qed.

(** The second loop changes nothing when the destination already holds, for
    every element it visits, an element with the same key and value bytes. *)
Lemma clone_reconcile_keep (alloc : aws_allocator) (dest : aws_hash_table) :
  NoDup (map key_bytes dest) ->
  forall (iter : aws_hash_table) (h : heap),
  (forall e, In e iter -> exists d, In d dest /\ pair_bytes d = pair_bytes e) ->
  clone_reconcile rehash iter alloc dest h = (AWS_OP_SUCCESS tt, dest, h).
Proof.
  intros Hnd. induction iter as [|e iter IH]; intros h Hall; [reflexivity|].
  cbn [clone_reconcile].
  destruct (Hall e (or_introl eq_refl)) as (d & Hd & Hp).
  unfold pair_bytes in Hp. injection Hp as Hk Hv.
  rewrite (table_find_in dest (key e) d Hnd Hd Hk).
  unfold aws_string_eq. rewrite Hv, bytes_eqb_refl. cbn [negb].
  apply IH. intros x Hx. apply Hall. now right.
Qed.

(** Two tables with the same pairs: every element of the one has an element
    of the same key and value bytes in the other, and its key is a key of
    the other. *)
Lemma same_pairs_covered (dest src : aws_hash_table) :
  Permutation (map pair_bytes dest) (map pair_bytes src) ->
  (forall e, In e src -> exists d, In d dest /\ pair_bytes d = pair_bytes e) /\
  (forall e, In e dest -> In (key_bytes e) (map key_bytes src)).
Proof.
  intros Hperm. split; intros e He.
  - assert (Hin : In (pair_bytes e) (map pair_bytes dest))
      by (apply (Permutation_in _ (Permutation_sym Hperm)); now apply in_map).
    apply in_map_iff in Hin as (d & Hd & Hin). now exists d.
  - rewrite <- map_fst_pair_bytes.
    apply (Permutation_in _ (Permutation_map fst Hperm)).
    rewrite map_fst_pair_bytes. now apply in_map.
Qed.

(** Nothing to do.  When the destination already holds the same key-value
    pairs as the source, the clone succeeds and changes nothing: the
    destination keeps its own string objects, no memory is allocated or
    released, and the call cannot fail, whatever the allocator would do. *)
Theorem clone_equal_is_noop (alloc : aws_allocator)
    (dest src : aws_hash_table) (h : heap) :
  aws_hash_table_is_valid dest = true ->
  Permutation (map pair_bytes dest) (map pair_bytes src) ->
  aws_cryptosdk_enc_ctx_clone rehash alloc dest src h =
    (AWS_OP_SUCCESS tt, dest, h).
Proof.
  intros Hv Hperm. apply nodup_bytes_NoDup in Hv.
  destruct (same_pairs_covered dest src Hperm) as [Hsrc Hdest].
  unfold aws_cryptosdk_enc_ctx_clone.
  rewrite (clone_prune_keep src dest dest h Hdest).
  now apply clone_reconcile_keep.
Qed.

(** The pairs of the destination after a successful clone are the pairs of
    the source. *)
Lemma clone_success_pairs (alloc : aws_allocator) (dest src : aws_hash_table)
    (h : heap) (dest' : aws_hash_table) (h' : heap) :
  NoDup (map key_bytes dest) -> NoDup (map key_bytes src) ->
  aws_cryptosdk_enc_ctx_clone rehash alloc dest src h =
    (AWS_OP_SUCCESS tt, dest', h') ->
  NoDup (map key_bytes dest') /\
  Permutation (map pair_bytes dest') (map pair_bytes src).
Proof.
  intros Hvd Hvs Hrun.
  unfold aws_cryptosdk_enc_ctx_clone in Hrun.
  destruct (clone_prune rehash dest dest src h) as [d1 h1] eqn:Hprune.
  apply (clone_prune_spec rehash rehash_perm) in Hprune
    as (Hsub & Hnd1 & Hin1 & _).
  specialize (Hnd1 Hvd).
  apply (clone_reconcile_spec rehash rehash_perm) in Hrun
    as (Hnd' & Hkeys & Hel); [|assumption].
  assert (Hkeyset : forall kb,
            In kb (map key_bytes dest') <-> In kb (map key_bytes src)).
  { intros kb. rewrite Hkeys. split; [|tauto].
    intros [Hk|Hk]; [|assumption].
    apply in_map_iff in Hk as (x & <- & Hx).
    apply Hin1; [assumption|]. now apply in_map, Hsub. }
  assert (Hmatch : forall x, In x dest' ->
            exists s, In s src /\ pair_bytes s = pair_bytes x).
  { intros x Hx. destruct (Hel x Hx) as [Hs|[Hnot _]]; [assumption|].
    exfalso. apply Hnot, Hkeyset. now apply in_map. }
  split; [assumption|].
  apply NoDup_Permutation.
  - apply (NoDup_map_inv fst). now rewrite map_fst_pair_bytes.
  - apply (NoDup_map_inv fst). now rewrite map_fst_pair_bytes.
  - intros p. split; intros Hp.
    + apply in_map_iff in Hp as (x & <- & Hx).
      destruct (Hmatch x Hx) as (s & Hs & <-). now apply in_map.
    + apply in_map_iff in Hp as (s & <- & Hs).
      assert (Hk : In (key_bytes s) (map key_bytes dest'))
        by (apply Hkeyset; now apply in_map).
      apply in_map_iff in Hk as (x & Hxk & Hx).
      destruct (Hmatch x Hx) as (s' & Hs' & Hp').
      assert (Heq : s' = s).
      { apply (unique_by_key src); auto.
        unfold pair_bytes in Hp'. injection Hp' as Hk' _.
        unfold key_bytes in *. congruence. }
      subst s'. rewrite Hp'. now apply in_map.
Qed.

(** Idempotence.  After a successful clone, cloning the same source again
    into the result succeeds and changes nothing: the destination keeps the
    same string objects and the heap is untouched, with any allocator and
    any allocation plan. *)
Theorem clone_idempotent (alloc alloc2 : aws_allocator)
    (dest src : aws_hash_table) (h h2 : heap)
    (dest' : aws_hash_table) (h' : heap) :
  aws_hash_table_is_valid dest = true ->
  aws_hash_table_is_valid src = true ->
  aws_cryptosdk_enc_ctx_clone rehash alloc dest src h =
    (AWS_OP_SUCCESS tt, dest', h') ->
  aws_cryptosdk_enc_ctx_clone rehash alloc2 dest' src h2 =
    (AWS_OP_SUCCESS tt, dest', h2).
Proof.
  intros Hvd Hvs Hrun.
  apply nodup_bytes_NoDup in Hvd. apply nodup_bytes_NoDup in Hvs.
  apply clone_success_pairs in Hrun as [Hnd Hperm]; try assumption.
  destruct (same_pairs_covered dest' src Hperm) as [Hsrc Hdest].
  unfold aws_cryptosdk_enc_ctx_clone.
  rewrite (clone_prune_keep src dest' dest' h2 Hdest).
  now apply clone_reconcile_keep.
Qed.

(** *** Failure of a clone *)

Lemma destroy_plan (s : option aws_string) (h : heap) :
  plan (aws_string_destroy s h) = plan h.
Proof.
  unfold aws_string_destroy, aws_mem_release.
  destruct s as [str|]; [destruct (allocator str)|]; reflexivity.
Qed.

Lemma clone_prune_plan (src : aws_hash_table) :
  forall (iter dest : aws_hash_table) (h : heap) (d1 : aws_hash_table) (h1 : heap),
  clone_prune rehash iter dest src h = (d1, h1) -> plan h1 = plan h.
Proof.
  induction iter as [|e iter IH]; intros dest h d1 h1 Hrun;
    cbn [clone_prune] in Hrun.
  - now inversion Hrun.
  - destruct (aws_hash_table_find src (key e)); [now apply IH in Hrun|].
    unfold aws_hash_iter_delete in Hrun. apply IH in Hrun. rewrite Hrun.
    unfold destroy_elem. now rewrite !destroy_plan.
Qed.

Lemma clone_or_reuse_ok (alloc : aws_allocator) (str : aws_string) (h : heap) :
  plan_ok h = true ->
  exists r h', clone_or_reuse_string alloc str h = (Some r, h') /\
               plan_ok h' = true.
Proof.
  intros Hp. unfold clone_or_reuse_string. destruct (allocator str).
  - destruct (string_new_ok alloc (bytes str) h Hp) as (h' & -> & Hp' & _).
    eauto.
  - eauto.
Qed.

Lemma clone_reconcile_ok (alloc : aws_allocator) :
  forall (iter dest : aws_hash_table) (h : heap),
  plan_ok h = true ->
  exists d' h', clone_reconcile rehash iter alloc dest h =
                  (AWS_OP_SUCCESS tt, d', h').
Proof.
  induction iter as [|e iter IH]; intros dest h Hp; cbn [clone_reconcile];
    [eauto|].
  destruct (aws_hash_table_find dest (key e)) as [de|] eqn:Hf.
  - destruct (negb (aws_string_eq (value de) (value e))); [|now apply IH].
    destruct (clone_or_reuse_ok alloc (value e) h Hp) as (v & h1 & -> & Hp1).
    apply IH. unfold plan_ok in *. now rewrite destroy_plan.
  - destruct (clone_or_reuse_ok alloc (key e) h Hp) as (k & h1 & Hck & Hp1).
    destruct (clone_or_reuse_ok alloc (value e) h1 Hp1) as (v & h2 & Hcv & Hp2).
    rewrite Hck, Hcv.
    assert (Hfk : aws_hash_table_find dest k = None).
    { rewrite (table_find_congr dest k (key e)); [assumption|].
      eapply clone_or_reuse_bytes; eauto. }
    destruct (put_new rehash dest k v h2 Hfk Hp2) as (h3 & -> & Hp3).
    now apply IH.
Qed.

(** A clone fails only for lack of memory: when no allocation fails it
    succeeds, whatever the two tables hold, and the error it reports
    otherwise is the allocator's. *)
Theorem clone_fails_only_without_memory (alloc : aws_allocator)
    (dest src : aws_hash_table) (h : heap) :
  (plan_ok h = true ->
   exists dest' h',
     aws_cryptosdk_enc_ctx_clone rehash alloc dest src h =
       (AWS_OP_SUCCESS tt, dest', h')) /\
  (forall e dest' h',
     aws_cryptosdk_enc_ctx_clone rehash alloc dest src h =
       (AWS_OP_ERR e, dest', h') ->
     e = AWS_ERROR_OOM /\ plan_ok h = false).
Proof.
  unfold aws_cryptosdk_enc_ctx_clone.
  destruct (clone_prune rehash dest dest src h) as [d1 h1] eqn:Hprune.
  apply clone_prune_plan in Hprune.
  assert (Hok : plan_ok h = true ->
            exists dest' h',
              clone_reconcile rehash src alloc d1 h1 =
                (AWS_OP_SUCCESS tt, dest', h')).
  { intros Hp. apply clone_reconcile_ok. unfold plan_ok in *. now rewrite Hprune. }
  split; [exact Hok|].
  intros e dest' h' Hrun. split.
  - clear Hok Hprune. revert d1 h1 Hrun.
    induction src as [|s src' IH]; intros d1 h1 Hrun;
      cbn [clone_reconcile] in Hrun; [discriminate|].
    destruct (aws_hash_table_find d1 (key s)) as [de|].
    + destruct (negb (aws_string_eq (value de) (value s)));
        [|now apply IH in Hrun].
      destruct (clone_or_reuse_string alloc (value s) h1) as [[v|] h2];
        [now apply IH in Hrun | now inversion Hrun].
    + destruct (clone_or_reuse_string alloc (key s) h1) as [k h2].
      destruct (clone_or_reuse_string alloc (value s) h2) as [v h3].
      destruct k as [k|]; [destruct v as [v|]|]; try (now inversion Hrun).
      destruct (aws_hash_table_put rehash d1 k v h3) as [[[b|] d] h4];
        [now apply IH in Hrun | now inversion Hrun].
  - destruct (plan_ok h) eqn:Hp; [|reflexivity].
    destruct (Hok eq_refl) as (d & hh & Hsucc). congruence.
Qed.

(** However the second loop ends, the destination keeps unique keys, and
    each of its elements agrees with a visited element on key and value
    bytes or is an element the destination held before. *)
Lemma clone_reconcile_partial (alloc : aws_allocator) :
  forall (iter dest : aws_hash_table) (h : heap) (r : aws_result unit)
         (d' : aws_hash_table) (h' : heap),
  NoDup (map key_bytes dest) ->
  clone_reconcile rehash iter alloc dest h = (r, d', h') ->
  NoDup (map key_bytes d') /\
  (forall x, In x d' ->
     (exists s, In s iter /\ pair_bytes s = pair_bytes x) \/ In x dest).
Proof.
  induction iter as [|e iter IH]; intros dest h r d' h' Hnd Hrun;
    cbn [clone_reconcile] in Hrun.
  - inversion Hrun; subst. auto.
  - assert (Hlift : forall t,
              (forall x, In x d' ->
                 (exists s, In s iter /\ pair_bytes s = pair_bytes x) \/ In x t) ->
              (forall x, In x t -> pair_bytes e = pair_bytes x \/ In x dest) ->
              forall x, In x d' ->
                (exists s, In s (e :: iter) /\ pair_bytes s = pair_bytes x) \/
                In x dest).
    { intros t H1 H2 x Hx. destruct (H1 x Hx) as [(s & Hs & Hp)|Hxt].
      - left. exists s. split; [now right | assumption].
      - destruct (H2 x Hxt) as [Hp|Hxd]; [|now right].
        left. exists e. split; [now left | assumption]. }
    destruct (aws_hash_table_find dest (key e)) as [de|] eqn:Hf.
    + destruct (negb (aws_string_eq (value de) (value e))).
      * destruct (clone_or_reuse_string alloc (value e) h) as [[v|] h1] eqn:Hc;
          [|inversion Hrun; subst; auto].
        pose proof (clone_or_reuse_bytes _ _ _ _ _ Hc) as Hvb.
        apply IH in Hrun as [Hnd' Hel];
          [|now rewrite set_elem_value_keys].
        split; [assumption|].
        apply (Hlift _ Hel). intros x Hx.
        apply set_elem_value_In in Hx as [Hx|(d & Hd & Hdk & ->)];
          [now right|].
        left. unfold pair_bytes, key_bytes in *. cbn [key value].
        now rewrite Hdk, Hvb.
      * apply IH in Hrun as [Hnd' Hel]; [|assumption].
        split; [assumption|]. apply (Hlift _ Hel). auto.
    + destruct (clone_or_reuse_string alloc (key e) h) as [k h1] eqn:Hck.
      destruct (clone_or_reuse_string alloc (value e) h1) as [v h2] eqn:Hcv.
      destruct k as [k|]; [destruct v as [v|]|];
        try (inversion Hrun; subst; auto).
      pose proof (clone_or_reuse_bytes _ _ _ _ _ Hck) as Hkb.
      pose proof (clone_or_reuse_bytes _ _ _ _ _ Hcv) as Hvb.
      assert (Hfk : aws_hash_table_find dest k = None)
        by (now rewrite (table_find_congr dest k (key e))).
      unfold aws_hash_table_put in Hrun. rewrite Hfk in Hrun.
      destruct (aws_mem_acquire h2) as [[p|] h3];
        [|inversion Hrun; subst; auto].
      apply IH in Hrun as [Hnd' Hel].
      2:{ apply (rehash_keys_NoDup rehash rehash_perm). cbn [map].
          constructor; [|assumption].
          unfold key_bytes at 1; cbn [key]. now apply table_find_none. }
      split; [assumption|].
      apply (Hlift _ Hel). intros x Hx.
      apply (proj1 (rehash_In rehash rehash_perm _ _)) in Hx.
      cbn [In] in Hx. destruct Hx as [<-|Hx]; [|now right].
      left. unfold pair_bytes. cbn [key value]. now rewrite Hkb, Hvb.
Qed.

(** What a clone leaves behind, also when it fails.  Whatever the outcome,
    the destination is a valid table again, it holds no key that the source
    lacks, and each of its entries either carries the source's value for its
    key or is an entry it held before the call, not yet brought up to date:
    a failed clone leaves no entry with a value that neither table had. *)
Theorem clone_partial_update (alloc : aws_allocator)
    (dest src : aws_hash_table) (h : heap) (r : aws_result unit)
    (dest' : aws_hash_table) (h' : heap) :
  aws_hash_table_is_valid dest = true ->
  aws_cryptosdk_enc_ctx_clone rehash alloc dest src h = (r, dest', h') ->
  aws_hash_table_is_valid dest' = true /\
  forall x, In x dest' ->
    In (key_bytes x) (map key_bytes src) /\
    ((exists s, In s src /\ pair_bytes s = pair_bytes x) \/ In x dest).
Proof.
  intros Hvd Hrun. apply nodup_bytes_NoDup in Hvd.
  unfold aws_cryptosdk_enc_ctx_clone in Hrun.
  destruct (clone_prune rehash dest dest src h) as [d1 h1] eqn:Hprune.
  apply (clone_prune_spec rehash rehash_perm) in Hprune
    as (Hsub & Hnd1 & Hin1 & _).
  apply clone_reconcile_partial in Hrun as [Hnd' Hel]; [|now apply Hnd1].
  split; [now apply nodup_bytes_NoDup|].
  intros x Hx. destruct (Hel x Hx) as [(s & Hs & Hp)|Hx1].
  - split; [|left; now exists s].
    unfold pair_bytes in Hp. injection Hp as Hk _.
    unfold key_bytes. rewrite <- Hk. change (bytes (key s)) with (key_bytes s).
    now apply in_map.
  - split; [|right; now apply Hsub].
    apply Hin1; [assumption|]. now apply in_map, Hsub.
Qed.

(** Copy into a new context.  With no allocation failing, initialising a
    context and cloning a valid source into it succeeds, and the new context
    holds exactly the source's key-value pairs. *)
Theorem init_then_clone_copies (alloc : aws_allocator) (src : aws_hash_table)
    (h : heap) :
  aws_hash_table_is_valid src = true -> plan_ok h = true ->
  exists enc_ctx h1 dest' h',
    aws_cryptosdk_enc_ctx_init alloc h = (AWS_OP_SUCCESS enc_ctx, h1) /\
    aws_cryptosdk_enc_ctx_clone rehash alloc enc_ctx src h1 =
      (AWS_OP_SUCCESS tt, dest', h') /\
    aws_hash_table_is_valid dest' = true /\
    Permutation (map pair_bytes dest') (map pair_bytes src).
Proof.
  intros Hvs Hp. apply nodup_bytes_NoDup in Hvs.
  destruct (acquire_ok h Hp) as (h1 & Hacq & Hp1 & _).
  unfold aws_cryptosdk_enc_ctx_init, aws_hash_table_init. rewrite Hacq.
  destruct (clone_reconcile_ok alloc src [] h1 Hp1) as (dest' & h' & Hrun).
  exists [], h1, dest', h'. split; [reflexivity|].
  assert (Hclone : aws_cryptosdk_enc_ctx_clone rehash alloc [] src h1 =
                     (AWS_OP_SUCCESS tt, dest', h')) by exact Hrun.
  split; [exact Hclone|].
  apply clone_success_pairs in Hclone as [Hnd Hperm];
    [|constructor | assumption].
  split; [now apply nodup_bytes_NoDup | assumption].
Qed.

(** *** What a clone keeps *)




End CloneFurther.

Lemma clone_equal_is_noop_witness :
  aws_cryptosdk_enc_ctx_clone reversing_rehash 9%N sample_src_twin sample_src
    (mk_heap 100 [false; false] []) =
    (AWS_OP_SUCCESS tt, sample_src_twin, mk_heap 100 [false; false] []).
Proof.
  apply (clone_equal_is_noop reversing_rehash 9%N sample_src_twin sample_src
           (mk_heap 100 [false; false] [])).
  - reflexivity.
  - apply perm_swap.
Defined.

Lemma clone_idempotent_witness :
  aws_cryptosdk_enc_ctx_clone reversing_rehash 8%N sample_cloned sample_src
    (mk_heap 200 [false] []) =
    (AWS_OP_SUCCESS tt, sample_cloned, mk_heap 200 [false] []).
Proof.
  apply (clone_idempotent reversing_rehash reversing_rehash_perm 9%N 8%N
           sample_dest sample_src heap0 (mk_heap 200 [false] []) sample_cloned
           (mk_heap 102 [] [13%N; 11%N; 10%N])); reflexivity.
Defined.

Lemma clone_fails_only_without_memory_witness :
  (plan_ok heap0 = true ->
   exists dest' h',
     aws_cryptosdk_enc_ctx_clone reversing_rehash 9%N sample_dest sample_src
       heap0 = (AWS_OP_SUCCESS tt, dest', h')) /\
  (forall e dest' h',
     aws_cryptosdk_enc_ctx_clone reversing_rehash 9%N sample_dest sample_src
       heap0 = (AWS_OP_ERR e, dest', h') ->
     e = AWS_ERROR_OOM /\ plan_ok heap0 = false).
Proof.
  exact (clone_fails_only_without_memory reversing_rehash 9%N sample_dest
           sample_src heap0).
Defined.

Lemma clone_partial_update_witness :
  aws_hash_table_is_valid
    [ mk_elem (mk_aws_string 12 (Some 7%N) [x6b; x31])
              (mk_aws_string 13 (Some 7%N) [x6f; x6c; x64]) ] = true /\
  forall x,
    In x [ mk_elem (mk_aws_string 12 (Some 7%N) [x6b; x31])
                   (mk_aws_string 13 (Some 7%N) [x6f; x6c; x64]) ] ->
    In (key_bytes x) (map key_bytes sample_src) /\
    ((exists s, In s sample_src /\ pair_bytes s = pair_bytes x) \/
     In x sample_dest).
Proof.
  apply (clone_partial_update reversing_rehash reversing_rehash_perm 9%N
           sample_dest sample_src (mk_heap 100 [true; false] [])
           (AWS_OP_ERR AWS_ERROR_OOM) _ (mk_heap 101 [] [100%N; 11%N; 10%N]));
    reflexivity.
Defined.

Lemma init_then_clone_copies_witness :
  exists enc_ctx h1 dest' h',
    aws_cryptosdk_enc_ctx_init 9%N heap0 = (AWS_OP_SUCCESS enc_ctx, h1) /\
    aws_cryptosdk_enc_ctx_clone reversing_rehash 9%N enc_ctx sample_src h1 =
      (AWS_OP_SUCCESS tt, dest', h') /\
    aws_hash_table_is_valid dest' = true /\
    Permutation (map pair_bytes dest') (map pair_bytes sample_src).
Proof.
  apply (init_then_clone_copies reversing_rehash reversing_rehash_perm 9%N
           sample_src heap0); reflexivity.
Defined.

Lemma deserialize_oversize_not_reencodable_witness :
  exists t',
    aws_cryptosdk_enc_ctx_size t' =
      AWS_OP_ERR AWS_CRYPTOSDK_ERR_LIMIT_EXCEEDED /\
    aws_cryptosdk_enc_ctx_serialize 7%N sample_output t' heap0 =
      (AWS_OP_ERR AWS_CRYPTOSDK_ERR_LIMIT_EXCEEDED, sample_output, heap0).
Proof.
  destruct (deserialize_wire reversing_rehash reversing_rehash_perm 9%N
              sample_dest oversize_pairs [] heap0)
    as (t' & h' & Hrun & _).
  - discriminate.
  - vm_compute. discriminate.
  - repeat constructor; vm_compute; discriminate.
  - repeat constructor. intros [].
  - reflexivity.
  - exists t'.
    apply (deserialize_oversize_not_reencodable reversing_rehash
             reversing_rehash_perm 9%N 7%N sample_dest
             (wire_format (Z.of_nat (length oversize_pairs)) oversize_pairs)
             [] heap0 t' h' sample_output heap0 Hrun).
    vm_compute. reflexivity.
Defined.


Lemma deserialize_cursor_suffix_witness :
  exists consumed,
    [x00; x02; x00; x01; x6b; x00; x01; x61; x00; x05; x6c] =
      consumed ++ [x6c].
Proof.
  apply (deserialize_cursor_suffix reversing_rehash 9%N sample_dest
           [x00; x02; x00; x01; x6b; x00; x01; x61; x00; x05; x6c] heap0
           (AWS_OP_ERR AWS_ERROR_SHORT_BUFFER) []  [x6c]
           (mk_heap 103 [] [101%N; 100%N; 13%N; 12%N; 11%N; 10%N])).
  reflexivity.
Defined.
